(** * Japanese glossary generator: shallow embedding and verified properties

    The development follows the layout of the add-on:
    - [Py]          : the Python built-ins the modules rely on
    - [TextUtils]   : text_utils.py   (character classes, unique extraction)
    - [Config]      : config.py       (the configuration keys)
    - [Stats]       : stats.py        (the shared progress counters)
    - [ApiClient]   : api_client.py   (cached lookups and their accounting)
    - [Templates]   : templates.py
    - [Glossary]    : glossary_generator.py
    - [Processor]   : processor.py    (the batch loop and cancellation)
    The definitions come first; the properties of each module follow in a
    module of the same name with the suffix [Facts].

    Python strings are sequences of Unicode code points: a character is a
    code point in [N], a string is a [list N].  Python integers are
    unbounded: counters are in [Z]. *)

From Stdlib Require Import ZArith NArith QArith Lia Ascii String.
From stdpp Require Import gmap list sorting.

(** ASCII literals of the source (templates, key prefixes, status words) as
    code-point strings. *)
Fixpoint lit (s : string) : list N :=
  match s with
  | EmptyString => []
  | String a s' => N_of_ascii a :: lit s'
  end.

(** ** Python built-ins used by the source *)
Module Py.

(** [str.isspace] on one character: the code points CPython's
    [_PyUnicode_IsWhitespace] accepts. *)
Definition isspace (c : N) : bool :=
  ((0x09 <=? c) && (c <=? 0x0D) || (0x1C <=? c) && (c <=? 0x20)
   || (c =? 0x85) || (c =? 0xA0) || (c =? 0x1680)
   || (0x2000 <=? c) && (c <=? 0x200A)
   || (c =? 0x2028) || (c =? 0x2029) || (c =? 0x202F) || (c =? 0x205F)
   || (c =? 0x3000))%N.

(** [text.find(c)] for a one-character needle: index of the first
    occurrence, or -1. *)
Fixpoint find (c : N) (text : list N) : Z :=
  match text with
  | [] => -1
  | x :: rest =>
      if (x =? c)%N then 0
      else let r := find c rest in if (r <? 0)%Z then -1 else (r + 1)%Z
  end.

(** [sorted(l, key=...)], the comparison of keys given as [le].  Python's
    sort is stable; stable sorts agree on every input, so a stable insertion
    sort gives the same list. *)
Section Sorted.
Context {A : Type} (le : A → A → bool).

Fixpoint insert_sorted (x : A) (l : list A) : list A :=
  match l with
  | [] => [x]
  | y :: t => if le x y then x :: y :: t else y :: insert_sorted x t
  end.

Fixpoint sorted (l : list A) : list A :=
  match l with
  | [] => []
  | x :: t => insert_sorted x (sorted t)
  end.
End Sorted.

(** [sep.join(parts)] *)
Fixpoint join (sep : list N) (parts : list (list N)) : list N :=
  match parts with
  | [] => []
  | [p] => p
  | p :: rest => p ++ sep ++ join sep rest
  end.

(** Lexicographic comparison of strings by code point ([str.__le__]). *)
Fixpoint str_le (a b : list N) : bool :=
  match a, b with
  | [], _ => true
  | _ :: _, [] => false
  | x :: a', y :: b' =>
      if (x <? y)%N then true
      else if (x =? y)%N then str_le a' b' else false
  end.

(** [s.strip()]: leading and trailing whitespace removed. *)
Fixpoint lstrip (s : list N) : list N :=
  match s with
  | [] => []
  | c :: rest => if isspace c then lstrip rest else s
  end.

Definition rstrip (s : list N) : list N := rev (lstrip (rev s)).

Definition strip (s : list N) : list N := rstrip (lstrip s).

(** [re.sub(r'\s+', ' ', s)]: every maximal run of whitespace becomes one
    space; [in_run] tells whether the previous character belonged to the
    run being replaced.  The class [\s] of a str pattern is the whitespace
    of [str.isspace]. *)
Fixpoint sub_spaces (in_run : bool) (s : list N) : list N :=
  match s with
  | [] => []
  | c :: rest =>
      if isspace c then
        if in_run then sub_spaces true rest else 32%N :: sub_spaces true rest
      else c :: sub_spaces false rest
  end.

(** Whether the only whitespace of [s] is the single space U+0020 and no
    whitespace follows whitespace ([after_space]: the character before [s]
    was whitespace). *)
Fixpoint single_spaced (after_space : bool) (s : list N) : bool :=
  match s with
  | [] => true
  | c :: rest =>
      if isspace c then negb after_space && (c =? 32)%N && single_spaced true rest
      else single_spaced false rest
  end.

(** Whether the text can be written to a file opened with
    [encoding="utf-8"]: encoding raises UnicodeEncodeError on a surrogate
    code point (U+D800 to U+DFFF). *)
Definition utf8_encodable (s : list N) : bool :=
  forallb (λ c, negb ((0xD800 <=? c) && (c <=? 0xDFFF)))%N s.

(** What [f.write(s)] stores in a file opened in text mode with the default
    [newline=None]: every '\n' (code point 10) is stored as [os.linesep],
    which is "\n" or "\r\n" depending on the platform. *)
Definition write_newlines (linesep : list N) (s : list N) : list N :=
  flat_map (λ c, if (c =? 10)%N then linesep else [c]) s.

(** What [f.read()] returns for the stored text [s] of a file opened in
    text mode with the default [newline=None] (universal newlines): "\r\n"
    and a lone "\r" (code point 13) are read as "\n".  [after_cr]: the
    character before [s] was a "\r". *)
Fixpoint universal_newlines (after_cr : bool) (s : list N) : list N :=
  match s with
  | [] => []
  | c :: rest =>
      if (c =? 13)%N then 10%N :: universal_newlines true rest
      else if (c =? 10)%N then
        if after_cr then universal_newlines false rest
        else 10%N :: universal_newlines false rest
      else c :: universal_newlines false rest
  end.

End Py.

(** ** text_utils.py *)
Module TextUtils.

(** The three compiled character classes.  The hiragana and katakana
    classes both list the long-vowel mark U+30FC. *)
Definition KANJI_REGEX (c : N) : bool :=
  ((0x4E00 <=? c) && (c <=? 0x9FAF) || (0x20000 <=? c) && (c <=? 0x2A6DF))%N.
Definition HIRAGANA_REGEX (c : N) : bool :=
  ((0x3040 <=? c) && (c <=? 0x309F) || (c =? 0x30FC))%N.
Definition KATAKANA_REGEX (c : N) : bool :=
  ((0x30A0 <=? c) && (c <=? 0x30FF) || (c =? 0x30FC))%N.

(** [fullmatch] of a one-character string against a one-character class
    is membership in the class. *)
Definition is_hiragana (char : N) : bool := HIRAGANA_REGEX char.
Definition is_katakana (char : N) : bool := KATAKANA_REGEX char.
Definition is_kanji (char : N) : bool := KANJI_REGEX char.

Definition is_japanese_char (char : N) : bool :=
  is_hiragana char || is_katakana char || is_kanji char.

(** The generator expression collected into a Python [set]. *)
Definition japanese_char_set (text : list N) : gset N :=
  list_to_set (filter (λ c, is_japanese_char c && negb (Py.isspace c)) text).

(** [sorted(set(...), key=text.find)].  The set is iterated in the order
    [elements] gives; [extract_order_irrelevant] below shows that the
    iteration order does not matter. *)
Definition extract_unique_japanese_chars (text : list N) : list N :=
  Py.sorted (λ a b, (Py.find a text <=? Py.find b text)%Z)
            (elements (japanese_char_set text)).

Record categories := Categories {
  cat_hiragana : list N;
  cat_katakana : list N;
  cat_kanji : list N
}.

(** One iteration of the loop of [categorize_characters]. *)
Definition categorize_step (cats : categories) (char : N) : categories :=
  if is_hiragana char then
    Categories (cat_hiragana cats ++ [char]) (cat_katakana cats) (cat_kanji cats)
  else if is_katakana char then
    Categories (cat_hiragana cats) (cat_katakana cats ++ [char]) (cat_kanji cats)
  else if is_kanji char then
    Categories (cat_hiragana cats) (cat_katakana cats) (cat_kanji cats ++ [char])
  else cats.

Definition categorize_characters (text : list N) : categories :=
  foldl categorize_step (Categories [] [] []) (extract_unique_japanese_chars text).

Definition has_japanese_content (text : list N) : bool :=
  existsb is_japanese_char text.

Inductive char_type := hiragana | katakana | kanji | other.

(** [get_character_info]; the display string 'unicode_name' is not part
    of the record here. *)
Record character_info := CharacterInfo {
  info_character : N;
  info_is_hiragana : bool;
  info_is_katakana : bool;
  info_is_kanji : bool;
  info_is_japanese : bool;
  info_unicode_code : N;
  info_type : char_type
}.

Definition get_character_info (char : N) : character_info :=
  let h := is_hiragana char in
  let k := is_katakana char in
  let j := is_kanji char in
  CharacterInfo char h k j (is_japanese_char char) char
    (if h then hiragana else if k then katakana else if j then kanji else other).

Definition clean_text (text : list N) : list N :=
  match text with
  | [] => []
  | _ => Py.sub_spaces false (Py.strip text)
  end.

End TextUtils.

(** ** config.py: the recognised keys, as a typed record *)
Module Config.

Record general := General {
  include_hiragana : bool;
  include_katakana : bool;
  include_kanji : bool;
  include_romaji : bool;
  include_kanji_meanings : bool;
  ignore_existing_glossary_notes : bool;
  overwrite_existing_glossary_notes : bool
}.

Record performance := Performance {
  max_workers : Z;
  api_call_workers : Z;
  batch_size : Z;
  pause_between_batches_ms : Z;
  pause_per_api_call_ms : Z
}.

Record cache := Cache {
  cache_enabled : bool;
  cache_max_size_mb : Z;
  cache_save_interval_minutes : Z
}.

Record config := Build {
  cfg_general : general;
  cfg_performance : performance;
  cfg_cache : cache
}.

Definition get_default_config : config :=
  Build (General true true true true true false false)
        (Performance 4 2 50 500 50)
        (Cache true 10 15).

End Config.

(** ** stats.py *)
Module Stats.

(** [global_stats].  The wall-clock entries (start_time, elapsed_time,
    eta) are written by [start_processing] and [update_progress] only and
    read by the progress dialog only; they are not part of this record. *)
Record stats := Build {
  total_notes : Z;
  processed_notes : Z;
  updated_notes : Z;
  unchanged_notes : Z;
  empty_notes : Z;
  error_notes : Z;
  cache_hits : Z;
  api_calls : Z;
  is_cancelled : bool
}.

Definition reset_stats (_ : stats) : stats :=
  Build 0 0 0 0 0 0 0 0 false.

Definition start_processing (total : Z) (s : stats) : stats :=
  let s := reset_stats s in
  Build total (processed_notes s) (updated_notes s) (unchanged_notes s)
        (empty_notes s) (error_notes s) (cache_hits s) (api_calls s)
        (is_cancelled s).

(** [update_progress] touches the wall-clock entries only. *)
Definition update_progress (s : stats) : stats := s.

Definition increment_processed (s : stats) : stats :=
  update_progress
    (Build (total_notes s) (processed_notes s + 1) (updated_notes s)
           (unchanged_notes s) (empty_notes s) (error_notes s)
           (cache_hits s) (api_calls s) (is_cancelled s)).

Definition increment_updated (s : stats) : stats :=
  Build (total_notes s) (processed_notes s) (updated_notes s + 1)
        (unchanged_notes s) (empty_notes s) (error_notes s)
        (cache_hits s) (api_calls s) (is_cancelled s).

Definition increment_unchanged (s : stats) : stats :=
  Build (total_notes s) (processed_notes s) (updated_notes s)
        (unchanged_notes s + 1) (empty_notes s) (error_notes s)
        (cache_hits s) (api_calls s) (is_cancelled s).

Definition increment_empty (s : stats) : stats :=
  Build (total_notes s) (processed_notes s) (updated_notes s)
        (unchanged_notes s) (empty_notes s + 1) (error_notes s)
        (cache_hits s) (api_calls s) (is_cancelled s).

Definition increment_error (s : stats) : stats :=
  Build (total_notes s) (processed_notes s) (updated_notes s)
        (unchanged_notes s) (empty_notes s) (error_notes s + 1)
        (cache_hits s) (api_calls s) (is_cancelled s).

(** The two counters api_client.py bumps in place. *)
Definition increment_cache_hits (s : stats) : stats :=
  Build (total_notes s) (processed_notes s) (updated_notes s)
        (unchanged_notes s) (empty_notes s) (error_notes s)
        (cache_hits s + 1) (api_calls s) (is_cancelled s).

Definition increment_api_calls (s : stats) : stats :=
  Build (total_notes s) (processed_notes s) (updated_notes s)
        (unchanged_notes s) (empty_notes s) (error_notes s)
        (cache_hits s) (api_calls s + 1) (is_cancelled s).

Definition cancel_processing (s : stats) : stats :=
  Build (total_notes s) (processed_notes s) (updated_notes s)
        (unchanged_notes s) (empty_notes s) (error_notes s)
        (cache_hits s) (api_calls s) true.

Definition is_processing_cancelled (s : stats) : bool := is_cancelled s.

(** A Python number: the [int] literal 0 or the [float] the division
    produces.  The float is represented by the exact rational it rounds;
    IEEE rounding is not modelled. *)
Inductive pynum := PyInt (z : Z) | PyFloat (q : Q).

(** [a / b] on integers: raises ZeroDivisionError when [b = 0]. *)
Definition truediv (a b : Z) : option Q :=
  if (b =? 0)%Z then None else Some (Qmake a 1 / Qmake b 1)%Q.

(** [None] is a raised ZeroDivisionError. *)
Definition get_progress_percentage (s : stats) : option pynum :=
  if (total_notes s >? 0)%Z then
    match truediv (processed_notes s) (total_notes s) with
    | Some q => Some (PyFloat (q * Qmake 100 1)%Q)
    | None => None
    end
  else Some (PyInt 0).

End Stats.

(** ** api_client.py *)
Module ApiClient.
Import Config Stats.

(** What the kanji dictionary returns: a JSON object.  The three keys the
    add-on reads may each be absent; [ki_other_keys] tells whether the
    object has any further key (kanji, grade, stroke_count, ...). *)
Record kanji_info := KanjiInfo {
  ki_meanings : option (list (list N));
  ki_kun_readings : option (list (list N));
  ki_on_readings : option (list (list N));
  ki_other_keys : bool
}.

(** A value held in the cache or returned by a lookup: Python [None]
    (also JSON null), a string, or a dictionary. *)
Inductive value :=
| VNone
| VStr (s : list N)
| VDict (d : kanji_info).

Definition is_None (v : value) : bool :=
  match v with VNone => true | _ => false end.

(** The two remote services as seen by one call: what the HTTP request
    would answer, [VNone] when the request or the parse fails (both
    [_no_cache] functions catch every exception and return None). *)
Record remote := Remote {
  romaji2kana_json_a : list N → list N → value;
  kanjiapi_json : list N → value
}.

(** The process-wide state the gateway works on. *)
Record gateway := Gateway {
  global_api_cache : gmap (list N) value;
  global_stats : stats
}.

(** The configured pause before the request has no effect on the state. *)
Definition _call_romaji2kana_api_no_cache
    (net : remote) (endpoint text : list N) : value :=
  romaji2kana_json_a net endpoint text.

Definition _get_kanji_info_no_cache (net : remote) (kanji_char : list N) : value :=
  kanjiapi_json net kanji_char.

(** [key in global_api_cache] and [global_api_cache[key]] (the latter is
    only evaluated for a key that is present). *)
Definition cache_contains (g : gateway) (key : list N) : bool :=
  bool_decide (is_Some (global_api_cache g !! key)).
Definition cache_getitem (g : gateway) (key : list N) : value :=
  default VNone (global_api_cache g !! key).

Definition _call_romaji2kana_api_direct
    (config : config) (net : remote) (endpoint text : list N) (g : gateway)
    : value * gateway :=
  let cache_key := lit "romaji2kana_" ++ endpoint ++ lit "_" ++ text in
  if cache_enabled (cfg_cache config) && cache_contains g cache_key then
    (cache_getitem g cache_key,
     Gateway (global_api_cache g) (increment_cache_hits (global_stats g)))
  else
    let st := increment_api_calls (global_stats g) in
    let result := _call_romaji2kana_api_no_cache net endpoint text in
    if negb (is_None result) && cache_enabled (cfg_cache config) then
      (result, Gateway (<[cache_key := result]> (global_api_cache g)) st)
    else (result, Gateway (global_api_cache g) st).

Definition get_kanji_info
    (config : config) (net : remote) (kanji_char : list N) (g : gateway)
    : value * gateway :=
  let cache_key := lit "kanji_" ++ kanji_char in
  if cache_enabled (cfg_cache config) && cache_contains g cache_key then
    (cache_getitem g cache_key,
     Gateway (global_api_cache g) (increment_cache_hits (global_stats g)))
  else
    let st := increment_api_calls (global_stats g) in
    let result := _get_kanji_info_no_cache net kanji_char in
    if negb (is_None result) && cache_enabled (cfg_cache config) then
      (result, Gateway (<[cache_key := result]> (global_api_cache g)) st)
    else (result, Gateway (global_api_cache g) st).

Definition get_romaji_for_text config net text :=
  _call_romaji2kana_api_direct config net (lit "/v1/to/romaji") text.
Definition get_hiragana_for_text config net text :=
  _call_romaji2kana_api_direct config net (lit "/v1/to/hiragana") text.
Definition get_katakana_for_text config net text :=
  _call_romaji2kana_api_direct config net (lit "/v1/to/katakana") text.

(** A lookup attempt, and a run of attempts; each attempt meets the
    remote services as they answer at that moment. *)
Inductive request :=
| Romaji2Kana (endpoint text : list N)
| KanjiLookup (kanji_char : list N).

Definition cache_key_of (r : request) : list N :=
  match r with
  | Romaji2Kana endpoint text => lit "romaji2kana_" ++ endpoint ++ lit "_" ++ text
  | KanjiLookup kanji_char => lit "kanji_" ++ kanji_char
  end.

Definition lookup (config : config) (net : remote) (r : request) (g : gateway)
    : value * gateway :=
  match r with
  | Romaji2Kana endpoint text => _call_romaji2kana_api_direct config net endpoint text g
  | KanjiLookup kanji_char => get_kanji_info config net kanji_char g
  end.

Fixpoint run_lookups (config : config) (attempts : list (remote * request))
    (g : gateway) : gateway :=
  match attempts with
  | [] => g
  | (net, r) :: rest => run_lookups config rest (lookup config net r g).2
  end.

(** Whether a lookup is answered from the cache, and what the remote
    services answer to a request. *)
Definition served_from_cache (config : config) (r : request) (g : gateway) : bool :=
  cache_enabled (cfg_cache config) && cache_contains g (cache_key_of r).

Definition remote_answer (net : remote) (r : request) : value :=
  match r with
  | Romaji2Kana endpoint text => romaji2kana_json_a net endpoint text
  | KanjiLookup kanji_char => kanjiapi_json net kanji_char
  end.

(** A remote that never answers (every request fails), and one that
    answers every romanisation with "a". *)
Definition unreachable : remote := Remote (λ _ _, VNone) (λ _, VNone).
Definition answers_a : remote := Remote (λ _ _, VStr (lit "a")) (λ _, VNone).

Definition empty_gateway : gateway :=
  Gateway ∅ (Stats.Build 0 0 0 0 0 0 0 0 false).

(** The requests [generate_glossary_data] issues: romanisations through
    [get_romaji_for_text], and kanji entries. *)
Definition issued_by_generator (r : request) : Prop :=
  match r with
  | Romaji2Kana endpoint _ => endpoint = lit "/v1/to/romaji"
  | KanjiLookup _ => True
  end.

(** The requests of the four public lookups: [get_romaji_for_text],
    [get_hiragana_for_text], [get_katakana_for_text], [get_kanji_info]. *)
Definition public_request (r : request) : Prop :=
  match r with
  | Romaji2Kana endpoint _ =>
      endpoint = lit "/v1/to/romaji" ∨ endpoint = lit "/v1/to/hiragana"
      ∨ endpoint = lit "/v1/to/katakana"
  | KanjiLookup _ => True
  end.

(** No entry of the cache holds None. *)
Definition no_null (g : gateway) : Prop :=
  ∀ key, global_api_cache g !! key ≠ Some VNone.

End ApiClient.

(** ** cache.py *)
Module Cache.
Import Config Stats.

(** api_cache.json on disk: absent, not parseable as JSON, or holding the
    dictionary [json.dump] wrote.  The disk is taken to work: the except
    branches of this module, which only write to the log, are not
    reached. *)
Inductive cache_file :=
| Missing
| Unreadable
| Holds (entries : gmap (list N) ApiClient.value).

(** The interpreter state the cache lives in.  Dictionaries are objects:
    [heap] holds them by address, and a module-level name holds an
    address.  The name [global_api_cache] of cache.py is rebound by
    [load_api_cache] and [clear_api_cache].  The name [global_api_cache] of
    api_client.py is bound once, by [from .cache import global_api_cache]
    when api_client.py is first imported, to the object the name of
    cache.py refers to at that moment; it is [None] before. *)
Record world := World {
  heap : list (gmap (list N) ApiClient.value);
  cache_global_api_cache : nat;
  api_client_global_api_cache : option nat;
  api_cache_json : cache_file;
  world_stats : stats
}.

(** [global global_api_cache; global_api_cache = d] in cache.py, [d] a
    new dictionary. *)
Definition rebind (d : gmap (list N) ApiClient.value) (w : world) : world :=
  World (heap w ++ [d]) (length (heap w)) (api_client_global_api_cache w)
        (api_cache_json w) (world_stats w).

Definition load_api_cache (config : config) (w : world) : world :=
  if negb (cache_enabled (cfg_cache config)) then rebind ∅ w
  else
    match api_cache_json w with
    | Holds entries => rebind entries w
    | Unreadable => rebind ∅ w
    | Missing => rebind ∅ w
    end.

Definition save_api_cache (config : config) (w : world) : world :=
  if negb (cache_enabled (cfg_cache config)) then w
  else
    World (heap w) (cache_global_api_cache w) (api_client_global_api_cache w)
          (Holds (default ∅ (heap w !! cache_global_api_cache w)))
          (world_stats w).

Definition clear_api_cache (w : world) : world :=
  let w := rebind ∅ w in
  World (heap w) (cache_global_api_cache w) (api_client_global_api_cache w)
        Missing (world_stats w).

(** [get_cache_stats]: the entries "entries" and "enabled"; the file size
    in "file_size_mb" is read from the file system and is not part of this
    record. *)
Record cache_stats := CacheStats {
  cs_entries : nat;
  cs_enabled : bool
}.

Definition get_cache_stats (config : config) (w : world) : cache_stats :=
  CacheStats (size (default ∅ (heap w !! cache_global_api_cache w)))
             (cache_enabled (cfg_cache config)).

(** The first import of api_client.py; a module is executed once. *)
Definition import_api_client (w : world) : world :=
  match api_client_global_api_cache w with
  | Some _ => w
  | None =>
      World (heap w) (cache_global_api_cache w) (Some (cache_global_api_cache w))
            (api_cache_json w) (world_stats w)
  end.

(** The dictionary the gateway functions of api_client.py read and
    write. *)
Definition gateway_cache (w : world) : option (gmap (list N) ApiClient.value) :=
  match api_client_global_api_cache w with
  | Some address => heap w !! address
  | None => None
  end.

(** A gateway call in this state; there is none before api_client.py is
    imported. *)
Definition gateway_lookup (config : config) (net : ApiClient.remote)
    (r : ApiClient.request) (w : world) : option (ApiClient.value * world) :=
  match api_client_global_api_cache w with
  | None => None
  | Some address =>
      match heap w !! address with
      | None => None
      | Some d =>
          let '(v, g) :=
            ApiClient.lookup config net r (ApiClient.Gateway d (world_stats w)) in
          Some (v, World (<[address := ApiClient.global_api_cache g]> (heap w))
                         (cache_global_api_cache w) (Some address)
                         (api_cache_json w) (ApiClient.global_stats g))
      end
  end.

(** What happens to the cache during a session. *)
Inductive event :=
| LoadApiCache
| SaveApiCache
| ClearApiCache
| ImportApiClient
| Lookup (net : ApiClient.remote) (r : ApiClient.request).

Definition run_event (config : config) (w : world) (e : event) : world :=
  match e with
  | LoadApiCache => load_api_cache config w
  | SaveApiCache => save_api_cache config w
  | ClearApiCache => clear_api_cache w
  | ImportApiClient => import_api_client w
  | Lookup net r =>
      match gateway_lookup config net r w with
      | Some (_, w') => w'
      | None => w
      end
  end.

Definition run_events (config : config) (events : list event) (w : world)
    : world :=
  foldl (run_event config) w events.

(** The state right after cache.py is imported, with the file as the last
    session left it. *)
Definition initial_world (file : cache_file) : world :=
  World [∅] 0 None file (Stats.Build 0 0 0 0 0 0 0 0 false).

(** The gateway calls among the events, and the events that rebind no
    name. *)
Definition attempts_of (events : list event)
    : list (ApiClient.remote * ApiClient.request) :=
  flat_map (λ e, match e with Lookup net r => [(net, r)] | _ => [] end) events.

Definition keeps_names (e : event) : bool :=
  match e with
  | LoadApiCache | ClearApiCache => false
  | SaveApiCache | ImportApiClient | Lookup _ _ => true
  end.

(** The two names have parted: the gateway holds the dictionary at
    [address], with at least the entries of [d]; the name in cache.py
    refers to another, empty dictionary, and the file is absent or holds no
    entry. *)
Definition parted (address : nat) (d : gmap (list N) ApiClient.value)
    (w : world) : Prop :=
  api_client_global_api_cache w = Some address ∧
  (∃ d', heap w !! address = Some d' ∧ d ⊆ d') ∧
  cache_global_api_cache w ≠ address ∧
  heap w !! cache_global_api_cache w = Some ∅ ∧
  (api_cache_json w = Missing ∨ api_cache_json w = Holds ∅).

End Cache.

(** ** logger.py *)
Module Logger.

Inductive file_mode := ModeW | ModeA.

(** The module-level [log_file_mode] and japanese_glossary_log.txt: absent,
    or the text stored in it (the decoded bytes, before the translation of
    newlines that reading applies).  The file system is taken to work
    ([open] succeeds), and the file to hold UTF-8, which is all this module
    writes to it. *)
Record log_state := LogState {
  log_file_mode : file_mode;
  log_file : option (list N)
}.

(** The state right after logger.py is imported. *)
Definition initial_log (file : option (list N)) : log_state :=
  LogState ModeA file.

(** [f"[{timestamp}] {message}\n"] *)
Definition log_entry (timestamp message : list N) : list N :=
  lit "[" ++ timestamp ++ lit "] " ++ message ++ [10%N].

Section Platform.
(** [os.linesep] *)
Context (linesep : list N).

(** [write_log]; [timestamp] is the clock reading it formats.  [open] with
    mode "w" empties the file and with mode "a" creates it when it is
    absent.  When the entry cannot be encoded, [f.write] raises before
    anything is stored: the file stays as [open] left it, the mode is not
    switched, and the except branch only prints. *)
Definition write_log (timestamp message : list N) (st : log_state) : log_state :=
  let log_entry := log_entry timestamp message in
  match log_file_mode st with
  | ModeW =>
      if Py.utf8_encodable log_entry
      then LogState ModeA (Some (Py.write_newlines linesep log_entry))
      else LogState ModeW (Some [])
  | ModeA =>
      if Py.utf8_encodable log_entry
      then LogState ModeA
             (Some (default [] (log_file st) ++ Py.write_newlines linesep log_entry))
      else LogState ModeA (Some (default [] (log_file st)))
  end.

Definition clear_log (timestamp : list N) (st : log_state) : log_state :=
  let st := LogState ModeW (Some []) in
  write_log timestamp (lit "Log file cleared.") st.

(** Calls of the two writing functions, with the clock reading of each. *)
Inductive log_call :=
| WriteLog (timestamp message : list N)
| ClearLog (timestamp : list N).

Definition run_call (st : log_state) (c : log_call) : log_state :=
  match c with
  | WriteLog timestamp message => write_log timestamp message st
  | ClearLog timestamp => clear_log timestamp st
  end.

Definition run_calls (calls : list log_call) (st : log_state) : log_state :=
  foldl run_call st calls.

End Platform.

(** [get_log_content]: the file is read in text mode, with universal
    newlines. *)
Definition get_log_content (st : log_state) : list N :=
  match log_file st with
  | Some content => Py.universal_newlines false content
  | None => lit "Log file not found."
  end.

End Logger.

(** ** templates.py: each template with its [format] call *)
Module Templates.

Definition nl : list N := [10%N].

(** ['<li><span>{kana}</span>: <span>{romaji}</span></li>'] *)
Definition kana_entry (kana romaji : list N) : list N :=
  lit "<li><span>" ++ kana ++ lit "</span>: <span>" ++ romaji ++ lit "</span></li>".

Definition kanji_entry (kanji readings_html meanings_html : list N) : list N :=
  lit "<table>" ++ nl ++ lit "<tr>" ++ nl ++ lit "<th>Kanji</th>" ++ nl
  ++ lit "<td>" ++ kanji ++ lit "</td>" ++ nl ++ lit "</tr>" ++ nl
  ++ lit "<tr>" ++ nl ++ lit "<th>Readings</th>" ++ nl ++ lit "<td>" ++ nl
  ++ lit "<ul>" ++ nl ++ readings_html ++ nl ++ lit "</ul>" ++ nl
  ++ lit "</td>" ++ nl ++ lit "</tr>" ++ nl ++ lit "<tr>" ++ nl
  ++ lit "<th>Meanings</th>" ++ nl ++ lit "<td>" ++ meanings_html ++ lit "</td>" ++ nl
  ++ lit "</tr>" ++ nl ++ lit "</table>".

(** ['<li><strong>{type}:</strong> {reading} <span>({romaji})</span></li>'] *)
Definition kanji_reading (type reading romaji : list N) : list N :=
  lit "<li><strong>" ++ type ++ lit ":</strong> " ++ reading
  ++ lit " <span>(" ++ romaji ++ lit ")</span></li>".

(** ['<li><strong>{type}:</strong> {reading}</li>'] *)
Definition kanji_reading_no_romaji (type reading : list N) : list N :=
  lit "<li><strong>" ++ type ++ lit ":</strong> " ++ reading ++ lit "</li>".

Definition kanji_meanings (meanings : list N) : list N := meanings.

Definition hiragana_section (entries : list N) : list N :=
  lit "<h3>Hiragana</h3><ul>" ++ entries ++ lit "</ul>".
Definition katakana_section (entries : list N) : list N :=
  lit "<h3>Katakana</h3><ul>" ++ entries ++ lit "</ul>".
Definition kanji_section (entries : list N) : list N :=
  lit "<h3>Kanji</h3>" ++ entries.

End Templates.

(** ** glossary_generator.py *)
Module Glossary.
Import Config TextUtils.
Export ApiClient(kanji_info, KanjiInfo, ki_meanings, ki_kun_readings,
                 ki_on_readings, ki_other_keys).

(** Truth value of a lookup result: None and the empty string are false,
    and so is a dictionary without any key. *)
Definition truthy_str (r : option (list N)) : bool :=
  match r with Some (_ :: _) => true | _ => false end.

Definition dict_nonempty (d : kanji_info) : bool :=
  bool_decide (is_Some (ki_meanings d)) || bool_decide (is_Some (ki_kun_readings d))
  || bool_decide (is_Some (ki_on_readings d)) || ki_other_keys d.

Definition truthy_info (i : option kanji_info) : bool :=
  match i with Some d => dict_nonempty d | None => false end.

(** The entries of [api_results]: {"type": "kana", "romaji": ...} and
    {"type": "kanji", "info": ...}. *)
Inductive api_result :=
| KanaResult (romaji : option (list N))
| KanjiResult (info : option kanji_info).

(** The entries of the lists in [reading_results]. *)
Record reading_data := ReadingData {
  rd_reading : list N;
  rd_type : list N;
  rd_romaji : option (list N)
}.

Record entries := Entries {
  hiragana_entries : list (list N);
  katakana_entries : list (list N);
  kanji_entries : list (list N)
}.

Definition no_entries : entries := Entries [] [] [].

Definition entries_app (e1 e2 : entries) : entries :=
  Entries (hiragana_entries e1 ++ hiragana_entries e2)
          (katakana_entries e1 ++ katakana_entries e2)
          (kanji_entries e1 ++ kanji_entries e2).

(** The order in which [as_completed] hands back the futures of each of
    the three waves; it depends on the pool size and on timing.  The
    executor is one that could be built: [ThreadPoolExecutor] refuses
    api_call_workers <= 0 with a ValueError before any lookup is made, and
    [generate_glossary_data] then returns nothing. *)
Record completion := Completion {
  kana_completed : list N → list N;
  kanji_completed : list N → list N;
  reading_completed :
    list (N * list N * list N) → list (N * list N * list N)
}.

(** The sort key [(x['type'], x['reading'])], compared as Python compares
    tuples of strings. *)
Definition reading_key_le (a b : reading_data) : bool :=
  if decide (rd_type a = rd_type b)
  then Py.str_le (rd_reading a) (rd_reading b)
  else Py.str_le (rd_type a) (rd_type b).

(** Body of the loop over the sorted readings. *)
Definition render_reading (rd : reading_data) : list N :=
  if truthy_str (rd_romaji rd) then
    Templates.kanji_reading (rd_type rd) (rd_reading rd) (default [] (rd_romaji rd))
  else
    Templates.kanji_reading_no_romaji (rd_type rd) (rd_reading rd).

Section Generator.
(** [config], and the result of either gateway function for each query,
    typed as the services' contracts type them: a romanisation is a
    string or None, a kanji entry is a JSON object or None.  Against
    services that keep answering the same, the gateway's result for a query
    is the same whenever it is asked ([generator_lookups_fixed] below), so
    the results are functions of the query. *)
Context (config : config).
Context (get_romaji_for_text : list N → option (list N)).
Context (get_kanji_info : list N → option kanji_info).

Definition _process_kana_character (char : N) (romaji : list N) (e : entries)
    : entries :=
  let cfg_gen := cfg_general config in
  if is_hiragana char && include_hiragana cfg_gen then
    Entries (hiragana_entries e ++ [Templates.kana_entry [char] romaji])
            (katakana_entries e) (kanji_entries e)
  else if is_katakana char && include_katakana cfg_gen then
    Entries (hiragana_entries e)
            (katakana_entries e ++ [Templates.kana_entry [char] romaji])
            (kanji_entries e)
  else e.

Definition _process_kanji_character (char : N) (kanji_info : option kanji_info)
    (reading_results : list reading_data) (e : entries) : entries :=
  let cfg_gen := cfg_general config in
  match kanji_info with
  | None => e
  | Some info =>
      if negb (dict_nonempty info) then e else
      match ki_meanings info with
      | None => e
      | Some meanings =>
          let readings_html :=
            match reading_results with
            | [] => []
            | _ => foldl (λ html rd, html ++ render_reading rd) []
                         (Py.sorted reading_key_le reading_results)
            end in
          let meanings_html :=
            if include_kanji_meanings cfg_gen && bool_decide (meanings ≠ []) then
              Templates.kanji_meanings (Py.join (lit ", ") meanings)
            else [] in
          Entries (hiragana_entries e) (katakana_entries e)
                  (kanji_entries e
                   ++ [Templates.kanji_entry [char] readings_html meanings_html])
      end
  end.

Definition _build_final_glossary_html (e : entries) : list N :=
  let cfg_gen := cfg_general config in
  let final_glossary_html := [] in
  let final_glossary_html :=
    if bool_decide (hiragana_entries e ≠ []) && include_hiragana cfg_gen then
      final_glossary_html ++ [Templates.hiragana_section (Py.join [] (hiragana_entries e))]
    else final_glossary_html in
  let final_glossary_html :=
    if bool_decide (katakana_entries e ≠ []) && include_katakana cfg_gen then
      final_glossary_html ++ [Templates.katakana_section (Py.join [] (katakana_entries e))]
    else final_glossary_html in
  let final_glossary_html :=
    if bool_decide (kanji_entries e ≠ []) && include_kanji cfg_gen then
      final_glossary_html ++ [Templates.kanji_section (Py.join [] (kanji_entries e))]
    else final_glossary_html in
  Py.join [] final_glossary_html.

(** The readings submitted for one kanji: the "Kun" list, then the "On"
    list, each with the default [[]] of [dict.get]. *)
Definition readings_to_submit (char : N) (info : kanji_info)
    : list (N * list N * list N) :=
  map (λ reading, (char, reading, lit "Kun")) (default [] (ki_kun_readings info))
  ++ map (λ reading, (char, reading, lit "On")) (default [] (ki_on_readings info)).

(** Body of the loop collecting the kanji results. *)
Definition collect_kanji
    (acc : gmap N api_result * list (N * list N * list N)) (char : N)
    : gmap N api_result * list (N * list N * list N) :=
  let kanji_info := get_kanji_info [char] in
  let api_results := <[char := KanjiResult kanji_info]> acc.1 in
  if truthy_info kanji_info && include_romaji (cfg_general config) then
    match kanji_info with
    | Some info => (api_results, acc.2 ++ readings_to_submit char info)
    | None => (api_results, acc.2)
    end
  else (api_results, acc.2).

(** Body of the loop collecting the reading results. *)
Definition collect_reading (reading_results : gmap N (list reading_data))
    (fut : N * list N * list N) : gmap N (list reading_data) :=
  let '(kanji_char, reading, reading_type) := fut in
  let romaji := get_romaji_for_text reading in
  <[kanji_char :=
      default [] (reading_results !! kanji_char)
      ++ [ReadingData reading reading_type romaji]]> reading_results.

(** Body of the final loop over [unique_chars]. *)
Definition render_char (api_results : gmap N api_result)
    (reading_results : gmap N (list reading_data)) (e : entries) (char : N)
    : entries :=
  match api_results !! char with
  | None => e
  | Some (KanaResult romaji) =>
      if truthy_str romaji then
        _process_kana_character char (default [] romaji) e
      else e
  | Some (KanjiResult info) =>
      if truthy_info info then
        _process_kanji_character char info
          (default [] (reading_results !! char)) e
      else e
  end.

(** [generate_glossary_data] up to the three entry lists; [pool] gives the
    order in which the futures of each wave complete. *)
Definition generate_entries (pool : completion) (text : list N) : entries :=
  let cfg_gen := cfg_general config in
  let unique_chars := extract_unique_japanese_chars text in
  let kana_futures :=
    if include_hiragana cfg_gen || include_katakana cfg_gen
    then filter (λ char, is_hiragana char || is_katakana char) unique_chars
    else [] in
  let kanji_futures :=
    if include_kanji cfg_gen then filter (λ char, is_kanji char) unique_chars
    else [] in
  let api_results :=
    foldl (λ res char, <[char := KanaResult (get_romaji_for_text [char])]> res)
          ∅ (kana_completed pool kana_futures) in
  let '(api_results, reading_futures) :=
    foldl collect_kanji (api_results, []) (kanji_completed pool kanji_futures) in
  let reading_results :=
    foldl collect_reading ∅ (reading_completed pool reading_futures) in
  foldl (render_char api_results reading_results) (Entries [] [] []) unique_chars.

Definition generate_glossary_data (pool : completion) (text : list N) : list N :=
  _build_final_glossary_html (generate_entries pool text).

(** *** The rendering the specification describes
    Every character is rendered from its own lookup results, in
    extraction order, with the readings in submission order before the
    sort; no completion order enters. *)
Definition submitted (char : N) : list (N * list N * list N) :=
  match get_kanji_info [char] with
  | Some info =>
      if dict_nonempty info && include_romaji (cfg_general config)
      then readings_to_submit char info else []
  | None => []
  end.

Definition reading_of_future (fut : N * list N * list N) : reading_data :=
  ReadingData fut.1.2 fut.2 (get_romaji_for_text fut.1.2).

Definition readings_of (char : N) : list reading_data :=
  map reading_of_future (submitted char).

Definition render_in_order (e : entries) (char : N) : entries :=
  let cfg_gen := cfg_general config in
  if (is_hiragana char || is_katakana char)
     && (include_hiragana cfg_gen || include_katakana cfg_gen) then
    if truthy_str (get_romaji_for_text [char]) then
      _process_kana_character char (default [] (get_romaji_for_text [char])) e
    else e
  else if is_kanji char && include_kanji cfg_gen then
    if truthy_info (get_kanji_info [char]) then
      _process_kanji_character char (get_kanji_info [char]) (readings_of char) e
    else e
  else e.

Definition glossary_in_extraction_order (text : list N) : list N :=
  _build_final_glossary_html
    (foldl render_in_order (Entries [] [] []) (extract_unique_japanese_chars text)).

End Generator.

(** [as_completed] hands back every future exactly once. *)
Definition every_future_once (pool : completion) : Prop :=
  (∀ l, kana_completed pool l ≡ₚ l) ∧
  (∀ l, kanji_completed pool l ≡ₚ l) ∧
  (∀ l, reading_completed pool l ≡ₚ l).

(** Futures handed back in submission order, and in reverse order. *)
Definition fifo : completion := Completion id id id.
Definition lifo : completion := Completion (@rev _) (@rev _) (@rev _).

(** Sample lookup results for the examples: the romanisation service knows
    "で" (de) and "ゲン" (gen) only; the dictionary knows "元" with meanings
    and readings and "気" without a 'meanings' key. *)
Definition sample_romaji (text : list N) : option (list N) :=
  if decide (text = [0x3067%N]) then Some (lit "de")
  else if decide (text = [0x30B2; 0x30F3]%N) then Some (lit "gen")
  else None.

Definition sample_info_gen : kanji_info :=
  KanjiInfo (Some [lit "origin"; lit "beginning"]) (Some [[0x3082; 0x3068]%N])
            (Some [[0x30B2; 0x30F3]%N]) true.

Definition sample_info_ki : kanji_info :=
  KanjiInfo None (Some []) (Some [[0x30AD%N]]) true.

Definition sample_kanji (text : list N) : option kanji_info :=
  if decide (text = [0x5143%N]) then Some sample_info_gen
  else if decide (text = [0x6C17%N]) then Some sample_info_ki
  else None.

(** "元気です" *)
Definition sample_text : list N := [0x5143; 0x6C17; 0x3067; 0x3059]%N.

End Glossary.

(** ** processor.py *)
Module Processor.
Import Config Stats.

(** The status word of a task result ("Empty", "Updated", "Unchanged",
    "Error: ..."; the message after "Error" is only logged). *)
Inductive status := Empty | Updated | Unchanged | Error.

Record task_result := TaskResult {
  tr_note_id : Z;
  tr_glossary_html : option (list N);
  tr_status : status
}.

(** Where [_run_batch_glossary_process_background] stands. *)
Inductive phase :=
| LoopHead (batches : list (list Z))
    (** at the head of [for batch_index, batch_ids in enumerate(batches)] *)
| InPool (pending : list Z) (results : list task_result) (rest : list (list Z))
    (** inside the [with ThreadPoolExecutor] block of the current batch *)
| SaveLoop (todo : list task_result) (rest : list (list Z))
    (** at the head of [for note_id, glossary_html, status in results] *)
| CountLoop (todo : list task_result) (rest : list (list Z))
    (** just before [increment_processed()] of the current result *)
| Returned.

(** The collection maps a note id to the fields of the note. *)
Record job := Job {
  job_phase : phase;
  job_stats : stats;
  job_col : gmap Z (gmap (list N) (list N))
}.

(** [[note_ids[i:i + batch_size] for i in range(0, len(note_ids), batch_size)]]:
    a zero step makes [range] raise (None), a negative one makes it empty. *)
Fixpoint chunks (fuel n : nat) (l : list Z) : list (list Z) :=
  match fuel, l with
  | S fuel', _ :: _ => take n l :: chunks fuel' n (drop n l)
  | _, _ => []
  end.

Definition split_batches (batch_size : Z) (note_ids : list Z)
    : option (list (list Z)) :=
  if (batch_size =? 0)%Z then None
  else if (batch_size <? 0)%Z then Some []
  else Some (chunks (length note_ids) (Z.to_nat batch_size) note_ids).

Definition tally (s : stats) : Z :=
  (updated_notes s + unchanged_notes s + empty_notes s + error_notes s)%Z.

Definition counters_le (s s' : stats) : Prop :=
  (processed_notes s ≤ processed_notes s')%Z ∧
  (updated_notes s ≤ updated_notes s')%Z ∧
  (unchanged_notes s ≤ unchanged_notes s')%Z ∧
  (empty_notes s ≤ empty_notes s')%Z ∧
  (error_notes s ≤ error_notes s')%Z.

(** Results of the current batch that already bumped their category
    counter but are not yet counted as processed. *)
Definition bumped (r : task_result) : Z :=
  match tr_status r with Updated => 0 | _ => 1 end.

Definition uncounted (ph : phase) : Z :=
  match ph with
  | InPool _ results _ => foldr (λ r n, bumped r + n)%Z 0%Z results
  | SaveLoop todo _ => foldr (λ r n, bumped r + n)%Z 0%Z todo
  | CountLoop todo _ => (1 + foldr (λ r n, bumped r + n) 0 todo)%Z
  | LoopHead _ | Returned => 0%Z
  end.

(** The notes of the job that are not yet counted as processed: those of
    the batches to come and of the current batch. *)
Definition outstanding (ph : phase) : Z :=
  match ph with
  | LoopHead batches => Z.of_nat (length (concat batches))
  | InPool pending results rest =>
      Z.of_nat (length pending + length results + length (concat rest))
  | SaveLoop todo rest => Z.of_nat (length todo + length (concat rest))
  | CountLoop todo rest => Z.of_nat (1 + length todo + length (concat rest))
  | Returned => 0%Z
  end.

Definition between_batches (ph : phase) : bool :=
  match ph with LoopHead _ | Returned => true | _ => false end.

(** The batches that have not been started. *)
Definition batches_left (ph : phase) : list (list Z) :=
  match ph with
  | LoopHead batches => batches
  | InPool _ _ rest | SaveLoop _ rest | CountLoop _ rest => rest
  | Returned => []
  end.

Section Job.
Context (source_field target_field : list N).
(** [anki.utils.html_to_text_line] *)
Context (html_to_text_line : list N → list N).
(** The glossary of a source text; None when the call raises. *)
Context (generate_glossary_data : list N → option (list N)).
(** Whether [note.flush()] of a note succeeds. *)
Context (flush_ok : Z → bool).

Definition _process_note_task (col : gmap Z (gmap (list N) (list N)))
    (note_id : Z) (s : stats) : task_result * stats :=
  match col !! note_id with
  | None => (TaskResult note_id None Error, increment_error s)
  | Some note =>
      let source_text :=
        match note !! source_field with
        | Some html => html_to_text_line html
        | None => []
        end in
      if forallb Py.isspace source_text then
        (TaskResult note_id None Empty, increment_empty s)
      else
        match generate_glossary_data source_text with
        | None => (TaskResult note_id None Error, increment_error s)
        | Some [] => (TaskResult note_id None Unchanged, increment_unchanged s)
        | Some glossary_html =>
            match note !! target_field with
            | None => (TaskResult note_id None Error, increment_error s)
            | Some current =>
                if bool_decide (current ≠ glossary_html) then
                  (TaskResult note_id (Some glossary_html) Updated, s)
                else (TaskResult note_id None Unchanged, increment_unchanged s)
            end
        end
  end.

(** Body of the save loop up to [increment_processed()]. *)
Definition save_result (r : task_result) (s : stats)
    (col : gmap Z (gmap (list N) (list N)))
    : stats * gmap Z (gmap (list N) (list N)) :=
  match tr_status r with
  | Updated =>
      match col !! tr_note_id r with
      | Some note =>
          if bool_decide (is_Some (note !! target_field)) && flush_ok (tr_note_id r) then
            (increment_updated s,
             <[tr_note_id r := <[target_field := default [] (tr_glossary_html r)]> note]> col)
          else (increment_error s, col)
      | None => (increment_error s, col)
      end
  | _ => (s, col)
  end.

(** One step of the background thread. *)
Inductive thread_step : job → job → Prop :=
| step_break b rest s col :
    is_processing_cancelled s = true →
    thread_step (Job (LoopHead (b :: rest)) s col) (Job Returned s col)
| step_exhausted s col :
    thread_step (Job (LoopHead []) s col) (Job Returned s col)
| step_submit b rest s col :
    is_processing_cancelled s = false →
    thread_step (Job (LoopHead (b :: rest)) s col) (Job (InPool b [] rest) s col)
| step_task before nid after results rest s col r s' :
    _process_note_task col nid s = (r, s') →
    thread_step (Job (InPool (before ++ nid :: after) results rest) s col)
                (Job (InPool (before ++ after) (results ++ [r]) rest) s' col)
| step_joined results results' rest s col :
    results ≡ₚ results' →
    thread_step (Job (InPool [] results rest) s col)
                (Job (SaveLoop results' rest) s col)
| step_save r todo rest s col s' col' :
    save_result r s col = (s', col') →
    thread_step (Job (SaveLoop (r :: todo) rest) s col)
                (Job (CountLoop todo rest) s' col')
| step_count todo rest s col :
    thread_step (Job (CountLoop todo rest) s col)
                (Job (SaveLoop todo rest) (increment_processed s) col)
| step_next_batch rest s col :
    thread_step (Job (SaveLoop [] rest) s col) (Job (LoopHead rest) s col).

(** The user interface thread calling [cancel_processing()]. *)
Inductive cancel_step : job → job → Prop :=
| step_cancel ph s col :
    cancel_step (Job ph s col) (Job ph (cancel_processing s) col).

Definition step (j j' : job) : Prop := thread_step j j' ∨ cancel_step j j'.

(** *** The loop as a function
    One run of the loop, with the tasks of a batch completing in submission
    order; [cancel_at = Some k] is a user who calls [cancel_processing()]
    while batch number [k] is in the pool.  The executor of each batch is
    one that could be built (max_workers >= 1); the function around the
    loop, below, has the other case. *)
Fixpoint run_pool (col : gmap Z (gmap (list N) (list N))) (batch_ids : list Z)
    (s : stats) : list task_result * stats :=
  match batch_ids with
  | [] => ([], s)
  | nid :: rest =>
      let '(r, s1) := _process_note_task col nid s in
      let '(results, s2) := run_pool col rest s1 in
      (r :: results, s2)
  end.

Fixpoint save_loop (results : list task_result) (s : stats)
    (col : gmap Z (gmap (list N) (list N)))
    : stats * gmap Z (gmap (list N) (list N)) :=
  match results with
  | [] => (s, col)
  | r :: rest =>
      let '(s1, col1) := save_result r s col in
      save_loop rest (increment_processed s1) col1
  end.

Fixpoint batch_loop (cancel_at : option nat) (batch_index : nat)
    (batches : list (list Z)) (s : stats)
    (col : gmap Z (gmap (list N) (list N)))
    : stats * gmap Z (gmap (list N) (list N)) :=
  match batches with
  | [] => (s, col)
  | batch_ids :: rest =>
      if is_processing_cancelled s then (s, col)
      else
        let '(results, s1) := run_pool col batch_ids s in
        let s2 := if decide (cancel_at = Some batch_index)
                  then cancel_processing s1 else s1 in
        let '(s3, col3) := save_loop results s2 col in
        batch_loop cancel_at (S batch_index) rest s3 col3
  end.

(** [_run_batch_glossary_process_background]: None when the function
    raises, otherwise the returned pair (updated_notes, total_notes) with
    the statistics and the collection the run leaves behind.  It raises in
    two cases.  The list of batches cannot be built ([range] with step 0):
    the exception leaves the function before anything else happens.  Or
    [ThreadPoolExecutor] refuses max_workers <= 0 with a ValueError: this
    happens on entering the [with] block of the first batch (the flag has
    just been reset by [start_processing], so the loop does not break
    before), the [except] clause around the loop logs the error and raises
    it again, and no note has been handled by then. *)
Definition _run_batch_glossary_process_background (config : config)
    (cancel_at : option nat) (note_ids : list Z) (s0 : stats)
    (col : gmap Z (gmap (list N) (list N)))
    : option (Z * Z * stats * gmap Z (gmap (list N) (list N))) :=
  match split_batches (batch_size (cfg_performance config)) note_ids with
  | None => None
  | Some batches =>
      if bool_decide (batches ≠ [])
         && (max_workers (cfg_performance config) <=? 0)%Z
      then None
      else
        let '(s, col') :=
          batch_loop cancel_at 0 batches
            (start_processing (Z.of_nat (length note_ids)) s0) col in
        Some (updated_notes s, total_notes s, s, col')
  end.

(** What a task would write for a note: the glossary of its source text,
    when the note exists, the source is not blank, the glossary is not
    empty and the note has the target field. *)
Definition wanted (col : gmap Z (gmap (list N) (list N))) (note_id : Z)
    : option (list N) :=
  match col !! note_id with
  | None => None
  | Some note =>
      let source_text :=
        match note !! source_field with
        | Some html => html_to_text_line html
        | None => []
        end in
      if forallb Py.isspace source_text then None
      else
        match generate_glossary_data source_text, note !! target_field with
        | Some (c :: glossary_html), Some _ => Some (c :: glossary_html)
        | _, _ => None
        end
  end.

(** The note needs no update: nothing is wanted for it, or its target field
    already holds what is wanted. *)
Definition at_rest (col : gmap Z (gmap (list N) (list N))) (note_id : Z) : Prop :=
  ∀ glossary_html, wanted col note_id = Some glossary_html →
    ∃ note, col !! note_id = Some note ∧ note !! target_field = Some glossary_html.

(** What a task result may claim about its note at collection [col]: an
    "Updated" result carries what is wanted for the note, any other result
    is about a note at rest. *)
Definition sound (col : gmap Z (gmap (list N) (list N))) (r : task_result)
    : Prop :=
  match tr_status r with
  | Updated =>
      ∃ glossary_html,
        tr_glossary_html r = Some glossary_html ∧
        wanted col (tr_note_id r) = Some glossary_html
  | _ => at_rest col (tr_note_id r)
  end.

(** [col'] differs from [col] at most in the content of target fields:
    the same notes exist, with the same fields, and every other field holds
    what it held. *)
Definition only_target_written (col col' : gmap Z (gmap (list N) (list N))) : Prop :=
  ∀ note_id,
    match col !! note_id, col' !! note_id with
    | None, None => True
    | Some note, Some note' =>
        (∀ field, field ≠ target_field → note' !! field = note !! field) ∧
        (is_Some (note' !! target_field) ↔ is_Some (note !! target_field))
    | _, _ => False
    end.

(** The job right after [start_processing(len(note_ids))]. *)
Definition start_job (batches : list (list Z)) (total : Z) (s0 : stats)
    (col : gmap Z (gmap (list N) (list N))) : job :=
  Job (LoopHead batches) (start_processing total s0) col.

End Job.

(** The dialog [_on_batch_glossary_process_complete] shows: the background
    function's result ([None]: it raised) and the flag decide between the
    three texts. *)
Inductive info_message :=
| ProcessingCompleted (updated_count total_notes : Z)
| ProcessingCancelled (updated_count total_notes : Z)
| ErrorOccurred.

Definition _on_batch_glossary_process_complete
    (result : option (Z * Z)) (s : stats) : info_message :=
  match result with
  | Some (updated_count, total_notes) =>
      if negb (is_processing_cancelled s)
      then ProcessingCompleted updated_count total_notes
      else ProcessingCancelled updated_count total_notes
  | None => ErrorOccurred
  end.

(** Note types ([mw.col.models]): the name of a note type and the names of
    its fields, in order ([model['flds']]).  [new_field], [add_field] and
    [save] together append one field to the note type. *)
Definition add_field_to_model (models : gmap (list N) (list (list N)))
    (model_name field_name : list N)
    : bool * gmap (list N) (list (list N)) :=
  match models !! model_name with
  | None => (false, models)
  | Some existing_fields =>
      if bool_decide (field_name ∉ existing_fields) then
        (true, <[model_name := existing_fields ++ [field_name]]> models)
      else (true, models)
  end.

(** The two questions [run_batch_glossary_process] puts to the user. *)
Inductive question :=
| AskOverwrite (target_field : list N)
| AskCreate (target_field note_type_name : list N).

(** How [run_batch_glossary_process] ends: one of the four dialogs it
    returns after, or the background job handed to the task manager. *)
Inductive launch :=
| NoteTypeNotFound
| OperationCancelled
| FailedToAddField
| NoNotesFound
| Started (source_field target_field : list N) (note_ids : list Z).

(** The search query; code point 34 is the double quote. *)
Definition build_query (config : Config.config)
    (deck_name note_type_name target_field : list N) : list N :=
  let query :=
    lit "deck:" ++ [34%N] ++ deck_name ++ [34%N] ++ lit " note:" ++ [34%N]
      ++ note_type_name ++ [34%N] in
  if Config.ignore_existing_glossary_notes (Config.cfg_general config)
  then query ++ lit " " ++ target_field ++ lit ":"
  else query.

(** [run_batch_glossary_process], with the user's answers [askUser] and the
    collection's answer [find_notes] to a search. *)
Definition run_batch_glossary_process (config : Config.config)
    (askUser : question → bool) (find_notes : list N → list Z)
    (models : gmap (list N) (list (list N))) (s : Stats.stats)
    (deck_name note_type_name source_field target_field : list N)
    : launch * gmap (list N) (list (list N)) * Stats.stats :=
  let find_and_run (models : gmap (list N) (list (list N))) :=
    let note_ids :=
      find_notes (build_query config deck_name note_type_name target_field) in
    match note_ids with
    | [] => (NoNotesFound, models, s)
    | _ :: _ =>
        (Started source_field target_field note_ids, models,
         Stats.Build (Stats.total_notes s) (Stats.processed_notes s)
           (Stats.updated_notes s) (Stats.unchanged_notes s)
           (Stats.empty_notes s) (Stats.error_notes s) (Stats.cache_hits s)
           (Stats.api_calls s) false)
    end in
  match models !! note_type_name with
  | None => (NoteTypeNotFound, models, s)
  | Some model_fields =>
      if bool_decide (target_field ∈ model_fields) then
        if negb (Config.overwrite_existing_glossary_notes (Config.cfg_general config))
        then
          if negb (askUser (AskOverwrite target_field))
          then (OperationCancelled, models, s)
          else find_and_run models
        else find_and_run models
      else
        if negb (askUser (AskCreate target_field note_type_name))
        then (OperationCancelled, models, s)
        else
          let '(added, models') :=
            add_field_to_model models note_type_name target_field in
          if negb added then (FailedToAddField, models', s)
          else find_and_run models'
  end.

(** The same job with [cancel_processing()] called. *)
Definition with_cancel_requested (j : job) : job :=
  Job (job_phase j) (cancel_processing (job_stats j)) (job_col j).

Definition balanced (j : job) : Prop :=
  tally (job_stats j) = (processed_notes (job_stats j) + uncounted (job_phase j))%Z.

(** For the examples: fresh statistics, and a collection holding one note
    (id 1) without any field. *)
Definition zero_stats : stats := Stats.Build 0 0 0 0 0 0 0 0 false.

Definition one_blank_note : gmap Z (gmap (list N) (list N)) := {[ 1%Z := ∅ ]}.

End Processor.

(** * Properties *)

(** ** Facts about the Python built-ins *)
Section SortedFacts.
Context {A : Type} (le : A → A → bool).
Hypothesis le_total : ∀ a b, le a b = true ∨ le b a = true.
Hypothesis le_trans : ∀ a b c, le a b = true → le b c = true → le a c = true.

Lemma insert_sorted_perm x l : Py.insert_sorted le x l ≡ₚ x :: l.
Proof.
  induction l as [|y t IH]; simpl; [done|].
  destruct (le x y); [done|]. rewrite IH. apply Permutation_swap.
Qed.

Lemma sorted_perm l : Py.sorted le l ≡ₚ l.
Proof.
  induction l as [|x t IH]; simpl; [done|].
  by rewrite insert_sorted_perm, IH.
Qed.

Lemma insert_sorted_strongly x l :
  StronglySorted (λ a b, le a b = true) l →
  StronglySorted (λ a b, le a b = true) (Py.insert_sorted le x l).
Proof.
  induction 1 as [|y t Ht IH Hy]; simpl.
  - repeat constructor.
  - destruct (le x y) eqn:Hxy.
    + constructor; [by constructor|].
      constructor; [done|].
      eapply Forall_impl; [exact Hy|]. intros z Hz. by eapply le_trans.
    + constructor; [done|].
      rewrite insert_sorted_perm. constructor; [|done].
      destruct (le_total x y); congruence.
Qed.

Lemma sorted_strongly l : StronglySorted (λ a b, le a b = true) (Py.sorted le l).
Proof.
  induction l; simpl; [constructor|]. by apply insert_sorted_strongly.
Qed.

(** Sorting does not depend on the order of the input when no two distinct
    elements of it compare equal. *)
Lemma sorted_order_irrelevant l1 l2 :
  l1 ≡ₚ l2 →
  (∀ a b, a ∈ l1 → b ∈ l1 → le a b = true → le b a = true → a = b) →
  Py.sorted le l1 = Py.sorted le l2.
Proof.
  intros Hp Hanti.
  apply (StronglySorted_unique_strong (λ a b, le a b = true));
    [|apply sorted_strongly..|by rewrite !sorted_perm].
  intros a b Ha Hb. rewrite sorted_perm in Ha.
  rewrite sorted_perm, <-Hp in Hb. by apply Hanti.
Qed.
End SortedFacts.

Lemma find_elem_of c text :
  c ∈ text → (0 ≤ Py.find c text)%Z ∧ text !! Z.to_nat (Py.find c text) = Some c.
Proof.
  induction text as [|x rest IH]; intros Hin; [by apply elem_of_nil in Hin|].
  simpl. destruct (N.eqb_spec x c) as [->|Hne]; [done|].
  apply elem_of_cons in Hin as [->|Hin]; [done|].
  destruct (IH Hin) as [Hge Hlk].
  destruct (Z.ltb_spec (Py.find c rest) 0); [lia|].
  split; [lia|].
  replace (Z.to_nat (Py.find c rest + 1)) with (S (Z.to_nat (Py.find c rest))) by lia.
  done.
Qed.

Lemma find_inj a b text :
  a ∈ text → b ∈ text → Py.find a text = Py.find b text → a = b.
Proof.
  intros Ha Hb Heq.
  destruct (find_elem_of a text Ha) as [_ H1].
  destruct (find_elem_of b text Hb) as [_ H2].
  rewrite Heq in H1. congruence.
Qed.

(** ** text_utils.py *)
Module TextUtilsFacts.
Import TextUtils.

Ltac ranges :=
  unfold is_japanese_char, is_hiragana, is_katakana, is_kanji, HIRAGANA_REGEX,
    KATAKANA_REGEX, KANJI_REGEX, Py.isspace in *;
  repeat (progress rewrite ?orb_true_iff, ?andb_true_iff, ?orb_false_iff,
            ?andb_false_iff, ?N.leb_le, ?N.leb_gt, ?N.eqb_eq, ?N.eqb_neq in * );
  try lia.

Lemma both_kana_iff c :
  is_hiragana c && is_katakana c = true ↔ c = 0x30FC%N.
Proof. ranges. Qed.

Lemma kanji_not_kana c :
  is_kanji c = true → is_hiragana c = false ∧ is_katakana c = false.
Proof. ranges. Qed.

Lemma japanese_not_space c : is_japanese_char c = true → Py.isspace c = false.
Proof. ranges. Qed.

Lemma elem_of_japanese_char_set c text :
  c ∈ japanese_char_set text ↔
  c ∈ text ∧ is_japanese_char c = true ∧ Py.isspace c = false.
Proof.
  unfold japanese_char_set.
  rewrite elem_of_list_to_set, list_elem_of_filter.
  rewrite andb_True, negb_True, Is_true_true, Is_true_false. tauto.
Qed.

Lemma find_le_total text a b :
  (Py.find a text <=? Py.find b text)%Z = true ∨
  (Py.find b text <=? Py.find a text)%Z = true.
Proof. rewrite !Z.leb_le. lia. Qed.

Lemma find_le_trans text a b c :
  (Py.find a text <=? Py.find b text)%Z = true →
  (Py.find b text <=? Py.find c text)%Z = true →
  (Py.find a text <=? Py.find c text)%Z = true.
Proof. rewrite !Z.leb_le. lia. Qed.

Lemma extract_perm text :
  extract_unique_japanese_chars text ≡ₚ elements (japanese_char_set text).
Proof. apply sorted_perm. Qed.

Lemma elem_of_extract c text :
  c ∈ extract_unique_japanese_chars text ↔
  c ∈ text ∧ is_japanese_char c = true ∧ Py.isspace c = false.
Proof. by rewrite extract_perm, elem_of_elements, elem_of_japanese_char_set. Qed.

Lemma extract_NoDup text : NoDup (extract_unique_japanese_chars text).
Proof. rewrite extract_perm. apply NoDup_elements. Qed.

(** The iteration order of the set plays no part: sorting any enumeration
    of the set gives the same list. *)
Lemma extract_order_irrelevant text l :
  l ≡ₚ elements (japanese_char_set text) →
  Py.sorted (λ a b, (Py.find a text <=? Py.find b text)%Z) l
  = extract_unique_japanese_chars text.
Proof.
  intros Hp. unfold extract_unique_japanese_chars.
  apply sorted_order_irrelevant;
    [apply find_le_total|apply find_le_trans|done|].
  intros a b Ha Hb H1 H2. rewrite Hp, elem_of_elements in Ha, Hb.
  apply elem_of_japanese_char_set in Ha as [Ha _], Hb as [Hb _].
  apply Z.leb_le in H1, H2. apply (find_inj a b text); [done..|lia].
Qed.

Lemma extract_increasing text i j a b :
  extract_unique_japanese_chars text !! i = Some a →
  extract_unique_japanese_chars text !! j = Some b →
  (i < j)%nat → (Py.find a text < Py.find b text)%Z.
Proof.
  intros Hi Hj Hlt.
  pose proof (sorted_strongly _ (find_le_total text) (find_le_trans text)
                (elements (japanese_char_set text))) as Hs.
  fold (extract_unique_japanese_chars text) in Hs.
  pose proof (extract_NoDup text) as Hnd.
  assert (a ∈ extract_unique_japanese_chars text) as Ha
    by (eapply list_elem_of_lookup_2; eauto).
  assert (b ∈ extract_unique_japanese_chars text) as Hb
    by (eapply list_elem_of_lookup_2; eauto).
  assert ((Py.find a text <=? Py.find b text)%Z = true) as Hle.
  { revert i j Hi Hj Hlt. clear Ha Hb Hnd.
    induction Hs as [|x l Hl IH Hx]; intros i j Hi Hj Hlt; [done|].
    destruct i as [|i], j as [|j]; try lia; simpl in *.
    - injection Hi as ->. rewrite Forall_forall in Hx. apply Hx.
      eapply list_elem_of_lookup_2; eauto.
    - eapply IH; eauto. lia. }
  apply Z.leb_le in Hle.
  destruct (decide (Py.find a text = Py.find b text)) as [Heq|]; [|lia].
  apply elem_of_extract in Ha as [Ha _], Hb as [Hb _].
  pose proof (find_inj a b text Ha Hb Heq) as ->.
  pose proof (NoDup_lookup _ i j b Hnd Hi Hj). lia.
Qed.

Lemma categorize_fold l cats :
  foldl categorize_step cats l =
  Categories
    (cat_hiragana cats ++ filter (λ c, is_hiragana c) l)
    (cat_katakana cats ++ filter (λ c, negb (is_hiragana c) && is_katakana c) l)
    (cat_kanji cats ++ filter (λ c, is_kanji c) l).
Proof.
  revert cats. induction l as [|c l IH]; intros cats; simpl.
  - rewrite !app_nil_r. by destruct cats.
  - rewrite IH. unfold categorize_step. rewrite !filter_cons.
    pose proof (kanji_not_kana c) as Hk.
    destruct (is_hiragana c) eqn:Hh, (is_katakana c) eqn:Hkk, (is_kanji c);
      simpl; try (by destruct Hk); rewrite <-?app_assoc; done.
Qed.

(** C5: extract_unique_japanese_chars returns every Japanese character of
    the input exactly once (no duplicates; membership is exactly "occurs in
    the text and is hiragana, katakana or kanji"), never a whitespace
    character, in increasing order of the index of the first occurrence;
    on the four characters U+3042 U+3044 U+3042 U+3046 it returns
    U+3042, U+3044, U+3046. *)
Theorem extract_unique_first_appearance (text : list N) :
  NoDup (extract_unique_japanese_chars text) ∧
  (∀ c, c ∈ extract_unique_japanese_chars text ↔
        c ∈ text ∧ is_japanese_char c = true) ∧
  (∀ c, c ∈ extract_unique_japanese_chars text → Py.isspace c = false) ∧
  (∀ i j a b,
      extract_unique_japanese_chars text !! i = Some a →
      extract_unique_japanese_chars text !! j = Some b →
      (i < j)%nat → (0 ≤ Py.find a text < Py.find b text)%Z) ∧
  extract_unique_japanese_chars [0x3042; 0x3044; 0x3042; 0x3046]%N
  = [0x3042; 0x3044; 0x3046]%N.
Proof.
  split; [apply extract_NoDup|].
  split.
  { intros c. rewrite elem_of_extract. split; [tauto|].
    intros [? ?]. auto using japanese_not_space. }
  split; [intros c Hc; by apply elem_of_extract in Hc as (_ & _ & ?)|].
  split; [|vm_compute; reflexivity].
  intros i j a b Hi Hj Hlt. split; [|by eapply extract_increasing].
  apply find_elem_of. apply list_elem_of_lookup_2 in Hi.
  by apply elem_of_extract in Hi as [? _].
Qed.

Lemma type_cases c :
  (info_type (get_character_info c) = hiragana ↔ is_hiragana c = true) ∧
  (info_type (get_character_info c) = katakana ↔
     is_katakana c = true ∧ c ≠ 0x30FC%N) ∧
  (info_type (get_character_info c) = kanji ↔ is_kanji c = true) ∧
  (info_type (get_character_info c) = other ↔ is_japanese_char c = false).
Proof.
  pose proof (both_kana_iff c) as Hboth.
  pose proof (kanji_not_kana c) as Hk.
  unfold get_character_info, is_japanese_char; simpl.
  destruct (is_hiragana c), (is_katakana c), (is_kanji c); simpl in *;
    repeat split; try done; try (intros [? ?]; done); try (by destruct Hk).
  - intros [_ Hne]. destruct Hne. by apply Hboth.
  - intros Hc. by apply Hboth in Hc.
Qed.

(** C6: the type [get_character_info] assigns to a code point is one of
    hiragana, katakana, kanji, other, each characterised by the predicates;
    the three predicates exclude one another except that U+30FC satisfies
    both kana predicates; [get_character_info] and [categorize_characters]
    file U+30FC (and every character) under hiragana first. *)
Theorem classification_exclusive (c : N) :
  (info_type (get_character_info c) = hiragana ↔ is_hiragana c = true) ∧
  (info_type (get_character_info c) = katakana ↔
     is_katakana c = true ∧ c ≠ 0x30FC%N) ∧
  (info_type (get_character_info c) = kanji ↔ is_kanji c = true) ∧
  (info_type (get_character_info c) = other ↔ is_japanese_char c = false) ∧
  (is_hiragana c && is_katakana c = true ↔ c = 0x30FC%N) ∧
  is_hiragana c && is_kanji c = false ∧
  is_katakana c && is_kanji c = false ∧
  info_type (get_character_info 0x30FC%N) = hiragana ∧
  (∀ text,
     cat_hiragana (categorize_characters text)
       = filter (λ c, is_hiragana c) (extract_unique_japanese_chars text) ∧
     cat_katakana (categorize_characters text)
       = filter (λ c, negb (is_hiragana c) && is_katakana c)
                (extract_unique_japanese_chars text) ∧
     cat_kanji (categorize_characters text)
       = filter (λ c, is_kanji c) (extract_unique_japanese_chars text)) ∧
  categorize_characters [0x30FC%N] = Categories [0x30FC%N] [] [].
Proof.
  destruct (type_cases c) as (H1 & H2 & H3 & H4).
  do 4 (split; [done|]).
  split; [apply both_kana_iff|].
  split.
  { destruct (is_kanji c) eqn:Hk; [|by rewrite andb_false_r].
    by destruct (kanji_not_kana c Hk) as [-> _]. }
  split.
  { destruct (is_kanji c) eqn:Hk; [|by rewrite andb_false_r].
    by destruct (kanji_not_kana c Hk) as [_ ->]. }
  split; [reflexivity|].
  split; [|vm_compute; reflexivity].
  intros text. unfold categorize_characters. by rewrite categorize_fold.
Qed.

End TextUtilsFacts.

(** ** stats.py *)
Module StatsFacts.
Import Stats.

(** C9: get_progress_percentage never divides by zero: it returns a number
    in every state; with total_notes = 0 it returns 0, and with any other
    total a job can set (the length of the note list, so positive) it
    returns processed_notes / total_notes * 100. *)
Theorem get_progress_percentage_safe (s : stats) :
  get_progress_percentage s ≠ None ∧
  (total_notes s = 0%Z → get_progress_percentage s = Some (PyInt 0)) ∧
  ((0 ≤ total_notes s)%Z → total_notes s ≠ 0%Z →
   truediv (processed_notes s) (total_notes s)
     = Some (Qmake (processed_notes s) 1 / Qmake (total_notes s) 1)%Q ∧
   get_progress_percentage s
     = Some (PyFloat (Qmake (processed_notes s) 1 / Qmake (total_notes s) 1
                      * Qmake 100 1)%Q)).
Proof.
  unfold get_progress_percentage, truediv.
  destruct (Z.gtb_spec (total_notes s) 0) as [Hpos|Hle].
  - destruct (Z.eqb_spec (total_notes s) 0) as [Hz|_]; [lia|].
    repeat split; try done. lia.
  - repeat split; try done; lia.
Qed.

Lemma get_progress_percentage_safe_witness :
  get_progress_percentage (Build 4 1 1 0 0 0 0 0 false)
  = Some (PyFloat (Qmake 1 1 / Qmake 4 1 * Qmake 100 1)%Q).
Proof.
  apply (get_progress_percentage_safe (Build 4 1 1 0 0 0 0 0 false));
    simpl; lia.
Defined.

End StatsFacts.

(** ** api_client.py *)
Module ApiClientFacts.
Import Config Stats ApiClient.

(** Both gateway functions follow one scheme. *)
Lemma lookup_unfold config net r g :
  lookup config net r g =
  if served_from_cache config r g then
    (cache_getitem g (cache_key_of r),
     Gateway (global_api_cache g) (increment_cache_hits (global_stats g)))
  else if negb (is_None (remote_answer net r)) && cache_enabled (cfg_cache config) then
    (remote_answer net r,
     Gateway (<[cache_key_of r := remote_answer net r]> (global_api_cache g))
             (increment_api_calls (global_stats g)))
  else
    (remote_answer net r,
     Gateway (global_api_cache g) (increment_api_calls (global_stats g))).
Proof. by destruct r. Qed.

Lemma lookup_counts config net r g :
  let s := global_stats g in
  let s' := global_stats (lookup config net r g).2 in
  (served_from_cache config r g = true ∧
   cache_hits s' = (cache_hits s + 1)%Z ∧ api_calls s' = api_calls s) ∨
  (served_from_cache config r g = false ∧
   cache_hits s' = cache_hits s ∧ api_calls s' = (api_calls s + 1)%Z).
Proof.
  simpl. rewrite lookup_unfold.
  destruct (served_from_cache config r g); [left; done|right].
  by destruct (negb _ && _).
Qed.

Lemma run_lookups_counts config attempts g :
  let s := global_stats g in
  let s' := global_stats (run_lookups config attempts g) in
  (cache_hits s' + api_calls s' = cache_hits s + api_calls s + Z.of_nat (length attempts))%Z.
Proof.
  simpl. revert g. induction attempts as [|[net r] rest IH]; intros g; simpl.
  - lia.
  - rewrite IH. destruct (lookup_counts config net r g) as [(_&->&->)|(_&->&->)]; lia.
Qed.

Lemma served_after_store config r g v s :
  cache_enabled (cfg_cache config) = true →
  served_from_cache config r (Gateway (<[cache_key_of r := v]> (global_api_cache g)) s)
  = true.
Proof.
  intros He. unfold served_from_cache, cache_contains. rewrite He. simpl.
  rewrite lookup_insert_eq. by apply bool_decide_eq_true.
Qed.

Lemma lookup_store config net r g :
  let g' := (lookup config net r g).2 in
  global_api_cache g' = global_api_cache g ∨
  (cache_enabled (cfg_cache config) = true ∧
   remote_answer net r ≠ VNone ∧
   (lookup config net r g).1 = remote_answer net r ∧
   global_api_cache g' = <[cache_key_of r := remote_answer net r]> (global_api_cache g)).
Proof.
  simpl. rewrite lookup_unfold.
  destruct (served_from_cache config r g); [by left|].
  destruct (negb _ && _) eqn:Hst; [right|by left].
  apply andb_true_iff in Hst as [Hnn He]. simpl.
  repeat split; try done. by destruct (remote_answer net r).
Qed.

Lemma lookup_no_null config net r g :
  no_null g → no_null (lookup config net r g).2.
Proof.
  intros Hg. destruct (lookup_store config net r g) as [Heq|(_&Hnn&_&Heq)];
    intros key; rewrite Heq; [apply Hg|].
  destruct (decide (cache_key_of r = key)) as [<-|Hne].
  - rewrite lookup_insert_eq. congruence.
  - rewrite lookup_insert_ne by done. apply Hg.
Qed.

Lemma run_lookups_no_null config attempts g :
  no_null g → no_null (run_lookups config attempts g).
Proof.
  revert g. induction attempts as [|[net r] rest IH]; intros g Hg; simpl; [done|].
  by apply IH, lookup_no_null.
Qed.

Lemma lookup_after_store config net r g v s :
  cache_enabled (cfg_cache config) = true →
  lookup config net r (Gateway (<[cache_key_of r := v]> (global_api_cache g)) s)
  = (v, Gateway (<[cache_key_of r := v]> (global_api_cache g))
                (increment_cache_hits s)).
Proof.
  intros He. rewrite lookup_unfold, served_after_store by done.
  unfold cache_getitem. simpl. by rewrite lookup_insert_eq.
Qed.

(** C3 as stated fails: with caching enabled and a remote that does not
    answer, fetching one key twice calls the API twice. *)
Lemma same_key_twice_can_call_twice :
  ¬ (∀ config net r g,
       cache_enabled (cfg_cache config) = true →
       api_calls (global_stats (run_lookups config [(net, r); (net, r)] g))
       = (api_calls (global_stats g) + 1)%Z).
Proof.
  intros H.
  specialize (H get_default_config unreachable
                (Romaji2Kana (lit "/v1/to/romaji") [0x3042%N]) empty_gateway eq_refl).
  vm_compute in H. discriminate H.
Qed.

(** C3 (amended): every lookup increments exactly one of cache_hits and
    api_calls, by one (cache_hits when it is answered from the cache,
    api_calls otherwise), so after any run of lookups their sum has grown by
    the number of lookups.  With caching enabled, a key that is not cached
    and whose first fetch gets a non-null answer costs exactly one api_calls
    increment over two fetches (the second is a cache hit); when the first
    answer is null nothing is stored and the second fetch calls again; a key
    already cached costs none. *)
Theorem gateway_accounting (config : config) :
  (∀ net r g,
     let s := global_stats g in
     let s' := global_stats (lookup config net r g).2 in
     (served_from_cache config r g = true ∧
      cache_hits s' = (cache_hits s + 1)%Z ∧ api_calls s' = api_calls s) ∨
     (served_from_cache config r g = false ∧
      cache_hits s' = cache_hits s ∧ api_calls s' = (api_calls s + 1)%Z)) ∧
  (∀ attempts g,
     let s := global_stats g in
     let s' := global_stats (run_lookups config attempts g) in
     (cache_hits s' + api_calls s'
      = cache_hits s + api_calls s + Z.of_nat (length attempts))%Z) ∧
  (∀ net1 net2 r g,
     cache_enabled (cfg_cache config) = true →
     cache_contains g (cache_key_of r) = false →
     remote_answer net1 r ≠ VNone →
     let s := global_stats g in
     let s' := global_stats (run_lookups config [(net1, r); (net2, r)] g) in
     api_calls s' = (api_calls s + 1)%Z ∧ cache_hits s' = (cache_hits s + 1)%Z) ∧
  (∀ net1 net2 r g,
     cache_contains g (cache_key_of r) = false →
     remote_answer net1 r = VNone →
     let s := global_stats g in
     let s' := global_stats (run_lookups config [(net1, r); (net2, r)] g) in
     api_calls s' = (api_calls s + 2)%Z ∧ cache_hits s' = cache_hits s) ∧
  (∀ net1 net2 r g,
     cache_enabled (cfg_cache config) = true →
     cache_contains g (cache_key_of r) = true →
     let s := global_stats g in
     let s' := global_stats (run_lookups config [(net1, r); (net2, r)] g) in
     api_calls s' = api_calls s ∧ cache_hits s' = (cache_hits s + 2)%Z).
Proof.
  split; [apply lookup_counts|].
  split; [apply run_lookups_counts|].
  split; [|split].
  - intros net1 net2 r g He Hmiss Hans. simpl.
    assert (lookup config net1 r g
            = (remote_answer net1 r,
               Gateway (<[cache_key_of r := remote_answer net1 r]> (global_api_cache g))
                       (increment_api_calls (global_stats g)))) as ->.
    { rewrite lookup_unfold. unfold served_from_cache. rewrite He, Hmiss. simpl.
      by destruct (remote_answer net1 r). }
    simpl. by rewrite lookup_after_store.
  - intros net1 net2 r g Hmiss Hans. simpl.
    assert (∀ net, remote_answer net r = VNone →
              lookup config net r g
              = (VNone, Gateway (global_api_cache g)
                                (increment_api_calls (global_stats g)))) as Hfail.
    { intros net Hnet. rewrite lookup_unfold. unfold served_from_cache.
      by rewrite Hmiss, andb_false_r, Hnet. }
    rewrite Hfail by done. simpl.
    rewrite lookup_unfold. unfold served_from_cache, cache_contains in *.
    simpl. rewrite Hmiss, andb_false_r.
    destruct (negb _ && _); simpl; split; (lia || done).
  - intros net1 net2 r g He Hhit. simpl.
    assert (lookup config net1 r g
            = (cache_getitem g (cache_key_of r),
               Gateway (global_api_cache g)
                       (increment_cache_hits (global_stats g)))) as ->.
    { rewrite lookup_unfold. unfold served_from_cache. by rewrite He, Hhit. }
    simpl. rewrite lookup_unfold. unfold served_from_cache, cache_contains in *.
    simpl. rewrite He, Hhit. simpl. split; [done|lia].
Qed.

Lemma gateway_accounting_witness :
  let r := Romaji2Kana (lit "/v1/to/romaji") [0x3042%N] in
  let s' := global_stats
              (run_lookups get_default_config [(answers_a, r); (unreachable, r)]
                 empty_gateway) in
  api_calls s' = 1%Z ∧ cache_hits s' = 1%Z.
Proof.
  destruct (gateway_accounting get_default_config) as (_ & _ & H & _).
  apply (H answers_a unreachable
           (Romaji2Kana (lit "/v1/to/romaji") [0x3042%N]) empty_gateway);
    [reflexivity|reflexivity|discriminate].
Defined.

(** *** Lookup results are a fixed mapping
    Against remote services that keep answering the same, the result of a
    lookup is the same before and after any run of other lookups: a cached
    value stays, and an answer that gets cached is the answer the services
    give anyway. *)

Lemma lookup_result config net r g :
  (lookup config net r g).1
  = if served_from_cache config r g then cache_getitem g (cache_key_of r)
    else remote_answer net r.
Proof.
  rewrite lookup_unfold. destruct (served_from_cache config r g); [done|].
  by destruct (negb _ && _).
Qed.

Lemma lookup_store_miss config net r g :
  let g' := (lookup config net r g).2 in
  global_api_cache g' = global_api_cache g ∨
  (cache_enabled (cfg_cache config) = true ∧
   global_api_cache g !! cache_key_of r = None ∧
   global_api_cache g'
     = <[cache_key_of r := remote_answer net r]> (global_api_cache g)).
Proof.
  simpl. rewrite lookup_unfold.
  destruct (served_from_cache config r g) eqn:Hs; [by left|].
  destruct (negb _ && _) eqn:Hst; [right|by left].
  apply andb_true_iff in Hst as [_ He]. simpl.
  split; [done|]. split; [|done].
  unfold served_from_cache, cache_contains in Hs. rewrite He in Hs. simpl in Hs.
  apply bool_decide_eq_false in Hs.
  destruct (global_api_cache g !! cache_key_of r) eqn:Hl; [|done].
  destruct Hs. by eexists.
Qed.

Lemma lookup_result_after_one config net r r' g :
  (cache_key_of r' = cache_key_of r → remote_answer net r' = remote_answer net r) →
  (lookup config net r (lookup config net r' g).2).1 = (lookup config net r g).1.
Proof.
  intros Hkey. rewrite !lookup_result.
  unfold served_from_cache, cache_contains, cache_getitem.
  destruct (lookup_store_miss config net r' g) as [->|(He & Hmiss & ->)]; [done|].
  rewrite He. simpl.
  destruct (decide (cache_key_of r' = cache_key_of r)) as [Heq|Hne].
  - rewrite <-Heq, lookup_insert_eq, Hmiss. simpl. by apply Hkey.
  - by rewrite lookup_insert_ne.
Qed.

Lemma lookup_result_stable config net r reqs g :
  (∀ r', r' ∈ reqs → cache_key_of r' = cache_key_of r →
         remote_answer net r' = remote_answer net r) →
  (lookup config net r (run_lookups config (map (pair net) reqs) g)).1
  = (lookup config net r g).1.
Proof.
  revert g. induction reqs as [|r' reqs IH]; intros g Hkeys; [done|].
  cbn [map run_lookups]. rewrite IH.
  - apply lookup_result_after_one. apply Hkeys. by left.
  - intros r'' Hin. apply Hkeys. by right.
Qed.

(** The keys of the generator's requests tell the requests apart. *)
Lemma generator_keys_inj r r' :
  issued_by_generator r → issued_by_generator r' →
  cache_key_of r' = cache_key_of r → r' = r.
Proof.
  destruct r as [e t|c], r' as [e' t'|c']; cbn [issued_by_generator cache_key_of];
    intros H H' Hk; subst.
  - f_equal. by do 3 apply app_inv_head in Hk.
  - cbn in Hk. discriminate Hk.
  - cbn in Hk. discriminate Hk.
  - f_equal. by apply app_inv_head in Hk.
Qed.

Lemma generator_lookups_fixed config net r reqs g :
  issued_by_generator r → Forall issued_by_generator reqs →
  (lookup config net r (run_lookups config (map (pair net) reqs) g)).1
  = (lookup config net r g).1.
Proof.
  intros Hr Hreqs. apply lookup_result_stable.
  intros r' Hin Hk. rewrite Forall_forall in Hreqs.
  by rewrite (generator_keys_inj r r' Hr (Hreqs r' Hin) Hk).
Qed.

(** *** What is stored, and what is read back *)

Lemma lookup_keeps_entries config net r g key v :
  global_api_cache g !! key = Some v →
  global_api_cache (lookup config net r g).2 !! key = Some v.
Proof.
  intros Hk. destruct (lookup_store_miss config net r g) as [->|(_ & Hmiss & ->)];
    [done|].
  rewrite lookup_insert_ne; [done|]. intros <-. congruence.
Qed.

Lemma run_lookups_keeps_entries config attempts g key v :
  global_api_cache g !! key = Some v →
  global_api_cache (run_lookups config attempts g) !! key = Some v.
Proof.
  revert g. induction attempts as [|[net r] rest IH]; intros g Hk; [done|].
  cbn [run_lookups]. by apply IH, lookup_keeps_entries.
Qed.

(** C7: the store of the gateway (put) and the read of a cached key (get).
    A lookup with caching enabled, of a key that is not cached, whose
    answer is not None, returns the answer and stores it under its key.  No
    other lookup changes the cache: not one with caching disabled, not one
    of a cached key, and not one whose answer is None.  Whenever a lookup
    has stored a value, that value is not None, it is the result the lookup
    returned, and after any further lookups the key still holds it and a
    lookup of the key returns it from the cache, whatever the remote service
    would answer.  No run of lookups puts None in the cache. *)
Theorem cache_store_then_read (config : config) :
  (∀ net r g,
     cache_enabled (cfg_cache config) = true →
     cache_contains g (cache_key_of r) = false →
     remote_answer net r ≠ VNone →
     (lookup config net r g).1 = remote_answer net r ∧
     global_api_cache (lookup config net r g).2
     = <[cache_key_of r := remote_answer net r]> (global_api_cache g)) ∧
  (∀ net r g,
     cache_enabled (cfg_cache config) = false
     ∨ cache_contains g (cache_key_of r) = true
     ∨ remote_answer net r = VNone →
     global_api_cache (lookup config net r g).2 = global_api_cache g) ∧
  (∀ net r g,
     let v := (lookup config net r g).1 in
     let g' := (lookup config net r g).2 in
     global_api_cache g' ≠ global_api_cache g →
     v ≠ VNone ∧ v = remote_answer net r ∧
     global_api_cache g' = <[cache_key_of r := v]> (global_api_cache g) ∧
     ∀ attempts net',
       let g'' := run_lookups config attempts g' in
       cache_contains g'' (cache_key_of r) = true ∧
       cache_getitem g'' (cache_key_of r) = v ∧
       lookup config net' r g''
       = (v, Gateway (global_api_cache g'')
                     (increment_cache_hits (global_stats g'')))) ∧
  (∀ attempts g, no_null g → no_null (run_lookups config attempts g)).
Proof.
  split_and!.
  - intros net r g He Hc Hnn. rewrite lookup_unfold.
    unfold served_from_cache. rewrite He, Hc. cbn [andb].
    destruct (remote_answer net r); done.
  - intros net r g Hwhy. rewrite lookup_unfold. unfold served_from_cache.
    destruct Hwhy as [He|[Hc|Hn] ].
    + rewrite He, andb_false_r. done.
    + destruct (cache_enabled (cfg_cache config)); cbn [andb];
        [by rewrite Hc|by rewrite andb_false_r].
    + rewrite Hn. by destruct (cache_enabled (cfg_cache config) && _).
  - intros net r g v g' Hchanged. subst v g'.
    destruct (lookup_store config net r g) as [Heq|(He & Hnn & Hres & Heq)];
      [done|].
    rewrite Hres. split_and!; try done.
    intros attempts net' g''.
    assert (global_api_cache g'' !! cache_key_of r = Some (remote_answer net r))
      as Hkept.
    { apply run_lookups_keeps_entries. rewrite Heq. apply lookup_insert_eq. }
    assert (cache_contains g'' (cache_key_of r) = true) as Hc.
    { unfold cache_contains. rewrite Hkept. by apply bool_decide_eq_true_2. }
    split_and!; [done|by unfold cache_getitem; rewrite Hkept|].
    rewrite lookup_unfold. unfold served_from_cache, cache_getitem.
    by rewrite He, Hc, Hkept.
  - apply run_lookups_no_null.
Qed.

Lemma cache_store_then_read_witness :
  let r := KanjiLookup [0x5143%N] in
  let answers_gen := Remote (λ _ _, VNone) (λ _, VStr (lit "gen")) in
  (lookup get_default_config answers_gen r empty_gateway).1 = VStr (lit "gen") ∧
  global_api_cache (lookup get_default_config answers_gen r empty_gateway).2
  = <[cache_key_of r := VStr (lit "gen")]> ∅.
Proof.
  intros r answers_gen.
  destruct (cache_store_then_read get_default_config) as (H & _).
  apply (H answers_gen r empty_gateway); [reflexivity|reflexivity|discriminate].
Defined.

End ApiClientFacts.

Lemma str_le_total a b : Py.str_le a b = true ∨ Py.str_le b a = true.
Proof.
  revert b. induction a as [|x a IH]; intros [|y b]; simpl; auto.
  destruct (N.ltb_spec x y), (N.ltb_spec y x), (N.eqb_spec x y), (N.eqb_spec y x);
    auto; lia.
Qed.

Lemma str_le_antisym a b :
  Py.str_le a b = true → Py.str_le b a = true → a = b.
Proof.
  revert b. induction a as [|x a IH]; intros [|y b]; simpl; try done.
  destruct (N.ltb_spec x y), (N.ltb_spec y x), (N.eqb_spec x y), (N.eqb_spec y x);
    try done; try lia.
  intros. f_equal; auto.
Qed.

Lemma str_le_trans a b c :
  Py.str_le a b = true → Py.str_le b c = true → Py.str_le a c = true.
Proof.
  revert b c. induction a as [|x a IH]; intros [|y b] [|z c]; simpl; try done.
  destruct (N.ltb_spec x y), (N.ltb_spec y z), (N.ltb_spec x z),
    (N.eqb_spec x y), (N.eqb_spec y z), (N.eqb_spec x z);
    try done; try lia.
  apply IH.
Qed.

Lemma filter_all {A} (P : A → Prop) `{∀ x, Decision (P x)} (l : list A) :
  Forall P l → filter P l = l.
Proof.
  induction 1 as [|x l Hx _ IH]; [done|].
  by rewrite filter_cons_True, IH.
Qed.

Lemma filter_none {A} (P : A → Prop) `{∀ x, Decision (P x)} (l : list A) :
  Forall (λ x, ¬ P x) l → filter P l = [].
Proof.
  induction 1 as [|x l Hx _ IH]; [done|].
  by rewrite filter_cons_False.
Qed.

Module GlossaryFacts.
Import Config TextUtils TextUtilsFacts Glossary.

Lemma reading_key_le_total a b :
  reading_key_le a b = true ∨ reading_key_le b a = true.
Proof.
  unfold reading_key_le.
  destruct (decide (rd_type a = rd_type b)), (decide (rd_type b = rd_type a));
    try congruence; apply str_le_total.
Qed.

Lemma reading_key_le_antisym a b :
  reading_key_le a b = true → reading_key_le b a = true →
  rd_type a = rd_type b ∧ rd_reading a = rd_reading b.
Proof.
  unfold reading_key_le.
  destruct (decide (rd_type a = rd_type b)), (decide (rd_type b = rd_type a));
    try congruence; intros H1 H2.
  - split; [done|]. by apply str_le_antisym.
  - destruct n. by apply str_le_antisym.
Qed.

Lemma reading_key_le_trans a b c :
  reading_key_le a b = true → reading_key_le b c = true →
  reading_key_le a c = true.
Proof.
  unfold reading_key_le.
  destruct (decide (rd_type a = rd_type b)) as [Hab|Hab],
    (decide (rd_type b = rd_type c)) as [Hbc|Hbc],
    (decide (rd_type a = rd_type c)) as [Hac|Hac];
    try congruence; intros H1 H2.
  - by eapply str_le_trans.
  - destruct Hab. apply str_le_antisym; [done|]. by rewrite Hac.
  - by eapply str_le_trans.
Qed.

Ltac case_flags :=
  repeat (match goal with
          | |- context [include_hiragana ?g] => destruct (include_hiragana g)
          | |- context [include_katakana ?g] => destruct (include_katakana g)
          | |- context [include_kanji ?g] => destruct (include_kanji g)
          | |- context [truthy_str ?o] => destruct (truthy_str o)
          | |- context [truthy_info ?o] => destruct (truthy_info o)
          end; cbn [orb andb negb]).

Ltac decide_mem :=
  repeat case_decide; try done; exfalso;
  rewrite ?elem_of_cons in *; intuition congruence.

Section GeneratorFacts.
Context (config : config).
Context (get_romaji_for_text : list N → option (list N)).
Context (get_kanji_info : list N → option kanji_info).

Local Abbreviation submitted := (submitted config get_kanji_info).
Local Abbreviation reading_of_future := (reading_of_future get_romaji_for_text).
Local Abbreviation readings_of := (readings_of config get_romaji_for_text get_kanji_info).
Local Abbreviation collect_kanji := (collect_kanji config get_kanji_info).
Local Abbreviation collect_reading := (collect_reading get_romaji_for_text).

(** *** The three collecting loops *)

Lemma kana_loop_lookup (l : list N) (res : gmap N api_result) (c : N) :
  foldl (λ res char, <[char := KanaResult (get_romaji_for_text [char])]> res) res l
    !! c
  = if decide (c ∈ l) then Some (KanaResult (get_romaji_for_text [c])) else res !! c.
Proof.
  revert res. induction l as [|x l IH]; intros res.
  - case_decide as Hin; [by apply elem_of_nil in Hin|done].
  - cbn [foldl]. rewrite IH.
    destruct (decide (x = c)) as [->|Hne].
    + rewrite lookup_insert_eq.
      decide_mem.
    + rewrite lookup_insert_ne by done.
      decide_mem.
Qed.

Lemma collect_kanji_unfold acc char :
  collect_kanji acc char
  = (<[char := KanjiResult (get_kanji_info [char])]> acc.1, acc.2 ++ submitted char).
Proof.
  unfold Glossary.collect_kanji, Glossary.submitted, truthy_info.
  destruct (get_kanji_info [char]) as [info|]; simpl.
  - destruct (dict_nonempty info && _); [done|by rewrite app_nil_r].
  - by rewrite app_nil_r.
Qed.

Lemma kanji_loop_lookup (l : list N) acc (c : N) :
  (foldl collect_kanji acc l).1 !! c
  = if decide (c ∈ l) then Some (KanjiResult (get_kanji_info [c])) else acc.1 !! c.
Proof.
  revert acc. induction l as [|x l IH]; intros acc.
  - case_decide as Hin; [by apply elem_of_nil in Hin|done].
  - cbn [foldl]. rewrite IH, collect_kanji_unfold. cbn [fst].
    destruct (decide (x = c)) as [->|Hne].
    + rewrite lookup_insert_eq.
      decide_mem.
    + rewrite lookup_insert_ne by done.
      decide_mem.
Qed.

Lemma kanji_loop_futures (l : list N) acc :
  (foldl collect_kanji acc l).2 = acc.2 ++ flat_map submitted l.
Proof.
  revert acc. induction l as [|x l IH]; intros acc; cbn [foldl flat_map].
  - by rewrite app_nil_r.
  - rewrite IH, collect_kanji_unfold. cbn [snd]. by rewrite <-app_assoc.
Qed.

Lemma reading_loop_lookup (l : list (N * list N * list N)) res (k : N) :
  default [] (foldl collect_reading res l !! k)
  = default [] (res !! k)
    ++ map reading_of_future (filter (λ fut, fut.1.1 = k) l).
Proof.
  revert res. induction l as [|[[c r] t] l IH]; intros res; cbn [foldl].
  - by rewrite app_nil_r.
  - rewrite IH. unfold Glossary.collect_reading. rewrite filter_cons. cbn [fst].
    destruct (decide (c = k)) as [->|Hne].
    + rewrite lookup_insert_eq. cbn. by rewrite <-app_assoc.
    + by rewrite lookup_insert_ne.
Qed.

Lemma submitted_char k fut : fut ∈ submitted k → fut.1.1 = k.
Proof.
  unfold Glossary.submitted, readings_to_submit.
  destruct (get_kanji_info [k]) as [info|]; [|by intros ?%elem_of_nil].
  destruct (dict_nonempty info && _); [|by intros ?%elem_of_nil].
  rewrite elem_of_app, !list_elem_of_fmap. by intros [(?&->&_)|(?&->&_)].
Qed.

Lemma filter_submitted (l : list N) (k : N) :
  NoDup l →
  filter (λ fut : N * list N * list N, fut.1.1 = k) (flat_map submitted l)
  = if decide (k ∈ l) then submitted k else [].
Proof.
  induction 1 as [|x l Hx Hnd IH].
  - case_decide as Hin; [by apply elem_of_nil in Hin|done].
  - cbn [flat_map]. rewrite filter_app, IH.
    destruct (decide (x = k)) as [->|Hne].
    + rewrite (decide_True (P := k ∈ k :: l)) by (by left).
      rewrite (decide_False (P := k ∈ l)) by done.
      rewrite app_nil_r. apply filter_all.
      apply Forall_forall. intros fut. apply submitted_char.
    + assert (filter (λ fut : N * list N * list N, fut.1.1 = k) (submitted x) = [])
        as ->.
      { apply filter_none. apply Forall_forall.
        intros fut Hf%submitted_char. congruence. }
      cbn [app]. decide_mem.
Qed.

(** *** Rendering *)

Lemma readings_determined char a b :
  a ∈ readings_of char → b ∈ readings_of char →
  reading_key_le a b = true → reading_key_le b a = true → a = b.
Proof.
  unfold Glossary.readings_of. rewrite !list_elem_of_fmap.
  intros (fa & -> & _) (fb & -> & _) H1 H2.
  destruct (reading_key_le_antisym _ _ H1 H2) as [Ht Hr].
  unfold Glossary.reading_of_future in *. simpl in *. by rewrite Ht, Hr.
Qed.

Lemma process_kanji_order_irrelevant char info l1 l2 e :
  l1 ≡ₚ l2 →
  (∀ a b, a ∈ l1 → b ∈ l1 →
          reading_key_le a b = true → reading_key_le b a = true → a = b) →
  _process_kanji_character config char info l1 e
  = _process_kanji_character config char info l2 e.
Proof.
  intros Hp Hdet.
  assert (∀ l : list reading_data,
            match l with
            | [] => []
            | _ => foldl (λ html rd, html ++ render_reading rd) []
                     (Py.sorted reading_key_le l)
            end
            = foldl (λ html rd, html ++ render_reading rd) []
                (Py.sorted reading_key_le l)) as Hnil by (by intros []).
  unfold _process_kanji_character.
  rewrite (Hnil l1), (Hnil l2).
  by rewrite (sorted_order_irrelevant reading_key_le reading_key_le_total
                reading_key_le_trans l1 l2 Hp Hdet).
Qed.

Lemma foldl_ext_in {A B} (f g : A → B → A) (l : list B) (a : A) :
  (∀ x, x ∈ l → ∀ a, f a x = g a x) → foldl f a l = foldl g a l.
Proof.
  revert a. induction l as [|x l IH]; intros a Hfg; [done|].
  cbn [foldl]. rewrite (Hfg x) by (by left). apply IH.
  intros y Hy. apply Hfg. by right.
Qed.

(** Whatever the completion order, the entries are those of the rendering
    in extraction order. *)
Lemma generate_entries_in_order pool text :
  every_future_once pool →
  generate_entries config get_romaji_for_text get_kanji_info pool text
  = foldl (render_in_order config get_romaji_for_text get_kanji_info)
          (Entries [] [] []) (extract_unique_japanese_chars text).
Proof.
  intros (Hkana & Hkanji & Hread). unfold generate_entries.
  set (U := extract_unique_japanese_chars text).
  set (K1 := if include_hiragana (cfg_general config)
                || include_katakana (cfg_general config)
             then filter (λ char, is_hiragana char || is_katakana char) U else []).
  set (K2 := if include_kanji (cfg_general config)
             then filter (λ char, is_kanji char) U else []).
  set (A1 := foldl _ ∅ (kana_completed pool K1)).
  destruct (foldl collect_kanji (A1, []) (kanji_completed pool K2))
    as [A RF] eqn:Hloop.
  assert (NoDup K2) as HndK2.
  { unfold K2. destruct (include_kanji _); [|constructor].
    apply NoDup_filter, extract_NoDup. }
  assert (∀ c, c ∈ U → c ∈ K1 ↔
            (is_hiragana c || is_katakana c)
            && (include_hiragana (cfg_general config)
                || include_katakana (cfg_general config)) = true) as HK1.
  { intros c Hc. unfold K1.
    destruct (include_hiragana _ || include_katakana _).
    - rewrite list_elem_of_filter, andb_true_r, Is_true_true. tauto.
    - rewrite andb_false_r. split; [by intros ?%elem_of_nil|done]. }
  assert (∀ c, c ∈ U → c ∈ K2 ↔
            is_kanji c && include_kanji (cfg_general config) = true) as HK2.
  { intros c Hc. unfold K2. destruct (include_kanji _).
    - rewrite list_elem_of_filter, andb_true_r, Is_true_true. tauto.
    - rewrite andb_false_r. split; [by intros ?%elem_of_nil|done]. }
  apply foldl_ext_in. intros c Hc e.
  unfold render_char, render_in_order.
  replace A with (foldl collect_kanji (A1, []) (kanji_completed pool K2)).1
    by (by rewrite Hloop).
  rewrite kanji_loop_lookup. cbn [fst]. unfold A1. rewrite kana_loop_lookup.
  rewrite lookup_empty.
  destruct (is_kanji c && include_kanji (cfg_general config)) eqn:Hkj.
  - (* a kanji whose lookup was submitted *)
    assert (c ∈ K2) as HcK2 by (by apply HK2).
    rewrite decide_True by (by rewrite Hkanji).
    apply andb_true_iff in Hkj as [Hkj _].
    destruct (kanji_not_kana c Hkj) as [-> ->]. cbn [orb andb].
    destruct (truthy_info (get_kanji_info [c])); [|done].
    symmetry. apply process_kanji_order_irrelevant;
      [|apply readings_determined].
    rewrite reading_loop_lookup, lookup_empty. cbn [default app].
    unfold Glossary.readings_of. apply fmap_Permutation.
    rewrite Hread.
    replace RF with (foldl collect_kanji (A1, []) (kanji_completed pool K2)).2
      by (by rewrite Hloop).
    rewrite kanji_loop_futures. cbn [snd app].
    rewrite filter_submitted by (by rewrite Hkanji).
    rewrite decide_True by (by rewrite Hkanji). done.
  - rewrite decide_False by (rewrite Hkanji, HK2 by done; congruence).
    destruct ((is_hiragana c || is_katakana c) && _) eqn:Hka.
    + rewrite decide_True by (rewrite Hkana; by apply HK1). done.
    + rewrite decide_False by (rewrite Hkana, HK1 by done; congruence). done.
Qed.

(** The glossary does not depend on the completion order. *)
Lemma generate_glossary_in_order pool text :
  every_future_once pool →
  generate_glossary_data config get_romaji_for_text get_kanji_info pool text
  = glossary_in_extraction_order config get_romaji_for_text get_kanji_info text.
Proof.
  intros Hpool. unfold generate_glossary_data, glossary_in_extraction_order.
  by rewrite generate_entries_in_order.
Qed.

(** *** What each character contributes *)

Local Abbreviation render_in_order :=
  (render_in_order config get_romaji_for_text get_kanji_info).

Lemma entries_app_no_entries e : entries_app e no_entries = e.
Proof. destruct e. unfold entries_app. simpl. by rewrite !app_nil_r. Qed.

Lemma process_kana_appends c romaji e :
  _process_kana_character config c romaji e
  = entries_app e (_process_kana_character config c romaji no_entries).
Proof.
  unfold _process_kana_character.
  destruct (is_hiragana c && _); [|destruct (is_katakana c && _)];
    unfold entries_app; simpl; rewrite ?app_nil_r; by destruct e.
Qed.

Lemma process_kanji_appends c info readings e :
  _process_kanji_character config c info readings e
  = entries_app e (_process_kanji_character config c info readings no_entries).
Proof.
  unfold _process_kanji_character.
  destruct info as [info|]; [|by rewrite entries_app_no_entries].
  destruct (negb (dict_nonempty info)); [by rewrite entries_app_no_entries|].
  destruct (ki_meanings info); [|by rewrite entries_app_no_entries].
  unfold entries_app. simpl. by rewrite !app_nil_r.
Qed.

Lemma render_in_order_appends e c :
  render_in_order e c = entries_app e (render_in_order no_entries c).
Proof.
  unfold Glossary.render_in_order.
  repeat match goal with
         | |- context [if ?b then _ else _] => destruct b
         end;
    rewrite ?entries_app_no_entries;
    auto using process_kana_appends, process_kanji_appends.
Qed.

Lemma render_in_order_fold l e :
  foldl render_in_order e l
  = entries_app e
      (Entries (flat_map (λ c, hiragana_entries (render_in_order no_entries c)) l)
               (flat_map (λ c, katakana_entries (render_in_order no_entries c)) l)
               (flat_map (λ c, kanji_entries (render_in_order no_entries c)) l)).
Proof.
  revert e. induction l as [|c l IH]; intros e; cbn [foldl flat_map].
  - by rewrite entries_app_no_entries.
  - rewrite IH, (render_in_order_appends e c). unfold entries_app. simpl.
    by rewrite <-!app_assoc.
Qed.

Lemma kana_entry_inj c r c' r' :
  Templates.kana_entry [c] r = Templates.kana_entry [c'] r' → c = c' ∧ r = r'.
Proof.
  unfold Templates.kana_entry. cbn. intros H.
  injection H as -> H. by apply app_inv_tail in H.
Qed.

Lemma process_kanji_keeps_kana c info readings e :
  hiragana_entries (_process_kanji_character config c info readings e)
    = hiragana_entries e ∧
  katakana_entries (_process_kanji_character config c info readings e)
    = katakana_entries e.
Proof.
  unfold _process_kanji_character.
  destruct info as [info|]; [|done].
  destruct (negb (dict_nonempty info)); [done|].
  by destruct (ki_meanings info).
Qed.

Lemma hiragana_contribution c :
  hiragana_entries (render_in_order no_entries c)
  = if is_hiragana c && include_hiragana (cfg_general config)
       && truthy_str (get_romaji_for_text [c])
    then [Templates.kana_entry [c] (default [] (get_romaji_for_text [c]))]
    else [].
Proof.
  unfold Glossary.render_in_order, _process_kana_character.
  pose proof (kanji_not_kana c) as Hk.
  destruct (is_hiragana c), (is_katakana c), (is_kanji c);
    try (by destruct Hk); cbn [orb andb negb]; case_flags; try done;
    apply process_kanji_keeps_kana.
Qed.

Lemma katakana_contribution c :
  katakana_entries (render_in_order no_entries c)
  = if negb (is_hiragana c && include_hiragana (cfg_general config))
       && is_katakana c && include_katakana (cfg_general config)
       && truthy_str (get_romaji_for_text [c])
    then [Templates.kana_entry [c] (default [] (get_romaji_for_text [c]))]
    else [].
Proof.
  unfold Glossary.render_in_order, _process_kana_character.
  pose proof (kanji_not_kana c) as Hk.
  destruct (is_hiragana c), (is_katakana c), (is_kanji c);
    try (by destruct Hk); cbn [orb andb negb]; case_flags; try done;
    apply process_kanji_keeps_kana.
Qed.

Lemma truthy_str_iff o r :
  truthy_str o = true ∧ default [] o = r ↔ o = Some r ∧ r ≠ [].
Proof.
  destruct o as [[|x o]|]; simpl; split; intros [H1 H2]; try done;
    simplify_eq; done.
Qed.

Lemma hiragana_entry_iff pool text c r :
  every_future_once pool →
  Templates.kana_entry [c] r
    ∈ hiragana_entries
        (generate_entries config get_romaji_for_text get_kanji_info pool text)
  ↔ c ∈ text ∧ is_hiragana c = true
    ∧ include_hiragana (cfg_general config) = true
    ∧ get_romaji_for_text [c] = Some r ∧ r ≠ [].
Proof.
  intros Hpool. rewrite generate_entries_in_order by done.
  rewrite render_in_order_fold. cbn [entries_app hiragana_entries app].
  rewrite list_elem_of_In, in_flat_map. setoid_rewrite <-list_elem_of_In.
  setoid_rewrite hiragana_contribution. split.
  - intros (c' & Hc' & Hin).
    destruct (is_hiragana c') eqn:Hh; [|by apply elem_of_nil in Hin].
    destruct (include_hiragana _) eqn:Hi; [|by apply elem_of_nil in Hin].
    destruct (truthy_str _) eqn:Ht; [|by apply elem_of_nil in Hin].
    apply list_elem_of_singleton, kana_entry_inj in Hin as [-> Hr].
    apply elem_of_extract in Hc' as [Hc' _].
    do 3 (split; [done|]). by apply truthy_str_iff.
  - intros (Hc & Hh & Hi & Hr).
    exists c. split.
    + apply elem_of_extract. split; [done|].
      unfold is_japanese_char. rewrite Hh. split; [done|].
      apply japanese_not_space. unfold is_japanese_char. by rewrite Hh.
    + apply truthy_str_iff in Hr as [Ht Hd]. rewrite Hh, Hi, Ht, Hd.
      by apply list_elem_of_singleton.
Qed.

Lemma katakana_entry_iff pool text c r :
  every_future_once pool →
  Templates.kana_entry [c] r
    ∈ katakana_entries
        (generate_entries config get_romaji_for_text get_kanji_info pool text)
  ↔ c ∈ text ∧ is_katakana c = true
    ∧ include_katakana (cfg_general config) = true
    ∧ is_hiragana c && include_hiragana (cfg_general config) = false
    ∧ get_romaji_for_text [c] = Some r ∧ r ≠ [].
Proof.
  intros Hpool. rewrite generate_entries_in_order by done.
  rewrite render_in_order_fold. cbn [entries_app katakana_entries app].
  rewrite list_elem_of_In, in_flat_map. setoid_rewrite <-list_elem_of_In.
  setoid_rewrite katakana_contribution. split.
  - intros (c' & Hc' & Hin).
    destruct (is_hiragana c' && _) eqn:Hh; [by apply elem_of_nil in Hin|].
    destruct (is_katakana c') eqn:Hk; [|by apply elem_of_nil in Hin].
    destruct (include_katakana _) eqn:Hi; [|by apply elem_of_nil in Hin].
    destruct (truthy_str _) eqn:Ht; [|by apply elem_of_nil in Hin].
    apply list_elem_of_singleton, kana_entry_inj in Hin as [-> Hr].
    apply elem_of_extract in Hc' as [Hc' _].
    do 4 (split; [done|]). by apply truthy_str_iff.
  - intros (Hc & Hk & Hi & Hh & Hr).
    exists c. split.
    + apply elem_of_extract. split; [done|].
      assert (is_japanese_char c = true) as Hj
        by (unfold is_japanese_char; rewrite Hk; by destruct (is_hiragana c)).
      split; [done|]. by apply japanese_not_space.
    + apply truthy_str_iff in Hr as [Ht Hd]. rewrite Hh, Hk, Hi, Ht, Hd.
      by apply list_elem_of_singleton.
Qed.

Lemma kanji_entry_inj c r m c' r' m' :
  Templates.kanji_entry [c] r m = Templates.kanji_entry [c'] r' m' → c = c'.
Proof.
  unfold Templates.kanji_entry, Templates.nl. cbn. by intros [= ->].
Qed.

Lemma process_kana_keeps_kanji c romaji e :
  kanji_entries (_process_kana_character config c romaji e) = kanji_entries e.
Proof.
  unfold _process_kana_character.
  by destruct (is_hiragana c && _); [|destruct (is_katakana c && _)].
Qed.

Lemma kanji_contribution c :
  kanji_entries (render_in_order no_entries c)
  = if is_kanji c && include_kanji (cfg_general config)
       && truthy_info (get_kanji_info [c])
    then kanji_entries
           (_process_kanji_character config c (get_kanji_info [c])
              (readings_of c) no_entries)
    else [].
Proof.
  unfold Glossary.render_in_order.
  pose proof (kanji_not_kana c) as Hk.
  destruct (is_hiragana c), (is_katakana c), (is_kanji c);
    try (by destruct Hk); cbn [orb andb negb]; case_flags; try done;
    apply process_kana_keeps_kanji.
Qed.

(** Every kanji entry of the glossary is the table of a kanji of the text
    whose dictionary result has a 'meanings' key. *)
Lemma kanji_entry_has_meanings pool text c r m :
  every_future_once pool →
  Templates.kanji_entry [c] r m
    ∈ kanji_entries
        (generate_entries config get_romaji_for_text get_kanji_info pool text) →
  c ∈ text ∧ is_kanji c = true ∧
  ∃ info meanings,
    get_kanji_info [c] = Some info ∧ ki_meanings info = Some meanings.
Proof.
  intros Hpool. rewrite generate_entries_in_order by done.
  rewrite render_in_order_fold. cbn [entries_app kanji_entries app].
  rewrite list_elem_of_In, in_flat_map. setoid_rewrite <-list_elem_of_In.
  setoid_rewrite kanji_contribution.
  intros (c' & Hc' & Hin).
  destruct (is_kanji c') eqn:Hkj; [|by apply elem_of_nil in Hin].
  destruct (include_kanji _); [|by apply elem_of_nil in Hin].
  destruct (truthy_info _); [|by apply elem_of_nil in Hin].
  cbn [andb] in Hin. unfold _process_kanji_character in Hin.
  destruct (get_kanji_info [c']) as [info|] eqn:Hinfo; [|by apply elem_of_nil in Hin].
  destruct (negb (dict_nonempty info)); [by apply elem_of_nil in Hin|].
  destruct (ki_meanings info) as [meanings|] eqn:Hm; [|by apply elem_of_nil in Hin].
  cbn [kanji_entries no_entries app] in Hin.
  apply list_elem_of_singleton, kanji_entry_inj in Hin as ->.
  apply elem_of_extract in Hc' as [Hc' _]. eauto 6.
Qed.

End GeneratorFacts.

Lemma fifo_every_future_once : every_future_once fifo.
Proof. by repeat split. Qed.

Lemma lifo_every_future_once : every_future_once lifo.
Proof. repeat split; intros l; symmetry; apply Permutation_rev. Qed.

(** C1 as stated fails: the only kana of "す" has no romanisation in the
    sample table, and no entry is rendered for it (the glossary is empty). *)
Lemma kana_without_romaji_not_rendered :
  ¬ (∀ config romaji_of kanji_of pool text c,
       every_future_once pool →
       c ∈ extract_unique_japanese_chars text →
       is_hiragana c = true →
       include_hiragana (cfg_general config) = true →
       romaji_of [c] = None →
       ∃ r, Templates.kana_entry [c] r
            ∈ hiragana_entries (generate_entries config romaji_of kanji_of pool text)).
Proof.
  intros H.
  destruct (H get_default_config sample_romaji sample_kanji fifo
              [0x3059%N] 0x3059%N fifo_every_future_once) as [r Hr];
    try reflexivity.
  - vm_compute. by left.
  - vm_compute in Hr. by apply elem_of_nil in Hr.
Qed.

(** C1 (amended): a kana entry is rendered exactly for the kana of the text
    whose category is enabled and whose romanisation is a non-empty string
    (hiragana is tried first); a kana whose romanisation lookup returned
    None or the empty string gets no entry in either kana section.  A kanji
    reading whose romanisation is None or empty is still rendered, with the
    no-romaji template. *)
Theorem kana_rendered_iff_romaji config romaji_of kanji_of pool text c :
  every_future_once pool →
  (∀ r, Templates.kana_entry [c] r
          ∈ hiragana_entries (generate_entries config romaji_of kanji_of pool text)
        ↔ c ∈ text ∧ is_hiragana c = true
          ∧ include_hiragana (cfg_general config) = true
          ∧ romaji_of [c] = Some r ∧ r ≠ []) ∧
  (∀ r, Templates.kana_entry [c] r
          ∈ katakana_entries (generate_entries config romaji_of kanji_of pool text)
        ↔ c ∈ text ∧ is_katakana c = true
          ∧ include_katakana (cfg_general config) = true
          ∧ is_hiragana c && include_hiragana (cfg_general config) = false
          ∧ romaji_of [c] = Some r ∧ r ≠ []) ∧
  (truthy_str (romaji_of [c]) = false →
   ∀ r, (Templates.kana_entry [c] r
          ∉ hiragana_entries (generate_entries config romaji_of kanji_of pool text))
        ∧ (Templates.kana_entry [c] r
          ∉ katakana_entries (generate_entries config romaji_of kanji_of pool text))) ∧
  (∀ rd, truthy_str (rd_romaji rd) = false →
         render_reading rd
         = Templates.kanji_reading_no_romaji (rd_type rd) (rd_reading rd)).
Proof.
  intros Hpool.
  split; [intros r; by apply hiragana_entry_iff|].
  split; [intros r; by apply katakana_entry_iff|].
  split.
  - intros Hnull r.
    rewrite hiragana_entry_iff, katakana_entry_iff by done.
    split; intros H; decompose [and] H;
      match goal with
      | Hs : romaji_of [c] = Some r, Hn : r ≠ [] |- _ =>
          rewrite Hs in Hnull; by destruct r
      end.
  - intros rd Hrd. unfold render_reading. by rewrite Hrd.
Qed.

Lemma kana_rendered_iff_romaji_witness :
  (Templates.kana_entry [0x3059%N] (lit "su")
     ∉ hiragana_entries
         (generate_entries get_default_config sample_romaji sample_kanji lifo
            sample_text))
  ∧ (Templates.kana_entry [0x3059%N] (lit "su")
     ∉ katakana_entries
         (generate_entries get_default_config sample_romaji sample_kanji lifo
            sample_text)).
Proof.
  destruct (kana_rendered_iff_romaji get_default_config sample_romaji sample_kanji
              lifo sample_text 0x3059%N lifo_every_future_once) as (_ & _ & H & _).
  apply H. reflexivity.
Defined.

(** C10: for a kanji whose dictionary result is a dictionary without a
    'meanings' key, _process_kanji_character appends nothing (the entry
    lists come back unchanged), and the glossary of a text holds no table
    for that kanji although its lookup succeeded. *)
Theorem kanji_without_meanings_omitted config romaji_of kanji_of char info :
  ki_meanings info = None →
  (∀ readings e,
     _process_kanji_character config char (Some info) readings e = e) ∧
  (∀ pool text,
     every_future_once pool → kanji_of [char] = Some info →
     ∀ readings_html meanings_html,
       Templates.kanji_entry [char] readings_html meanings_html
       ∉ kanji_entries (generate_entries config romaji_of kanji_of pool text)).
Proof.
  intros Hm. split.
  - intros readings e. unfold _process_kanji_character. rewrite Hm.
    by destruct (negb (dict_nonempty info)).
  - intros pool text Hpool Hinfo r m Hin.
    apply kanji_entry_has_meanings in Hin as (_ & _ & info' & ms & Hi & Hms);
      [|done].
    congruence.
Qed.

Lemma kanji_without_meanings_omitted_witness :
  _process_kanji_character get_default_config 0x6C17%N (Some sample_info_ki)
    [ReadingData [0x30AD%N] (lit "On") (Some (lit "ki"))] no_entries
  = no_entries.
Proof.
  apply (kanji_without_meanings_omitted get_default_config sample_romaji
           sample_kanji 0x6C17%N sample_info_ki). reflexivity.
Defined.

(** The sample text: "気" (no 'meanings') and "す" (no romanisation) are
    left out; one hiragana entry and one kanji table remain. *)
Example sample_glossary_entries :
  let e := generate_entries get_default_config sample_romaji sample_kanji lifo
             sample_text in
  hiragana_entries e = [Templates.kana_entry [0x3067%N] (lit "de")] ∧
  katakana_entries e = [] ∧
  length (kanji_entries e) = 1%nat.
Proof. vm_compute. done. Qed.

End GlossaryFacts.

(** ** processor.py *)
Module ProcessorFacts.
Import Config Stats Processor.

Lemma counters_le_refl s : counters_le s s.
Proof. unfold counters_le. lia. Qed.

Lemma counters_le_trans s1 s2 s3 :
  counters_le s1 s2 → counters_le s2 s3 → counters_le s1 s3.
Proof. unfold counters_le. lia. Qed.

Lemma bumped_sum_app (l1 l2 : list task_result) :
  foldr (λ r n, bumped r + n)%Z 0%Z (l1 ++ l2)
  = (foldr (λ r n, bumped r + n) 0 l1 + foldr (λ r n, bumped r + n) 0 l2)%Z.
Proof. induction l1 as [|r l1 IH]; cbn [foldr app]; lia. Qed.

Lemma bumped_sum_perm (l1 l2 : list task_result) :
  l1 ≡ₚ l2 →
  foldr (λ r n, bumped r + n)%Z 0%Z l1 = foldr (λ r n, bumped r + n)%Z 0%Z l2.
Proof. induction 1; cbn [foldr]; lia. Qed.

Lemma bumped_sum_nonneg (l : list task_result) :
  (0 ≤ foldr (λ r n, bumped r + n) 0 l)%Z.
Proof.
  induction l as [|r l IH]; cbn [foldr]; [lia|].
  assert (0 ≤ bumped r)%Z by (unfold bumped; destruct (tr_status r); lia).
  lia.
Qed.

Lemma uncounted_nonneg ph : (0 ≤ uncounted ph)%Z.
Proof.
  destruct ph as [|? l ?|l ?|l ?|]; simpl; try lia;
    pose proof (bumped_sum_nonneg l); lia.
Qed.

Section JobFacts.
Context (source_field target_field : list N).
Context (html_to_text_line : list N → list N).
Context (generate_glossary_data : list N → option (list N)).
Context (flush_ok : Z → bool).

Local Abbreviation _process_note_task :=
  (_process_note_task source_field target_field html_to_text_line
     generate_glossary_data).
Local Abbreviation save_result := (save_result target_field flush_ok).
Local Abbreviation thread_step :=
  (thread_step source_field target_field html_to_text_line
     generate_glossary_data flush_ok).
Local Abbreviation step :=
  (step source_field target_field html_to_text_line generate_glossary_data
     flush_ok).

Ltac task_cases H :=
  unfold Processor._process_note_task in H;
  repeat match type of H with
         | context [match ?x with _ => _ end] => destruct x
         end;
  injection H as <- <-.

(** A task bumps at most one category counter, and none for "Updated". *)
Lemma task_effect col nid s r s' :
  _process_note_task col nid s = (r, s') →
  tally s' = (tally s + bumped r)%Z ∧
  processed_notes s' = processed_notes s ∧
  counters_le s s' ∧
  is_cancelled s' = is_cancelled s.
Proof.
  intros H. task_cases H; unfold tally, counters_le, bumped; simpl;
    repeat split; lia.
Qed.

Lemma task_ignores_flag col nid s r s' :
  _process_note_task col nid s = (r, s') →
  _process_note_task col nid (cancel_processing s) = (r, cancel_processing s').
Proof.
  unfold Processor._process_note_task.
  repeat match goal with
         | |- context [match ?x with _ => _ end] => destruct x
         end; by intros [= <- <-].
Qed.

(** Saving a result bumps updated or error for an "Updated" result and
    nothing otherwise. *)
Lemma save_effect r s col s' col' :
  save_result r s col = (s', col') →
  (tally s' + bumped r = tally s + 1)%Z ∧
  processed_notes s' = processed_notes s ∧
  counters_le s s' ∧
  is_cancelled s' = is_cancelled s.
Proof.
  unfold Processor.save_result, bumped.
  repeat match goal with
         | |- context [match ?x with _ => _ end] => destruct x
         end; intros [= <- <-]; unfold tally, counters_le; simpl;
    repeat split; lia.
Qed.

Lemma save_ignores_flag r s col s' col' :
  save_result r s col = (s', col') →
  save_result r (cancel_processing s) col = (cancel_processing s', col').
Proof.
  unfold Processor.save_result.
  repeat match goal with
         | |- context [match ?x with _ => _ end] => destruct x
         end; by intros [= <- <-].
Qed.

Lemma thread_step_counters j j' :
  thread_step j j' →
  counters_le (job_stats j) (job_stats j') ∧
  is_cancelled (job_stats j') = is_cancelled (job_stats j).
Proof.
  destruct 1 as [| | |????????? Ht| |??????? Hs| |]; simpl;
    try (split; [apply counters_le_refl|done]).
  - by destruct (task_effect _ _ _ _ _ Ht) as (_ & _ & ? & ?).
  - by destruct (save_effect _ _ _ _ _ Hs) as (_ & _ & ? & ?).
  - split; [|done]. unfold counters_le. simpl. lia.
Qed.

Lemma step_counters j j' :
  step j j' → counters_le (job_stats j) (job_stats j').
Proof.
  intros [H|H]; [by apply thread_step_counters in H as [? _]|].
  destruct H. unfold counters_le. simpl. lia.
Qed.

Lemma thread_step_balanced j j' : thread_step j j' → balanced j → balanced j'.
Proof.
  unfold balanced.
  destruct 1 as [| | |????????? Ht|????? Hp|??????? Hs| |]; simpl; try lia.
  - destruct (task_effect _ _ _ _ _ Ht) as (-> & -> & _).
    rewrite bumped_sum_app. simpl. lia.
  - by rewrite (bumped_sum_perm _ _ Hp).
  - destruct (save_effect _ _ _ _ _ Hs) as (? & -> & _). lia.
  - unfold tally. simpl. lia.
Qed.

Lemma step_balanced j j' : step j j' → balanced j → balanced j'.
Proof.
  intros [H|H]; [by apply thread_step_balanced|]. by destruct H.
Qed.

Lemma start_job_balanced batches total s0 col :
  balanced (start_job batches total s0 col).
Proof. reflexivity. Qed.

Lemma reachable_balanced j j' : rtc step j j' → balanced j → balanced j'.
Proof. induction 1; eauto using step_balanced. Qed.

Lemma reachable_counters j j' :
  rtc step j j' → counters_le (job_stats j) (job_stats j').
Proof.
  induction 1; [apply counters_le_refl|].
  eapply counters_le_trans; [by apply step_counters|done].
Qed.

(** *** Cancellation *)

Lemma thread_step_ignores_flag j j' :
  thread_step j j' →
  (∀ batches, job_phase j ≠ LoopHead batches) →
  thread_step (with_cancel_requested j) (with_cancel_requested j').
Proof.
  unfold with_cancel_requested.
  destruct 1 as [| | |????????? Ht|????? Hp|??????? Hs| |]; simpl; intros Hph;
    try (by edestruct Hph).
  - apply step_task. by apply task_ignores_flag.
  - by apply step_joined.
  - apply step_save. by apply save_ignores_flag.
  - apply (step_count _ _ _ _ _ todo rest (cancel_processing s) col).
  - apply step_next_batch.
Qed.

Lemma returned_is_final s col j' : ¬ thread_step (Job Returned s col) j'.
Proof. inversion 1. Qed.

Lemma flag_observed_returns b rest s col j' :
  is_processing_cancelled s = true →
  thread_step (Job (LoopHead (b :: rest)) s col) j' →
  j' = Job Returned s col.
Proof. intros Hc. inversion 1; subst; [done|congruence]. Qed.

Lemma step_after_cancel j j' :
  step j j' →
  is_cancelled (job_stats j) = true →
  is_cancelled (job_stats j') = true ∧
  (job_phase j' = Returned ∨
   (job_phase j ≠ Returned ∧
    batches_left (job_phase j') = batches_left (job_phase j))).
Proof.
  intros [H|H] Hc.
  - pose proof (thread_step_counters _ _ H) as [_ Hflag].
    split; [congruence|].
    destruct H; simpl in *; try (by left); try (by right);
      unfold is_processing_cancelled in *; congruence.
  - destruct H as [ph s col]. simpl. split; [done|].
    destruct ph; try (by left); by right.
Qed.

Lemma returned_stays j j' :
  rtc step j j' → job_phase j = Returned → job_phase j' = Returned.
Proof.
  induction 1 as [j|j1 j2 j3 H12 _ IH]; [done|]. intros Hret. apply IH.
  destruct H12 as [H|H]; [|by destruct H].
  destruct j1 as [ph s col]. simpl in Hret. subst ph.
  by apply returned_is_final in H.
Qed.

(** Once the flag is set it stays set, and no further batch is started:
    the list of unstarted batches is left alone until the loop returns. *)
Lemma run_after_cancel j j' :
  rtc step j j' →
  is_cancelled (job_stats j) = true →
  is_cancelled (job_stats j') = true ∧
  (job_phase j' = Returned ∨
   batches_left (job_phase j') = batches_left (job_phase j)).
Proof.
  induction 1 as [j|j1 j2 j3 H12 H23 IH]; intros Hc; [by auto|].
  destruct (step_after_cancel _ _ H12 Hc) as [Hc2 Hph].
  destruct (IH Hc2) as [Hc3 Hph3]. split; [done|].
  destruct Hph as [Hret|[_ Hsame2]].
  - left. by apply (returned_stays j2).
  - destruct Hph3 as [?|Hsame]; [by left|right; congruence].
Qed.

End JobFacts.

(** *** The loop as a function *)
Section LoopFacts.
Context (source_field target_field : list N).
Context (html_to_text_line : list N → list N).
Context (generate_glossary_data : list N → option (list N)).
Context (flush_ok : Z → bool).

Local Abbreviation _process_note_task :=
  (_process_note_task source_field target_field html_to_text_line
     generate_glossary_data).
Local Abbreviation save_result := (save_result target_field flush_ok).
Local Abbreviation step :=
  (step source_field target_field html_to_text_line generate_glossary_data
     flush_ok).
Local Abbreviation run_pool :=
  (run_pool source_field target_field html_to_text_line generate_glossary_data).
Local Abbreviation save_loop := (save_loop target_field flush_ok).
Local Abbreviation batch_loop :=
  (batch_loop source_field target_field html_to_text_line
     generate_glossary_data flush_ok).

Lemma run_pool_steps col ids results rest s rs s' :
  run_pool col ids s = (rs, s') →
  rtc step (Job (InPool ids results rest) s col)
           (Job (InPool [] (results ++ rs) rest) s' col).
Proof.
  revert results s rs s'. induction ids as [|nid ids IH];
    intros results s rs s'; cbn [Processor.run_pool].
  - intros [= <- <-]. rewrite app_nil_r. apply rtc_refl.
  - destruct (_process_note_task col nid s) as [r s1] eqn:Ht.
    destruct (run_pool col ids s1) as [rs' s2] eqn:Hp.
    intros [= <- <-].
    eapply rtc_l; [left; by apply (step_task _ _ _ _ _ [] nid ids)|].
    cbn [app]. replace (results ++ r :: rs') with ((results ++ [r]) ++ rs')
      by (by rewrite <-app_assoc).
    by apply IH.
Qed.

Lemma save_loop_steps rs rest s col s' col' :
  save_loop rs s col = (s', col') →
  rtc step (Job (SaveLoop rs rest) s col) (Job (SaveLoop [] rest) s' col').
Proof.
  revert s col. induction rs as [|r rs IH]; intros s col; cbn [Processor.save_loop].
  - intros [= <- <-]. apply rtc_refl.
  - destruct (save_result r s col) as [s1 col1] eqn:Hs. intros Hrest.
    eapply rtc_l; [left; by apply step_save|].
    eapply rtc_l; [left; apply step_count|]. by apply IH.
Qed.

(** Every run of the function is a run of the step relation, from the head
    of the loop to the return. *)
Lemma batch_loop_steps cancel_at i batches s col s' col' :
  batch_loop cancel_at i batches s col = (s', col') →
  rtc step (Job (LoopHead batches) s col) (Job Returned s' col').
Proof.
  revert i s col. induction batches as [|b rest IH]; intros i s col;
    cbn [Processor.batch_loop].
  - intros [= <- <-]. apply rtc_once. left. apply step_exhausted.
  - destruct (is_processing_cancelled s) eqn:Hc.
    { intros [= <- <-]. apply rtc_once. left. by apply step_break. }
    destruct (run_pool col b s) as [rs s1] eqn:Hp.
    destruct (save_loop rs _ col) as [s3 col3] eqn:Hs. intros Hrest.
    eapply rtc_l; [left; by apply step_submit|].
    etrans; [by apply run_pool_steps|]. cbn [app].
    assert (rtc step (Job (InPool [] rs rest) s1 col)
              (Job (SaveLoop rs rest)
                 (if decide (cancel_at = Some i) then cancel_processing s1 else s1)
                 col)) as Hjoin.
    { case_decide.
      - eapply rtc_l; [right; apply step_cancel|].
        apply rtc_once. left. by apply step_joined.
      - apply rtc_once. left. by apply step_joined. }
    etrans; [exact Hjoin|].
    etrans; [by apply save_loop_steps|].
    eapply rtc_l; [left; apply step_next_batch|]. by eapply IH.
Qed.

Lemma run_pool_flag col ids s rs s' :
  run_pool col ids s = (rs, s') → is_cancelled s' = is_cancelled s.
Proof.
  revert s rs s'. induction ids as [|nid ids IH]; intros s rs s';
    cbn [Processor.run_pool].
  - by intros [= <- <-].
  - destruct (_process_note_task col nid s) as [r s1] eqn:Ht.
    destruct (run_pool col ids s1) as [rs' s2] eqn:Hp. intros [= <- <-].
    rewrite (IH _ _ _ Hp).
    by destruct (task_effect _ _ _ _ _ _ _ _ _ Ht) as (_ & _ & _ & ?).
Qed.

Lemma save_loop_flag rs s col s' col' :
  save_loop rs s col = (s', col') → is_cancelled s' = is_cancelled s.
Proof.
  revert s col. induction rs as [|r rs IH]; intros s col; cbn [Processor.save_loop].
  - by intros [= <- <-].
  - destruct (save_result r s col) as [s1 col1] eqn:Hs. intros Hrest.
    rewrite (IH _ _ Hrest). simpl.
    by destruct (save_effect _ _ _ _ _ _ _ Hs) as (_ & _ & _ & ?).
Qed.

Lemma save_loop_ignores_flag rs s col s' col' :
  save_loop rs s col = (s', col') →
  save_loop rs (cancel_processing s) col = (cancel_processing s', col').
Proof.
  revert s col. induction rs as [|r rs IH]; intros s col; cbn [Processor.save_loop].
  - by intros [= <- <-].
  - destruct (save_result r s col) as [s1 col1] eqn:Hs. intros Hrest.
    rewrite (save_ignores_flag _ _ _ _ _ _ _ Hs).
    by apply (IH (increment_processed s1)).
Qed.

Lemma batch_loop_cancelled cancel_at i batches s col :
  is_cancelled s = true → batch_loop cancel_at i batches s col = (s, col).
Proof.
  intros Hc. destruct batches; cbn [Processor.batch_loop]; [done|].
  unfold is_processing_cancelled. by rewrite Hc.
Qed.

(** A cancellation that arrives while batch [i + k] is in the pool: the
    batches up to and including that one run to their end exactly as they
    do without it, and none after it runs. *)
Lemma batch_loop_cancel_at i k batches s col :
  is_cancelled s = false → (k < length batches)%nat →
  batch_loop (Some (i + k)%nat) i batches s col
  = let '(s', col') := batch_loop None i (take (S k) batches) s col in
    (cancel_processing s', col').
Proof.
  revert i k s col. induction batches as [|b rest IH]; intros i k s col Hc Hk;
    [simpl in Hk; lia|].
  cbn [take Processor.batch_loop]. unfold is_processing_cancelled. rewrite Hc.
  destruct (run_pool col b s) as [rs s1] eqn:Hp.
  pose proof (run_pool_flag _ _ _ _ _ Hp) as Hc1. rewrite Hc in Hc1.
  rewrite (decide_False (P := None = Some i)) by done.
  destruct (save_loop rs s1 col) as [s3 col3] eqn:Hs.
  pose proof (save_loop_flag _ _ _ _ _ Hs) as Hc3. rewrite Hc1 in Hc3.
  destruct k as [|k].
  - rewrite Nat.add_0_r, decide_True by done.
    rewrite (save_loop_ignores_flag _ _ _ _ _ Hs).
    rewrite batch_loop_cancelled by done. by destruct rest.
  - rewrite decide_False by (intros [= ?]; lia). rewrite Hs.
    replace (i + S k)%nat with (S i + k)%nat by lia.
    apply IH; [done|]. simpl in Hk. lia.
Qed.

End LoopFacts.

(** A complete run of the loop ends with the counters in balance, and
    total_notes is the total the job was started with throughout. *)
Lemma batch_loop_balanced
    source_field target_field html_to_text_line generate_glossary_data flush_ok
    cancel_at batches total s0 col :
  let s' := (batch_loop source_field target_field html_to_text_line
               generate_glossary_data flush_ok cancel_at 0 batches
               (start_processing total s0) col).1 in
  tally s' = processed_notes s'.
Proof.
  simpl.
  destruct (batch_loop _ _ _ _ _ _ _ _ _ _) as [s' col'] eqn:Hrun.
  apply batch_loop_steps in Hrun.
  pose proof (reachable_balanced _ _ _ _ _ _ _ Hrun
                (start_job_balanced batches total s0 col)) as Hbal.
  unfold balanced in Hbal. simpl in *. lia.
Qed.

Lemma step_total_notes
    source_field target_field html_to_text_line generate_glossary_data flush_ok
    j j' :
  step source_field target_field html_to_text_line generate_glossary_data
    flush_ok j j' →
  total_notes (job_stats j') = total_notes (job_stats j).
Proof.
  intros [H|H]; [|by destruct H].
  destruct H as [| | |????????? Ht| |??????? Hs| |]; simpl; try done.
  - unfold _process_note_task in Ht.
    repeat match type of Ht with
           | context [match ?x with _ => _ end] => destruct x
           end; by injection Ht as <- <-.
  - unfold save_result in Hs.
    repeat match type of Hs with
           | context [match ?x with _ => _ end] => destruct x
           end; by injection Hs as <- <-.
Qed.

Lemma job_total_notes
    source_field target_field html_to_text_line generate_glossary_data flush_ok
    batches (note_ids : list Z) s0 col j :
  rtc (step source_field target_field html_to_text_line generate_glossary_data
         flush_ok)
      (start_job batches (Z.of_nat (length note_ids)) s0 col) j →
  total_notes (job_stats j) = Z.of_nat (length note_ids) ∧
  (0 ≤ total_notes (job_stats j))%Z.
Proof.
  intros Hrun.
  assert (total_notes (job_stats j) = Z.of_nat (length note_ids)) as ->; [|lia].
  remember (start_job _ _ _ _) as j0 eqn:Hj0.
  assert (total_notes (job_stats j0) = Z.of_nat (length note_ids)) as H0
    by (by subst j0).
  clear Hj0. induction Hrun as [|j1 j2 j3 H12 _ IH]; [done|].
  apply IH. by rewrite (step_total_notes _ _ _ _ _ _ _ H12).
Qed.

(** C2 as stated fails: a task bumps its category counter when it runs,
    while processed is bumped after the whole batch has been joined.  With
    one note whose source is blank, after the task has run empty = 1 and
    processed = 0. *)
Lemma category_bumped_before_processed :
  ¬ (∀ source_field target_field html_to_text_line generate_glossary_data
       flush_ok batches total s0 col j,
       rtc (step source_field target_field html_to_text_line
              generate_glossary_data flush_ok)
           (start_job batches total s0 col) j →
       tally (job_stats j) = processed_notes (job_stats j)).
Proof.
  intros H.
  specialize (H (lit "Expression") (lit "Glossary") id (λ _, Some []) (λ _, true)
                [[1%Z]] 1%Z zero_stats one_blank_note
                (Job (InPool [] [TaskResult 1 None Empty] [])
                     (increment_empty (start_processing 1 zero_stats))
                     one_blank_note)).
  discriminate H.
  eapply rtc_l; [left; by apply step_submit|].
  eapply rtc_l; [|apply rtc_refl].
  left. by apply (step_task _ _ _ _ _ [] 1%Z [] []).
Qed.

(** C2 (amended): within a job each of processed, updated, unchanged, empty
    and error never decreases (every step of the job leaves each at least as
    large, and all are at least their reset value 0); at every point
    processed <= updated + unchanged + empty + error, the difference being
    the results of the current batch that have bumped their category but
    are not yet counted as processed; the two sides are equal whenever the
    job stands between batches (before the first batch, after each batch,
    and when it has returned). *)
Theorem progress_counters_invariant
    source_field target_field html_to_text_line generate_glossary_data flush_ok
    batches total s0 col j :
  rtc (step source_field target_field html_to_text_line generate_glossary_data
         flush_ok)
      (start_job batches total s0 col) j →
  (∀ j', step source_field target_field html_to_text_line
           generate_glossary_data flush_ok j j' →
         counters_le (job_stats j) (job_stats j')) ∧
  counters_le (start_processing total s0) (job_stats j) ∧
  (processed_notes (job_stats j) ≤ tally (job_stats j))%Z ∧
  tally (job_stats j)
    = (processed_notes (job_stats j) + uncounted (job_phase j))%Z ∧
  (between_batches (job_phase j) = true →
   tally (job_stats j) = processed_notes (job_stats j)).
Proof.
  intros Hrun.
  pose proof (reachable_balanced _ _ _ _ _ _ _ Hrun
                (start_job_balanced batches total s0 col)) as Hbal.
  pose proof (reachable_counters _ _ _ _ _ _ _ Hrun) as Hle.
  pose proof (uncounted_nonneg (job_phase j)) as Hpos.
  unfold balanced in Hbal.
  split; [intros j'; apply step_counters|].
  split; [done|]. split; [lia|]. split; [done|].
  intros Hb. destruct (job_phase j); simpl in *; try done; lia.
Qed.

Lemma progress_counters_invariant_witness :
  let j := Job (SaveLoop [] [])
               (increment_processed
                  (increment_empty (start_processing 1 zero_stats)))
               one_blank_note in
  (processed_notes (job_stats j) ≤ tally (job_stats j))%Z.
Proof.
  refine (proj1 (proj2 (proj2
    (progress_counters_invariant (lit "Expression") (lit "Glossary") id
       (λ _, Some []) (λ _, true) [[1%Z]] 1%Z zero_stats one_blank_note _ _)))).
  eapply rtc_l; [left; by apply step_submit|].
  eapply rtc_l; [left; by apply (step_task _ _ _ _ _ [] 1%Z [] [])|].
  eapply rtc_l; [left; by apply step_joined|].
  eapply rtc_l; [left; by apply step_save|].
  eapply rtc_l; [left; apply step_count|].
  apply rtc_refl.
Defined.

(** C8: requesting cancellation only sets the flag; inside a batch every
    step of the background thread is taken just the same with the flag set
    (nothing in flight is pre-empted); the flag is read at the head of the
    batch loop, where a set flag makes the loop return with statistics and
    collection as they are; once set the flag stays set and no further batch
    is started; and after the return nothing is written any more, so the
    writes of the completed batches stay.  On the loop as a function: a
    cancellation arriving while batch k is in the pool leaves the statistics
    and the collection that the first k+1 batches alone produce, with the
    flag set. *)
Theorem cancellation_between_batches
    source_field target_field html_to_text_line generate_glossary_data flush_ok :
  (∀ j j', cancel_step j j' →
           j' = with_cancel_requested j ∧
           job_phase j' = job_phase j ∧ job_col j' = job_col j ∧
           is_cancelled (job_stats j') = true) ∧
  (∀ j j', thread_step source_field target_field html_to_text_line
             generate_glossary_data flush_ok j j' →
           (∀ batches, job_phase j ≠ LoopHead batches) →
           thread_step source_field target_field html_to_text_line
             generate_glossary_data flush_ok
             (with_cancel_requested j) (with_cancel_requested j')) ∧
  (∀ b rest s col j',
     is_processing_cancelled s = true →
     thread_step source_field target_field html_to_text_line
       generate_glossary_data flush_ok (Job (LoopHead (b :: rest)) s col) j' →
     j' = Job Returned s col) ∧
  (∀ j j',
     rtc (step source_field target_field html_to_text_line
            generate_glossary_data flush_ok) j j' →
     is_cancelled (job_stats j) = true →
     is_cancelled (job_stats j') = true ∧
     (job_phase j' = Returned ∨
      batches_left (job_phase j') = batches_left (job_phase j))) ∧
  (∀ s col j',
     ¬ thread_step source_field target_field html_to_text_line
         generate_glossary_data flush_ok (Job Returned s col) j') ∧
  (∀ k batches s col,
     is_cancelled s = false → (k < length batches)%nat →
     batch_loop source_field target_field html_to_text_line
       generate_glossary_data flush_ok (Some k) 0 batches s col
     = let '(s', col') :=
         batch_loop source_field target_field html_to_text_line
           generate_glossary_data flush_ok None 0 (take (S k) batches) s col in
       (cancel_processing s', col')).
Proof.
  split; [by intros j j' []|].
  split; [apply thread_step_ignores_flag|].
  split; [apply flag_observed_returns|].
  split; [apply run_after_cancel|].
  split; [apply returned_is_final|].
  intros k batches s col. apply (batch_loop_cancel_at _ _ _ _ _ 0 k).
Qed.

Lemma cancellation_between_batches_witness :
  let s := cancel_processing (start_processing 2 zero_stats) in
  let j := Job (InPool [1%Z] [] [[2%Z]]) s one_blank_note in
  let j' := Job Returned (increment_processed (increment_empty s)) one_blank_note in
  is_cancelled (job_stats j') = true ∧
  (job_phase j' = Returned ∨
   batches_left (job_phase j') = batches_left (job_phase j)).
Proof.
  intros s j j'.
  refine (proj1 (proj2 (proj2 (proj2
    (cancellation_between_batches (lit "Expression") (lit "Glossary") id
       (λ _, Some []) (λ _, true))))) j j' _ eq_refl).
  eapply rtc_l; [left; by apply (step_task _ _ _ _ _ [] 1%Z [] [])|].
  eapply rtc_l; [left; by apply step_joined|].
  eapply rtc_l; [left; by apply step_save|].
  eapply rtc_l; [left; apply step_count|].
  eapply rtc_l; [left; apply step_next_batch|].
  eapply rtc_l; [left; by apply step_break|].
  apply rtc_refl.
Defined.

End ProcessorFacts.

(** ** More on text_utils.py *)
Module TextUtilsMore.
Import TextUtils TextUtilsFacts.

Lemma find_not_elem_of c text : c ∉ text → Py.find c text = (-1)%Z.
Proof.
  induction text as [|x rest IH]; [done|]. intros Hn. simpl.
  destruct (N.eqb_spec x c) as [->|_]; [destruct Hn; by left|].
  rewrite IH by (intros ?; apply Hn; by right). done.
Qed.

Lemma find_app_r c l1 l2 :
  c ∉ l1 → c ∈ l2 →
  Py.find c (l1 ++ l2) = (Z.of_nat (length l1) + Py.find c l2)%Z.
Proof.
  intros Hn Hin. induction l1 as [|x l1 IH]; [simpl; lia|].
  cbn [app Py.find length].
  destruct (N.eqb_spec x c) as [->|_]; [destruct Hn; by left|].
  rewrite IH by (intros ?; apply Hn; by right).
  pose proof (find_elem_of c l2 Hin) as [? _].
  destruct (Z.ltb_spec (Z.of_nat (length l1) + Py.find c l2) 0); lia.
Qed.

Lemma find_head c l : Py.find c (c :: l) = 0%Z.
Proof. simpl. by rewrite N.eqb_refl. Qed.

(** A list without duplicates is sorted by the first index of its own
    elements. *)
Lemma NoDup_sorted_by_find (l : list N) :
  NoDup l →
  StronglySorted (λ a b, (Py.find a l <=? Py.find b l)%Z = true) l.
Proof.
  intros Hnd.
  assert (∀ pre suf, l = pre ++ suf →
            StronglySorted (λ a b, (Py.find a l <=? Py.find b l)%Z = true) suf)
    as H; [|by apply (H [])].
  intros pre suf. revert pre. induction suf as [|x suf IH]; intros pre Hl;
    [constructor|].
  constructor.
  - apply (IH (pre ++ [x])). by rewrite <-app_assoc.
  - apply Forall_forall. intros y Hy. apply Z.leb_le.
    subst l. apply NoDup_app in Hnd as (_ & Hdis & Hnd2).
    apply NoDup_cons in Hnd2 as [Hx _].
    assert (x ∉ pre) by (intros ?; eapply Hdis; [done|by left]).
    assert (y ∉ pre) by (intros ?; eapply Hdis; [done|by right]).
    rewrite !find_app_r by (done || by left || by right).
    rewrite find_head. pose proof (find_elem_of y (x :: suf)) as [? _];
      [by right|]. lia.
Qed.

(** X1: has_japanese_content(text) holds exactly when
    extract_unique_japanese_chars(text) is not empty. *)
Theorem has_japanese_content_iff_extract text :
  has_japanese_content text = true ↔ extract_unique_japanese_chars text ≠ [].
Proof.
  unfold has_japanese_content. rewrite existsb_exists. split.
  - intros (c & Hin%list_elem_of_In & Hj) Hnil.
    assert (c ∈ extract_unique_japanese_chars text) as Hc.
    { apply elem_of_extract. auto using japanese_not_space. }
    rewrite Hnil in Hc. by apply elem_of_nil in Hc.
  - destruct (extract_unique_japanese_chars text) as [|c l] eqn:He; [done|].
    intros _. assert (c ∈ extract_unique_japanese_chars text) as Hc
      by (rewrite He; by left).
    apply elem_of_extract in Hc as (Hin & Hj & _).
    exists c. by rewrite <-list_elem_of_In.
Qed.

(** [''.join(chars)] for a list of one-character strings. *)
Lemma join_chars (chars : list N) :
  Py.join [] (map (λ c, [c]) chars) = chars.
Proof.
  induction chars as [|c [|c' rest] IH]; [done|done|].
  change (Py.join [] (map (λ c, [c]) (c :: c' :: rest)))
    with ([c] ++ [] ++ Py.join [] (map (λ c, [c]) (c' :: rest))).
  by rewrite IH.
Qed.

(** X2: extracting is stable under re-reading its result: when the
    extracted characters are joined into a string (''.join(result)) and the
    extraction is applied to that string, the same list comes back. *)
Theorem extract_unique_idempotent text :
  extract_unique_japanese_chars
    (Py.join [] (map (λ c, [c]) (extract_unique_japanese_chars text)))
  = extract_unique_japanese_chars text.
Proof.
  rewrite join_chars.
  set (l := extract_unique_japanese_chars text).
  assert (NoDup l) as Hnd by apply extract_NoDup.
  assert (filter (λ c, is_japanese_char c && negb (Py.isspace c)) l = l) as Hf.
  { apply filter_all, Forall_forall. intros c Hc.
    apply elem_of_extract in Hc as (_ & -> & ->). done. }
  assert (elements (japanese_char_set l) ≡ₚ l) as Hp.
  { unfold japanese_char_set. rewrite Hf. by apply elements_list_to_set. }
  unfold extract_unique_japanese_chars at 1.
  apply (StronglySorted_unique_strong
           (λ a b, (Py.find a l <=? Py.find b l)%Z = true)).
  - intros a b Ha Hb H1 H2. rewrite sorted_perm, Hp in Ha.
    apply Z.leb_le in H1, H2. apply (find_inj a b l); [done..|lia].
  - apply sorted_strongly; [apply find_le_total|apply find_le_trans].
  - by apply NoDup_sorted_by_find.
  - by rewrite sorted_perm.
Qed.

Lemma three_way_partition (l : list N) :
  Forall (λ c, is_japanese_char c = true) l →
  filter (λ c, is_hiragana c) l
  ++ filter (λ c, negb (is_hiragana c) && is_katakana c) l
  ++ filter (λ c, is_kanji c) l ≡ₚ l.
Proof.
  induction 1 as [|c l Hc _ IH]; [done|].
  rewrite !filter_cons. unfold is_japanese_char in Hc.
  pose proof (kanji_not_kana c) as Hk.
  destruct (is_hiragana c) eqn:Hh, (is_katakana c) eqn:Hka, (is_kanji c) eqn:Hkj;
    try done; try (by destruct Hk); cbn [negb andb].
  all: repeat case_decide; simpl in *; try done.
  all: rewrite <-?Permutation_middle; by constructor.
Qed.

(** X3: categorize_characters sorts every extracted character into exactly
    one of its three lists: the lists taken together are a rearrangement of
    extract_unique_japanese_chars(text), none has a duplicate, and no
    character occurs in two of them. *)
Theorem categorize_characters_partition text :
  let cats := categorize_characters text in
  cat_hiragana cats ++ cat_katakana cats ++ cat_kanji cats
    ≡ₚ extract_unique_japanese_chars text ∧
  NoDup (cat_hiragana cats ++ cat_katakana cats ++ cat_kanji cats) ∧
  (∀ c, c ∈ cat_hiragana cats → (c ∉ cat_katakana cats) ∧ (c ∉ cat_kanji cats)) ∧
  (∀ c, c ∈ cat_katakana cats → c ∉ cat_kanji cats).
Proof.
  cbn zeta. unfold categorize_characters. rewrite categorize_fold. cbn.
  assert (filter (λ c, is_hiragana c) (extract_unique_japanese_chars text)
          ++ filter (λ c, negb (is_hiragana c) && is_katakana c)
               (extract_unique_japanese_chars text)
          ++ filter (λ c, is_kanji c) (extract_unique_japanese_chars text)
          ≡ₚ extract_unique_japanese_chars text) as Hp.
  { apply three_way_partition, Forall_forall. intros c Hc.
    by apply elem_of_extract in Hc as (_ & ? & _). }
  split; [done|]. split; [rewrite Hp; apply extract_NoDup|].
  split.
  - intros c [Hh _]%list_elem_of_filter. apply Is_true_true in Hh.
    rewrite !list_elem_of_filter. split; intros [Hx _].
    + rewrite Hh in Hx. by destruct Hx.
    + apply Is_true_true in Hx. destruct (kanji_not_kana c Hx). congruence.
  - intros c [Hk _]%list_elem_of_filter.
    apply andb_True in Hk as [_ Hk%Is_true_true].
    rewrite list_elem_of_filter. intros [Hx%Is_true_true _].
    destruct (kanji_not_kana c Hx). congruence.
Qed.

(** *** clean_text *)

Lemma lstrip_head s :
  match Py.lstrip s with [] => True | c :: _ => Py.isspace c = false end.
Proof.
  induction s as [|c s IH]; [done|]. simpl.
  by destruct (Py.isspace c) eqn:Hc; [|simpl; rewrite Hc].
Qed.

Lemma lstrip_fixed c s : Py.isspace c = false → Py.lstrip (c :: s) = c :: s.
Proof. intros H. simpl. by rewrite H. Qed.

Lemma lstrip_nonspace s :
  filter (λ c, negb (Py.isspace c)) (Py.lstrip s) = filter (λ c, negb (Py.isspace c)) s.
Proof.
  induction s as [|c s IH]; [done|]. cbn [Py.lstrip].
  destruct (Py.isspace c) eqn:Hc; [|done].
  rewrite IH, filter_cons_False; [done|]. rewrite Hc. by intros [].
Qed.

Lemma lstrip_suffix s : ∃ pre, s = pre ++ Py.lstrip s ∧ Forall (λ c, Py.isspace c = true) pre.
Proof.
  induction s as [|c s (pre & IH & Hpre)]; [by exists []|]. cbn [Py.lstrip].
  destruct (Py.isspace c) eqn:Hc; [|by exists []].
  exists (c :: pre). split; [by rewrite IH at 1|by constructor].
Qed.

Lemma sub_spaces_single_spaced q s : Py.single_spaced q (Py.sub_spaces q s) = true.
Proof.
  revert q. induction s as [|c s IH]; intros q; [done|]. cbn [Py.sub_spaces].
  destruct (Py.isspace c) eqn:Hc.
  - destruct q; [apply IH|]. cbn [Py.single_spaced].
    replace (Py.isspace 32%N) with true by done. by rewrite IH.
  - cbn [Py.single_spaced]. rewrite Hc. apply IH.
Qed.

Lemma single_spaced_fixed q s :
  Py.single_spaced q s = true → Py.sub_spaces q s = s.
Proof.
  revert q. induction s as [|c s IH]; intros q; [done|].
  cbn [Py.single_spaced Py.sub_spaces]. destruct (Py.isspace c).
  - intros [[Hq Hc%N.eqb_eq]%andb_true_iff Hs]%andb_true_iff.
    destruct q; [done|]. subst c. by rewrite IH.
  - intros Hs. by rewrite IH.
Qed.

Lemma single_spaced_weaken q s :
  Py.single_spaced true s = true → Py.single_spaced q s = true.
Proof.
  destruct q; [done|]. destruct s as [|c s]; [done|]. cbn [Py.single_spaced].
  by destruct (Py.isspace c).
Qed.

Lemma single_spaced_elim q s :
  Py.single_spaced q s = true →
  Forall (λ c, Py.isspace c = true → c = 32%N) s ∧
  (∀ i a b, s !! i = Some a → s !! S i = Some b →
            Py.isspace a = true → Py.isspace b = false).
Proof.
  revert q. induction s as [|c s IH]; intros q; [by split; [constructor|]|].
  cbn [Py.single_spaced]. destruct (Py.isspace c) eqn:Hc.
  - intros [[Hq Hc32%N.eqb_eq]%andb_true_iff Hs]%andb_true_iff.
    destruct (IH _ Hs) as [Hall Hadj]. split; [by constructor|].
    intros [|i] a b Ha Hb Hsa; [|exact (Hadj i a b Ha Hb Hsa)].
    destruct s as [|d s]; [done|]. simpl in Hb. injection Hb as ->.
    cbn [Py.single_spaced] in Hs. by destruct (Py.isspace b).
  - intros Hs. destruct (IH _ Hs) as [Hall Hadj]. split.
    + constructor; [congruence|done].
    + intros [|i] a b Ha Hb Hsa; [|exact (Hadj i a b Ha Hb Hsa)].
      simpl in Ha. injection Ha as ->. congruence.
Qed.

Lemma sub_spaces_nonspace q s :
  filter (λ c, negb (Py.isspace c)) (Py.sub_spaces q s)
  = filter (λ c, negb (Py.isspace c)) s.
Proof.
  revert q. induction s as [|c s IH]; intros q; [done|]. cbn [Py.sub_spaces].
  destruct (Py.isspace c) eqn:Hc.
  - rewrite (filter_cons_False _ c) by (rewrite Hc; by intros []).
    destruct q; [apply IH|].
    rewrite filter_cons_False by (by intros []). apply IH.
  - rewrite !filter_cons, Hc. cbn [negb]. by rewrite IH.
Qed.

Lemma sub_spaces_head q c s :
  Py.isspace c = false → Py.sub_spaces q (c :: s) = c :: Py.sub_spaces false s.
Proof. intros H. cbn [Py.sub_spaces]. by rewrite H. Qed.

Lemma sub_spaces_last q s x :
  last s = Some x → Py.isspace x = false → last (Py.sub_spaces q s) = Some x.
Proof.
  revert q. induction s as [|c s IH]; intros q Hl Hx; [done|].
  destruct s as [|d s].
  - simpl in Hl. injection Hl as ->. cbn [Py.sub_spaces]. by rewrite Hx.
  - rewrite last_cons_cons in Hl. remember (d :: s) as t eqn:Ht.
    assert (∀ q' y, last (y :: Py.sub_spaces q' t) = Some x) as Hcons.
    { intros q' y. specialize (IH q' Hl Hx).
      destruct (Py.sub_spaces q' t); [done|].
      by rewrite last_cons_cons. }
    cbn [Py.sub_spaces].
    destruct (Py.isspace c); [destruct q|]; [by apply IH|apply Hcons..].
Qed.

Lemma rstrip_split s :
  ∃ suf, s = Py.rstrip s ++ suf ∧ Forall (λ c, Py.isspace c = true) suf.
Proof.
  destruct (lstrip_suffix (rev s)) as (pre & Hs & Hpre).
  exists (rev pre). split; [|by apply Forall_rev].
  unfold Py.rstrip. by rewrite <-rev_app_distr, <-Hs, rev_involutive.
Qed.

Lemma rstrip_last s :
  match last (Py.rstrip s) with None => True | Some c => Py.isspace c = false end.
Proof.
  unfold Py.rstrip. pose proof (lstrip_head (rev s)) as H.
  destruct (Py.lstrip (rev s)) as [|c l]; [done|].
  simpl. by rewrite last_snoc.
Qed.

Lemma rstrip_fixed s x :
  last s = Some x → Py.isspace x = false → Py.rstrip s = s.
Proof.
  intros Hl Hx. unfold Py.rstrip.
  destruct s as [|c s _] using rev_ind; [done|].
  rewrite last_snoc in Hl. injection Hl as ->.
  rewrite rev_app_distr. simpl. rewrite Hx. simpl.
  by rewrite rev_involutive.
Qed.

Lemma all_space_nonspace (l : list N) :
  Forall (λ c, Py.isspace c = true) l →
  filter (λ c, negb (Py.isspace c)) l = [].
Proof.
  intros H. apply filter_none. eapply Forall_impl; [exact H|].
  intros c Hc. rewrite Hc. by intros [].
Qed.

Lemma strip_nonspace s :
  filter (λ c, negb (Py.isspace c)) (Py.strip s)
  = filter (λ c, negb (Py.isspace c)) s.
Proof.
  unfold Py.strip. rewrite <-(lstrip_nonspace s).
  destruct (rstrip_split (Py.lstrip s)) as (suf & Hs & Hsuf).
  rewrite Hs at 2. rewrite filter_app, (all_space_nonspace suf) by done.
  by rewrite app_nil_r.
Qed.

(** The head of a stripped string is no whitespace. *)
Lemma strip_head s :
  match Py.strip s with [] => True | c :: _ => Py.isspace c = false end.
Proof.
  unfold Py.strip. pose proof (lstrip_head s) as Hh.
  destruct (rstrip_split (Py.lstrip s)) as (suf & Hs & Hsuf).
  destruct (Py.rstrip (Py.lstrip s)) as [|c r]; [done|].
  rewrite Hs in Hh. done.
Qed.

Lemma clean_text_shape text :
  Py.single_spaced false (clean_text text) = true ∧
  (∀ c, head (clean_text text) = Some c → Py.isspace c = false) ∧
  (∀ c, last (clean_text text) = Some c → Py.isspace c = false).
Proof.
  unfold clean_text. destruct text as [|t0 text]; [done|].
  remember (t0 :: text) as t eqn:Ht. clear Ht.
  split; [apply sub_spaces_single_spaced|]. split.
  - pose proof (strip_head t) as Hh. destruct (Py.strip t) as [|c u]; [done|].
    rewrite sub_spaces_head by done. by intros ? [= <-].
  - pose proof (rstrip_last (Py.lstrip t)) as Hl. fold (Py.strip t) in Hl.
    destruct (last (Py.strip t)) as [x|] eqn:Hlast.
    + rewrite (sub_spaces_last _ _ x Hlast Hl). by intros ? [= <-].
    + apply last_None in Hlast. by rewrite Hlast.
Qed.

(** X4: clean_text normalises whitespace: its result is a fixed point of
    clean_text, holds no whitespace character other than the space U+0020,
    has no two adjacent spaces, neither starts nor ends with a space, and
    keeps the non-whitespace characters of the input in their order. *)
Theorem clean_text_normalises text :
  clean_text (clean_text text) = clean_text text ∧
  Forall (λ c, Py.isspace c = true → c = 32%N) (clean_text text) ∧
  (∀ i a b, clean_text text !! i = Some a → clean_text text !! S i = Some b →
            Py.isspace a = true → Py.isspace b = false) ∧
  (∀ c, head (clean_text text) = Some c → Py.isspace c = false) ∧
  (∀ c, last (clean_text text) = Some c → Py.isspace c = false) ∧
  filter (λ c, negb (Py.isspace c)) (clean_text text)
  = filter (λ c, negb (Py.isspace c)) text.
Proof.
  destruct (clean_text_shape text) as (Hss & Hhead & Hlast).
  destruct (single_spaced_elim _ _ Hss) as [Hall Hadj].
  split; [|split; [done|split; [done|split; [done|split; [done|]]]]].
  - destruct (clean_text text) as [|c r] eqn:Hr; [done|].
    unfold clean_text at 1.
    assert (Py.strip (c :: r) = c :: r) as ->.
    { unfold Py.strip. rewrite lstrip_fixed by (by apply Hhead).
      destruct (last (c :: r)) as [x|] eqn:Hl; [|by apply last_None in Hl].
      apply (rstrip_fixed _ x Hl). by apply Hlast. }
    by apply single_spaced_fixed.
  - unfold clean_text. destruct text as [|t0 text]; [done|].
    by rewrite sub_spaces_nonspace, strip_nonspace.
Qed.

End TextUtilsMore.

(** ** More on api_client.py *)
Module ApiClientMore.
Import Config Stats ApiClient ApiClientFacts.

(** X5: lookups never remove or overwrite a cache entry: an entry present
    before any run of lookups is present, with the same value, after it, and
    with caching enabled a later lookup of that key is answered with that
    value from the cache, without an API call. *)
Theorem cached_entries_persist config attempts r g v :
  global_api_cache g !! cache_key_of r = Some v →
  let g' := run_lookups config attempts g in
  global_api_cache g' !! cache_key_of r = Some v ∧
  (cache_enabled (cfg_cache config) = true →
   ∀ net, lookup config net r g'
          = (v, Gateway (global_api_cache g')
                        (increment_cache_hits (global_stats g')))).
Proof.
  intros Hk g'.
  assert (global_api_cache g' !! cache_key_of r = Some v) as Hk'
    by (by apply run_lookups_keeps_entries).
  split; [done|]. intros He net. rewrite lookup_unfold.
  unfold served_from_cache, cache_contains, cache_getitem.
  by rewrite He, Hk'.
Qed.

Lemma cached_entries_persist_witness :
  let r := KanjiLookup [0x5143%N] in
  let g := Gateway {[ cache_key_of r := VStr (lit "gen") ]} (global_stats empty_gateway) in
  global_api_cache
    (run_lookups get_default_config
       [(answers_a, Romaji2Kana (lit "/v1/to/romaji") [0x3042%N]); (unreachable, r)] g)
    !! cache_key_of r
  = Some (VStr (lit "gen")).
Proof.
  intros r g.
  refine (proj1 (cached_entries_persist get_default_config _ r g _ _)).
  apply lookup_singleton_eq.
Defined.

Lemma public_keys_inj r r' :
  public_request r → public_request r' →
  cache_key_of r = cache_key_of r' → r = r'.
Proof.
  destruct r as [e t|c], r' as [e' t'|c']; cbn [public_request cache_key_of];
    intros H H' Hk.
  - destruct H as [-> | [-> | ->] ], H' as [-> | [-> | ->] ];
      try (cbn in Hk; discriminate Hk);
      f_equal; by do 3 apply app_inv_head in Hk.
  - destruct H as [-> | [-> | ->] ]; cbn in Hk; discriminate Hk.
  - destruct H' as [-> | [-> | ->] ]; cbn in Hk; discriminate Hk.
  - f_equal. by apply app_inv_head in Hk.
Qed.

Lemma lookup_result_other_key config net net' r r' g :
  cache_key_of r' ≠ cache_key_of r →
  (lookup config net r (lookup config net' r' g).2).1 = (lookup config net r g).1.
Proof.
  intros Hne. rewrite !lookup_result.
  unfold served_from_cache, cache_contains, cache_getitem.
  destruct (lookup_store_miss config net' r' g) as [->|(_ & _ & ->)]; [done|].
  by rewrite lookup_insert_ne.
Qed.

(** X6: the cache keys of the four public lookups never collide: two
    different requests among get_romaji_for_text, get_hiragana_for_text,
    get_katakana_for_text and get_kanji_info have different keys, so the
    result of one is never changed by an earlier lookup of another. *)
Theorem public_lookups_do_not_interfere r r' :
  public_request r → public_request r' → r ≠ r' →
  cache_key_of r ≠ cache_key_of r' ∧
  ∀ config net net' g,
    (lookup config net r (lookup config net' r' g).2).1
    = (lookup config net r g).1.
Proof.
  intros Hr Hr' Hne.
  assert (cache_key_of r ≠ cache_key_of r') as Hk
    by (intros Hk; by apply Hne, public_keys_inj).
  split; [done|]. intros. by apply lookup_result_other_key.
Qed.

Lemma public_lookups_do_not_interfere_witness :
  cache_key_of (Romaji2Kana (lit "/v1/to/romaji") [0x3042%N])
  ≠ cache_key_of (Romaji2Kana (lit "/v1/to/katakana") [0x3042%N]).
Proof.
  refine (proj1 (public_lookups_do_not_interfere _ _ _ _ _));
    [by left|by right; right|discriminate].
Defined.

Lemma lookup_cache_disabled config net r g :
  cache_enabled (cfg_cache config) = false →
  lookup config net r g
  = (remote_answer net r,
     Gateway (global_api_cache g) (increment_api_calls (global_stats g))).
Proof.
  intros He. rewrite lookup_unfold. unfold served_from_cache.
  by rewrite He, andb_false_r.
Qed.

(** X7: with caching disabled the cache mapping is neither read nor
    written: every lookup returns what the remote service answers, and a
    run of lookups leaves the cache and cache_hits as they were and adds the
    number of lookups to api_calls. *)
Theorem cache_disabled_bypasses_cache config :
  cache_enabled (cfg_cache config) = false →
  (∀ net r g, (lookup config net r g).1 = remote_answer net r) ∧
  (∀ attempts g,
     let g' := run_lookups config attempts g in
     global_api_cache g' = global_api_cache g ∧
     cache_hits (global_stats g') = cache_hits (global_stats g) ∧
     api_calls (global_stats g')
     = (api_calls (global_stats g) + Z.of_nat (length attempts))%Z).
Proof.
  intros He. split; [intros; by rewrite lookup_cache_disabled|].
  intros attempts. induction attempts as [|[net r] rest IH]; intros g.
  - simpl. repeat split. lia.
  - cbn [run_lookups]. rewrite lookup_cache_disabled by done. cbn [snd].
    destruct (IH (Gateway (global_api_cache g)
                    (increment_api_calls (global_stats g)))) as (-> & -> & ->).
    simpl. repeat split. lia.
Qed.

Lemma cache_disabled_bypasses_cache_witness :
  let config := Config.Build (cfg_general get_default_config)
                  (cfg_performance get_default_config) (Cache false 10 15) in
  let r := Romaji2Kana (lit "/v1/to/romaji") [0x3042%N] in
  let g' := run_lookups config [(answers_a, r); (answers_a, r)] empty_gateway in
  global_api_cache g' = ∅ ∧
  cache_hits (global_stats g') = 0%Z ∧ api_calls (global_stats g') = 2%Z.
Proof.
  intros config r g'.
  refine (proj2 (cache_disabled_bypasses_cache config eq_refl) _ empty_gateway).
Defined.

Lemma lookup_answered config net r g :
  cache_enabled (cfg_cache config) = true →
  remote_answer net r ≠ VNone →
  let g' := (lookup config net r g).2 in
  (cache_key_of r ∈ dom (global_api_cache g) ∧
   global_api_cache g' = global_api_cache g ∧
   api_calls (global_stats g') = api_calls (global_stats g)) ∨
  ((cache_key_of r ∉ dom (global_api_cache g)) ∧
   global_api_cache g'
     = <[cache_key_of r := remote_answer net r]> (global_api_cache g) ∧
   api_calls (global_stats g') = (api_calls (global_stats g) + 1)%Z).
Proof.
  intros He Hans. simpl. rewrite lookup_unfold.
  unfold served_from_cache, cache_contains. rewrite He. simpl.
  destruct (global_api_cache g !! cache_key_of r) as [v|] eqn:Hl.
  - rewrite bool_decide_eq_true_2 by (by eexists). left.
    split; [|done]. apply elem_of_dom. by eexists.
  - rewrite bool_decide_eq_false_2 by (by intros [? ?]). right.
    assert (negb (is_None (remote_answer net r)) = true) as ->
      by (by destruct (remote_answer net r)).
    simpl. split; [|done]. by apply not_elem_of_dom.
Qed.

Lemma size_fresh_key (K : list N) (Ks D : gset (list N)) :
  K ∉ D → size (({[K]} ∪ Ks) ∖ D) = S (size (Ks ∖ ({[K]} ∪ D))).
Proof.
  intros Hnin.
  assert (({[K]} ∪ Ks) ∖ D = {[K]} ∪ (Ks ∖ ({[K]} ∪ D))) as ->.
  { apply set_eq. intros k. rewrite !elem_of_union, !elem_of_difference,
      !elem_of_union, !elem_of_singleton.
    destruct (decide (k = K)) as [->|]; tauto. }
  rewrite size_union, size_singleton; [done|].
  apply disjoint_singleton_l. rewrite elem_of_difference, elem_of_union,
    elem_of_singleton. tauto.
Qed.

(** X8: with caching enabled and a remote service that answers every
    request of a run with a non-null result, each key is fetched from the
    service once: api_calls grows by the number of distinct keys of the run
    that were not cached before, and afterwards exactly the old keys and the
    keys of the run are cached. *)
Theorem each_key_fetched_once config net reqs g :
  cache_enabled (cfg_cache config) = true →
  Forall (λ r, remote_answer net r ≠ VNone) reqs →
  let g' := run_lookups config (map (pair net) reqs) g in
  dom (global_api_cache g')
  = dom (global_api_cache g) ∪ list_to_set (map cache_key_of reqs) ∧
  api_calls (global_stats g')
  = (api_calls (global_stats g)
     + Z.of_nat (size (list_to_set (map cache_key_of reqs)
                       ∖ dom (global_api_cache g))))%Z.
Proof.
  intros He Hans. cbn zeta. revert g.
  induction Hans as [|r reqs Hr _ IH]; intros g.
  - cbn [map run_lookups list_to_set]. split; [by rewrite union_empty_r_L|].
    rewrite difference_disjoint_L by apply disjoint_empty_l.
    rewrite size_empty. lia.
  - cbn [map run_lookups list_to_set].
    destruct (IH (lookup config net r g).2) as [Hdom Hcalls].
    rewrite Hdom, Hcalls. clear Hdom Hcalls IH.
    destruct (lookup_answered config net r g He Hr) as
      [(Hin & -> & ->)|(Hnin & -> & ->)].
    + split.
      * rewrite (assoc_L (∪)). f_equal. symmetry.
        rewrite (comm_L (∪)). apply subseteq_union_1_L.
        by apply singleton_subseteq_l.
      * do 3 f_equal. apply set_eq. intros k.
        rewrite !elem_of_difference, elem_of_union, elem_of_singleton.
        split; [tauto|]. intros [[->|?] ?]; tauto.
    + rewrite dom_insert_L. split; [by rewrite (assoc_L (∪)), (comm_L (∪) _ {[_]})|].
      rewrite size_fresh_key by done. lia.
Qed.

Lemma each_key_fetched_once_witness :
  let r := Romaji2Kana (lit "/v1/to/romaji") [0x3042%N] in
  let r' := Romaji2Kana (lit "/v1/to/romaji") [0x3044%N] in
  api_calls (global_stats
               (run_lookups get_default_config
                  (map (pair answers_a) [r; r'; r; r'; r]) empty_gateway))
  = 2%Z.
Proof.
  intros r r'.
  refine (proj2 (each_key_fetched_once get_default_config answers_a
                   [r; r'; r; r'; r] empty_gateway eq_refl _)).
  repeat constructor; discriminate.
Defined.

End ApiClientMore.

(** ** More on processor.py *)
Module ProcessorMore.
Import Config Stats Processor ProcessorFacts.

Lemma chunks_concat fuel n (l : list Z) :
  (0 < n)%nat → (length l ≤ fuel)%nat → concat (chunks fuel n l) = l.
Proof.
  intros Hn. revert l. induction fuel as [|fuel IH]; intros l Hl.
  - destruct l; [done|simpl in Hl; lia].
  - destruct l as [|x l]; [done|]. cbn [chunks concat].
    rewrite IH; [apply take_drop|].
    rewrite length_drop. simpl in *. lia.
Qed.

Lemma chunks_sizes fuel n (l : list Z) :
  (0 < n)%nat →
  Forall (λ b : list Z, (0 < length b ≤ n)%nat) (chunks fuel n l).
Proof.
  intros Hn. revert l. induction fuel as [|fuel IH]; intros l; [constructor|].
  destruct l as [|x l]; [constructor|]. cbn [chunks]. constructor; [|apply IH].
  rewrite length_take. simpl. lia.
Qed.

Lemma chunks_full fuel n (l : list Z) i b :
  (0 < n)%nat → (length l ≤ fuel)%nat →
  chunks fuel n l !! i = Some b → (S i < length (chunks fuel n l))%nat →
  length b = n.
Proof.
  intros Hn. revert l i. induction fuel as [|fuel IH]; intros l i Hl; [done|].
  destruct l as [|x l]; [done|]. cbn [chunks].
  destruct i as [|i]; simpl.
  - intros [= <-] Hlen. rewrite length_take.
    destruct (chunks fuel n (drop n (x :: l))) as [|b' bs] eqn:Hc;
      [simpl in Hlen; lia|].
    destruct fuel as [|fuel]; [done|]. cbn [chunks] in Hc.
    destruct (drop n (x :: l)) eqn:Hd; [done|].
    assert (length (drop n (x :: l)) ≠ 0)%nat as Hnz by (by rewrite Hd).
    rewrite length_drop in Hnz. lia.
  - intros Hb Hlen. eapply IH; [|done|lia].
    rewrite length_drop. simpl in *. lia.
Qed.

(** X9: the batches partition the note list: for a positive batch size
    their concatenation is the list of note ids, no batch is empty or
    larger than the batch size, and every batch but the last is full.  A
    batch size of zero makes the function fail before the job starts, and a
    negative one yields no batch at all. *)
Theorem split_batches_partition batch_size (note_ids : list Z) :
  (batch_size = 0%Z → split_batches batch_size note_ids = None) ∧
  ((batch_size < 0)%Z → split_batches batch_size note_ids = Some []) ∧
  ((0 < batch_size)%Z →
   ∃ batches,
     split_batches batch_size note_ids = Some batches ∧
     concat batches = note_ids ∧
     Forall (λ b : list Z, (0 < length b ≤ Z.to_nat batch_size)%nat) batches ∧
     ∀ i b, batches !! i = Some b → (S i < length batches)%nat →
            length b = Z.to_nat batch_size).
Proof.
  unfold split_batches. split; [by intros ->|]. split.
  - intros Hneg. destruct (Z.eqb_spec batch_size 0); [lia|].
    destruct (Z.ltb_spec batch_size 0); [done|lia].
  - intros Hpos. destruct (Z.eqb_spec batch_size 0); [lia|].
    destruct (Z.ltb_spec batch_size 0); [lia|].
    eexists. split; [done|].
    split; [apply chunks_concat; lia|].
    split; [apply chunks_sizes; lia|].
    intros i b. apply chunks_full; lia.
Qed.

Lemma split_batches_partition_witness :
  ∃ batches,
    split_batches 2 [11; 12; 13; 14; 15]%Z = Some batches ∧
    concat batches = [11; 12; 13; 14; 15]%Z ∧
    Forall (λ b : list Z, (0 < length b ≤ Z.to_nat 2)%nat) batches ∧
    ∀ i b, batches !! i = Some b → (S i < length batches)%nat →
           length b = Z.to_nat 2.
Proof.
  apply (split_batches_partition 2 [11; 12; 13; 14; 15]%Z). lia.
Defined.

Section RunFacts.
Context (source_field target_field : list N).
Context (html_to_text_line : list N → list N).
Context (generate_glossary_data : list N → option (list N)).
Context (flush_ok : Z → bool).

Local Abbreviation _process_note_task :=
  (_process_note_task source_field target_field html_to_text_line
     generate_glossary_data).
Local Abbreviation save_result := (save_result target_field flush_ok).
Local Abbreviation run_pool :=
  (run_pool source_field target_field html_to_text_line generate_glossary_data).
Local Abbreviation save_loop := (save_loop target_field flush_ok).
Local Abbreviation batch_loop :=
  (batch_loop source_field target_field html_to_text_line
     generate_glossary_data flush_ok).
Local Abbreviation wanted :=
  (wanted source_field target_field html_to_text_line generate_glossary_data).
Local Abbreviation at_rest :=
  (at_rest source_field target_field html_to_text_line generate_glossary_data).
Local Abbreviation only_target_written := (only_target_written target_field).

(** *** Counting *)

Lemma task_note_id col nid s r s' :
  _process_note_task col nid s = (r, s') → tr_note_id r = nid.
Proof.
  unfold Processor._process_note_task.
  repeat match goal with
         | |- context [match ?x with _ => _ end] => destruct x
         end; by intros [= <- <-].
Qed.

Lemma run_pool_results col ids s rs s' :
  run_pool col ids s = (rs, s') →
  map tr_note_id rs = ids ∧ processed_notes s' = processed_notes s.
Proof.
  revert s rs s'. induction ids as [|nid ids IH]; intros s rs s';
    cbn [Processor.run_pool].
  - by intros [= <- <-].
  - destruct (_process_note_task col nid s) as [r s1] eqn:Ht.
    destruct (run_pool col ids s1) as [rs' s2] eqn:Hp. intros [= <- <-].
    destruct (IH _ _ _ Hp) as [Hids ->].
    destruct (task_effect _ _ _ _ _ _ _ _ _ Ht) as (_ & -> & _).
    cbn [map]. by rewrite Hids, (task_note_id _ _ _ _ _ Ht).
Qed.

Lemma save_loop_processed rs s col s' col' :
  save_loop rs s col = (s', col') →
  processed_notes s' = (processed_notes s + Z.of_nat (length rs))%Z.
Proof.
  revert s col. induction rs as [|r rs IH]; intros s col; cbn [Processor.save_loop].
  - intros [= <- <-]. simpl. lia.
  - destruct (save_result r s col) as [s1 col1] eqn:Hs. intros Hrest.
    rewrite (IH _ _ Hrest). simpl.
    destruct (save_effect _ _ _ _ _ _ _ Hs) as (_ & -> & _). lia.
Qed.

Lemma batch_loop_processed i batches s col s' col' :
  is_cancelled s = false →
  batch_loop None i batches s col = (s', col') →
  is_cancelled s' = false ∧
  processed_notes s'
  = (processed_notes s + Z.of_nat (length (concat batches)))%Z.
Proof.
  revert i s col. induction batches as [|b rest IH]; intros i s col Hc;
    cbn [Processor.batch_loop].
  - intros [= <- <-]. simpl. split; [done|lia].
  - unfold is_processing_cancelled. rewrite Hc.
    destruct (run_pool col b s) as [rs s1] eqn:Hp.
    rewrite (decide_False (P := None = Some i)) by done.
    destruct (save_loop rs s1 col) as [s3 col3] eqn:Hs. intros Hrest.
    pose proof Hp as Hc1. apply run_pool_flag in Hc1.
    pose proof Hs as Hc3. apply save_loop_flag in Hc3.
    destruct (IH _ _ _ (eq_trans Hc3 (eq_trans Hc1 Hc)) Hrest) as [Hc' ->].
    split; [done|].
    rewrite (save_loop_processed _ _ _ _ _ Hs).
    destruct (run_pool_results _ _ _ _ _ Hp) as [Hids ->].
    cbn [concat]. rewrite length_app, <-Hids, length_map. lia.
Qed.

(** *** What a run writes *)

Lemma only_target_written_refl col : only_target_written col col.
Proof. intros nid. by destruct (col !! nid). Qed.

Lemma only_target_written_trans col1 col2 col3 :
  only_target_written col1 col2 → only_target_written col2 col3 →
  only_target_written col1 col3.
Proof.
  intros H12 H23 nid. specialize (H12 nid). specialize (H23 nid).
  destruct (col1 !! nid), (col2 !! nid), (col3 !! nid); try done.
  destruct H12 as [Ha Hb], H23 as [Hc Hd]. split.
  - intros f Hf. by rewrite Hc, Ha.
  - by rewrite Hd, Hb.
Qed.

Lemma save_result_frame r s col s' col' :
  save_result r s col = (s', col') →
  only_target_written col col' ∧
  ∀ nid, nid ≠ tr_note_id r → col' !! nid = col !! nid.
Proof.
  unfold Processor.save_result.
  destruct (tr_status r);
    try (intros [= <- <-]; split; [apply only_target_written_refl|done]).
  destruct (col !! tr_note_id r) as [note|] eqn:Hn;
    [|intros [= <- <-]; split; [apply only_target_written_refl|done]].
  destruct (bool_decide _ && _) eqn:Hok;
    [|intros [= <- <-]; split; [apply only_target_written_refl|done]].
  intros [= <- <-]. apply andb_true_iff in Hok as [Ht%bool_decide_eq_true _].
  split.
  - intros nid. destruct (decide (nid = tr_note_id r)) as [->|Hne].
    + rewrite Hn, lookup_insert_eq. split.
      * intros f Hf. by rewrite lookup_insert_ne.
      * rewrite lookup_insert_eq. split; [done|by eexists].
    + rewrite lookup_insert_ne by done. by destruct (col !! nid).
  - intros nid Hne. by rewrite lookup_insert_ne.
Qed.

Lemma save_loop_frame rs s col s' col' :
  save_loop rs s col = (s', col') →
  only_target_written col col' ∧
  ∀ nid, nid ∉ map tr_note_id rs → col' !! nid = col !! nid.
Proof.
  revert s col. induction rs as [|r rs IH]; intros s col; cbn [Processor.save_loop].
  - intros [= <- <-]. split; [apply only_target_written_refl|done].
  - destruct (save_result r s col) as [s1 col1] eqn:Hs. intros Hrest.
    destruct (save_result_frame _ _ _ _ _ Hs) as [Hw1 Hf1].
    destruct (IH _ _ Hrest) as [Hw2 Hf2]. split.
    + by eapply only_target_written_trans.
    + intros nid Hnin. cbn [map] in Hnin. rewrite not_elem_of_cons in Hnin.
      destruct Hnin as [Hne Hnin]. by rewrite Hf2, Hf1.
Qed.

Lemma batch_loop_frame cancel_at i batches s col s' col' :
  batch_loop cancel_at i batches s col = (s', col') →
  only_target_written col col' ∧
  ∀ nid, nid ∉ concat batches → col' !! nid = col !! nid.
Proof.
  revert i s col. induction batches as [|b rest IH]; intros i s col;
    cbn [Processor.batch_loop].
  - intros [= <- <-]. split; [apply only_target_written_refl|done].
  - destruct (is_processing_cancelled s);
      [intros [= <- <-]; split; [apply only_target_written_refl|done]|].
    destruct (run_pool col b s) as [rs s1] eqn:Hp.
    destruct (save_loop rs _ col) as [s3 col3] eqn:Hs. intros Hrest.
    destruct (save_loop_frame _ _ _ _ _ Hs) as [Hw1 Hf1].
    destruct (IH _ _ _ Hrest) as [Hw2 Hf2].
    destruct (run_pool_results _ _ _ _ _ Hp) as [Hids _]. split.
    + by eapply only_target_written_trans.
    + intros nid Hnin. cbn [concat] in Hnin. rewrite not_elem_of_app in Hnin.
      destruct Hnin as [Hb Hr]. rewrite Hf2, Hf1 by (done || by rewrite Hids).
      done.
Qed.

(** *** Notes at rest *)

Lemma wanted_stable col col' nid :
  source_field ≠ target_field → only_target_written col col' →
  wanted col' nid = wanted col nid.
Proof.
  intros Hst Hw. specialize (Hw nid). unfold Processor.wanted.
  destruct (col !! nid) as [note|], (col' !! nid) as [note'|]; try done.
  destruct Hw as [Hother Htarget]. rewrite (Hother source_field Hst).
  destruct (forallb _ _); [done|].
  assert (note' !! target_field = None ↔ note !! target_field = None) as Hnone.
  { rewrite !eq_None_not_Some. by rewrite Htarget. }
  destruct (note !! target_field) as [x|] eqn:E1,
           (note' !! target_field) as [y|] eqn:E2.
  - done.
  - discriminate (proj1 Hnone eq_refl).
  - discriminate (proj2 Hnone eq_refl).
  - done.
Qed.

(** A task answers "Updated" exactly for a note that is not at rest, and
    then carries what is wanted for the note. *)
Lemma task_wanted col nid s r s' :
  _process_note_task col nid s = (r, s') →
  (tr_status r = Updated →
   ∃ h, tr_glossary_html r = Some h ∧ wanted col nid = Some h) ∧
  (tr_status r ≠ Updated ↔ at_rest col nid) ∧
  updated_notes s' = updated_notes s.
Proof.
  unfold Processor._process_note_task, Processor.at_rest, Processor.wanted.
  destruct (col !! nid) as [note|];
    [|intros [= <- <-]; simpl; repeat split; try done; by intros _ ? [=]].
  destruct (forallb _ _);
    [intros [= <- <-]; simpl; repeat split; try done; by intros _ ? [=]|].
  destruct (generate_glossary_data _) as [[|c h]|];
    try (intros [= <- <-]; simpl; repeat split; try done; by intros _ ? [=]).
  destruct (note !! target_field) as [cur|] eqn:Hcur;
    [|intros [= <- <-]; simpl; repeat split; try done; by intros _ ? [=]].
  case_bool_decide as Hne; intros [= <- <-]; simpl.
  - split; [intros _; by eexists|]. split; [|done]. split; [done|].
    intros Hrest _. destruct (Hrest _ eq_refl) as (note' & [= <-] & Hn).
    congruence.
  - split; [done|]. split; [|done]. split; [|done].
    intros _ g [= <-]. exists note. split; [done|].
    rewrite Hcur. by destruct (decide (cur = c :: h)) as [->|?].
Qed.

Section FlushSucceeds.
Hypothesis fields_differ : source_field ≠ target_field.
Hypothesis flush_always_ok : ∀ nid, flush_ok nid = true.

Local Abbreviation sound :=
  (sound source_field target_field html_to_text_line generate_glossary_data).

Lemma at_rest_stable col col' nid :
  only_target_written col col' → col' !! nid = col !! nid →
  at_rest col nid → at_rest col' nid.
Proof.
  intros Hw Heq Hrest h Hh. rewrite (wanted_stable col col') in Hh by done.
  rewrite Heq. by apply Hrest.
Qed.

Lemma save_result_rest r s col s' col' :
  save_result r s col = (s', col') → sound col r →
  (∀ nid, at_rest col nid → at_rest col' nid) ∧ at_rest col' (tr_note_id r).
Proof.
  intros Hs Hsound. pose proof (save_result_frame _ _ _ _ _ Hs) as [Hw Hf].
  unfold sound in Hsound. unfold Processor.save_result in Hs.
  destruct (tr_status r) eqn:Hst;
    try (injection Hs as <- <-; by split).
  destruct Hsound as (h & Hh & Hwant).
  assert (∃ note, col !! tr_note_id r = Some note ∧ is_Some (note !! target_field))
    as (note & Hn & Ht).
  { unfold Processor.wanted in Hwant.
    destruct (col !! tr_note_id r) as [note|]; [|done]. exists note.
    split; [done|]. destruct (forallb _ _); [done|].
    destruct (generate_glossary_data _) as [[|? ?]|]; try done.
    by destruct (note !! target_field). }
  rewrite Hn, flush_always_ok, bool_decide_eq_true_2 in Hs by done.
  injection Hs as <- <-.
  assert (at_rest
            (<[tr_note_id r := <[target_field := default [] (tr_glossary_html r)]> note]> col)
            (tr_note_id r)) as Hdone.
  { intros g Hg. rewrite (wanted_stable col) in Hg by done.
    rewrite Hwant in Hg. injection Hg as <-. eexists.
    rewrite lookup_insert_eq. split; [done|].
    by rewrite lookup_insert_eq, Hh. }
  split; [|done]. intros nid Hrest.
  destruct (decide (nid = tr_note_id r)) as [->|Hne]; [done|].
  apply (at_rest_stable col); [done| |done]. by rewrite lookup_insert_ne.
Qed.

Lemma sound_stable col col' r :
  only_target_written col col' →
  (∀ nid, at_rest col nid → at_rest col' nid) →
  sound col r → sound col' r.
Proof.
  intros Hw Hrest. unfold sound. destruct (tr_status r); auto.
  intros (h & Hh & Hwant). exists h. by rewrite (wanted_stable col col').
Qed.

Lemma run_pool_sound col ids s rs s' :
  run_pool col ids s = (rs, s') → Forall (sound col) rs.
Proof.
  revert s rs s'. induction ids as [|nid ids IH]; intros s rs s';
    cbn [Processor.run_pool].
  - intros [= <- <-]. constructor.
  - destruct (_process_note_task col nid s) as [r s1] eqn:Ht.
    destruct (run_pool col ids s1) as [rs' s2] eqn:Hp. intros [= <- <-].
    constructor; [|by eapply IH].
    destruct (task_wanted _ _ _ _ _ Ht) as (Hup & Hrest & _).
    rewrite <-(task_note_id _ _ _ _ _ Ht) in Hup, Hrest.
    unfold sound. destruct (tr_status r) eqn:Hst; try (by apply Hrest).
    by apply Hup.
Qed.

Lemma save_loop_rest rs s col s' col' :
  save_loop rs s col = (s', col') → Forall (sound col) rs →
  (∀ nid, at_rest col nid → at_rest col' nid) ∧
  Forall (λ r, at_rest col' (tr_note_id r)) rs.
Proof.
  revert s col. induction rs as [|r rs IH]; intros s col; cbn [Processor.save_loop].
  - intros [= <- <-] _. by split.
  - destruct (save_result r s col) as [s1 col1] eqn:Hs. intros Hrest Hall.
    apply Forall_cons in Hall as [Hr Hall].
    destruct (save_result_rest _ _ _ _ _ Hs Hr) as [Hkeep1 Hr1].
    destruct (save_result_frame _ _ _ _ _ Hs) as [Hw1 _].
    destruct (IH _ _ Hrest) as [Hkeep2 Hall2].
    { eapply Forall_impl; [exact Hall|]. intros r'. by apply sound_stable. }
    split; [by auto|]. constructor; [by apply Hkeep2|done].
Qed.

Lemma batch_loop_rest i batches s col s' col' :
  is_cancelled s = false →
  batch_loop None i batches s col = (s', col') →
  (∀ nid, at_rest col nid → at_rest col' nid) ∧
  ∀ nid, nid ∈ concat batches → at_rest col' nid.
Proof.
  revert i s col. induction batches as [|b rest IH]; intros i s col Hc;
    cbn [Processor.batch_loop].
  - intros [= <- <-]. split; [done|]. by intros ? ?%elem_of_nil.
  - unfold is_processing_cancelled. rewrite Hc.
    destruct (run_pool col b s) as [rs s1] eqn:Hp.
    rewrite (decide_False (P := None = Some i)) by done.
    destruct (save_loop rs s1 col) as [s3 col3] eqn:Hs. intros Hrest.
    pose proof Hp as Hc1. apply run_pool_flag in Hc1.
    pose proof Hs as Hc3. apply save_loop_flag in Hc3.
    destruct (save_loop_rest _ _ _ _ _ Hs (run_pool_sound _ _ _ _ _ Hp))
      as [Hkeep1 Hall1].
    destruct (IH _ _ _ (eq_trans Hc3 (eq_trans Hc1 Hc)) Hrest) as [Hkeep2 Hall2].
    destruct (run_pool_results _ _ _ _ _ Hp) as [Hids _].
    split; [by auto|]. intros nid. cbn [concat]. rewrite elem_of_app.
    intros [Hin|Hin]; [|by apply Hall2].
    apply Hkeep2. rewrite <-Hids, list_elem_of_fmap in Hin.
    destruct Hin as (r & -> & Hr). rewrite Forall_forall in Hall1. by apply Hall1.
Qed.

End FlushSucceeds.

(** A run over notes that are all at rest writes nothing. *)
Lemma run_pool_quiet col ids s rs s' :
  (∀ nid, nid ∈ ids → at_rest col nid) →
  run_pool col ids s = (rs, s') →
  Forall (λ r, tr_status r ≠ Updated) rs ∧ updated_notes s' = updated_notes s.
Proof.
  revert s rs s'. induction ids as [|nid ids IH]; intros s rs s' Hrest;
    cbn [Processor.run_pool].
  - by intros [= <- <-].
  - destruct (_process_note_task col nid s) as [r s1] eqn:Ht.
    destruct (run_pool col ids s1) as [rs' s2] eqn:Hp. intros [= <- <-].
    destruct (task_wanted _ _ _ _ _ Ht) as (_ & Hiff & Hu).
    destruct (IH _ _ _ (λ n Hn, Hrest n (list_elem_of_further _ _ _ Hn)) Hp)
      as [Hall ->].
    split; [|done]. constructor; [|done]. apply Hiff, Hrest. by left.
Qed.

Lemma save_loop_quiet rs s col s' col' :
  Forall (λ r, tr_status r ≠ Updated) rs →
  save_loop rs s col = (s', col') →
  col' = col ∧ updated_notes s' = updated_notes s.
Proof.
  intros Hall. revert s. induction Hall as [|r rs Hr _ IH]; intros s;
    cbn [Processor.save_loop]; [by intros [= <- <-]|].
  unfold Processor.save_result.
  destruct (tr_status r); try done; intros Hrest;
    by destruct (IH _ Hrest) as [-> ->].
Qed.

Lemma batch_loop_quiet i batches s col s' col' :
  is_cancelled s = false →
  (∀ nid, nid ∈ concat batches → at_rest col nid) →
  batch_loop None i batches s col = (s', col') →
  col' = col ∧ updated_notes s' = updated_notes s.
Proof.
  revert i s. induction batches as [|b rest IH]; intros i s Hc Hrest;
    cbn [Processor.batch_loop]; [by intros [= <- <-]|].
  unfold is_processing_cancelled. rewrite Hc.
  destruct (run_pool col b s) as [rs s1] eqn:Hp.
  rewrite (decide_False (P := None = Some i)) by done.
  destruct (save_loop rs s1 col) as [s3 col3] eqn:Hs. intros Hloop.
  pose proof Hp as Hc1. apply run_pool_flag in Hc1.
  pose proof Hs as Hc3. apply save_loop_flag in Hc3.
  destruct (run_pool_quiet col b s rs s1) as [Hall Hu1]; [|done|].
  { intros nid Hin. apply Hrest. cbn [concat]. apply elem_of_app. by left. }
  destruct (save_loop_quiet _ _ _ _ _ Hall Hs) as [-> Hu3].
  destruct (IH _ _ (eq_trans Hc3 (eq_trans Hc1 Hc))
              (λ n Hn, Hrest n (proj2 (elem_of_app _ _ _) (or_intror Hn))) Hloop)
    as [-> ->].
  split; [done|congruence].
Qed.

End RunFacts.

Lemma split_batches_positive batch_size (note_ids : list Z) :
  (0 < batch_size)%Z →
  ∃ batches, split_batches batch_size note_ids = Some batches ∧
             concat batches = note_ids.
Proof.
  intros Hpos. unfold split_batches.
  destruct (Z.eqb_spec batch_size 0); [lia|].
  destruct (Z.ltb_spec batch_size 0); [lia|].
  eexists. split; [done|]. apply chunks_concat; lia.
Qed.

Lemma split_batches_concat batch_size (note_ids : list Z) batches :
  split_batches batch_size note_ids = Some batches →
  ∀ note_id, note_id ∈ concat batches → note_id ∈ note_ids.
Proof.
  unfold split_batches.
  destruct (Z.eqb_spec batch_size 0); [done|].
  destruct (Z.ltb_spec batch_size 0).
  - intros [= <-]. by intros ? ?%elem_of_nil.
  - intros [= <-]. by rewrite chunks_concat by (lia || done).
Qed.

(** X10: with a positive batch size and a positive max_workers a run that
    nobody cancels handles every selected note: it returns, the processed
    counter, the four category counters together and the reported total all
    equal the number of note ids, the number of updated notes lies between 0
    and that total, and the dialog shown at the end is the one for a
    completed job.  With max_workers <= 0 and at least one note selected the
    run raises instead (the executor cannot be built), and the dialog is
    the one for an error. *)
Theorem uncancelled_run_processes_every_note
    (source_field target_field : list N) (html_to_text_line : list N → list N)
    (generate_glossary_data : list N → option (list N)) (flush_ok : Z → bool)
    (config : config) (note_ids : list Z) (s0 : stats)
    (col : gmap Z (gmap (list N) (list N))) :
  (0 < batch_size (cfg_performance config))%Z →
  ((0 < max_workers (cfg_performance config))%Z →
   ∃ u s' col',
     _run_batch_glossary_process_background source_field target_field
       html_to_text_line generate_glossary_data flush_ok config None note_ids
       s0 col
     = Some (u, Z.of_nat (length note_ids), s', col') ∧
     is_cancelled s' = false ∧
     processed_notes s' = Z.of_nat (length note_ids) ∧
     tally s' = Z.of_nat (length note_ids) ∧
     updated_notes s' = u ∧ (0 ≤ u ≤ Z.of_nat (length note_ids))%Z ∧
     _on_batch_glossary_process_complete
       (Some (u, Z.of_nat (length note_ids))) s'
     = ProcessingCompleted u (Z.of_nat (length note_ids))) ∧
  ((max_workers (cfg_performance config) ≤ 0)%Z → note_ids ≠ [] →
   ∀ cancel_at s,
     _run_batch_glossary_process_background source_field target_field
       html_to_text_line generate_glossary_data flush_ok config cancel_at
       note_ids s0 col = None ∧
     _on_batch_glossary_process_complete None s = ErrorOccurred).
Proof.
  intros Hpos. unfold Processor._run_batch_glossary_process_background.
  destruct (split_batches_positive _ note_ids Hpos) as (batches & -> & Hcat).
  split.
  - intros Hworkers.
    replace (max_workers (cfg_performance config) <=? 0)%Z with false
      by (symmetry; apply Z.leb_gt; lia).
    rewrite andb_false_r.
    destruct (batch_loop _ _ _ _ _ _ _ _ _ _) as [s' col'] eqn:Hrun.
    destruct (batch_loop_processed source_field target_field html_to_text_line
                generate_glossary_data flush_ok 0 batches
                (start_processing (Z.of_nat (length note_ids)) s0) col s' col'
                eq_refl Hrun) as [Hflag Hproc].
    pose proof (batch_loop_steps _ _ _ _ _ _ _ _ _ _ _ _ Hrun) as Hsteps.
    pose proof (reachable_balanced _ _ _ _ _ _ _ Hsteps
                  (start_job_balanced batches _ s0 col)) as Hbal.
    pose proof (reachable_counters _ _ _ _ _ _ _ Hsteps)
      as (_ & Hu & Hn & He & Hr).
    pose proof (job_total_notes _ _ _ _ _ batches note_ids s0 col _ Hsteps)
      as [Htot _].
    unfold balanced in Hbal. simpl in Hbal, Hu, Hn, He, Hr, Htot, Hproc.
    rewrite Hcat in Hproc. unfold tally in *.
    exists (updated_notes s'), s', col'. rewrite Htot.
    unfold Processor._on_batch_glossary_process_complete, is_processing_cancelled.
    rewrite Hflag. simpl. repeat split; try done; lia.
  - intros Hworkers Hsome cancel_at s.
    rewrite bool_decide_eq_true_2 by (intros ->; by destruct Hsome).
    replace (max_workers (cfg_performance config) <=? 0)%Z with true
      by (symmetry; by apply Z.leb_le).
    done.
Qed.

Lemma uncancelled_run_processes_every_note_witness :
  ∃ u s' col',
    _run_batch_glossary_process_background (lit "Expression") (lit "Glossary")
      id (λ text, Some text) (λ _, true) get_default_config None [1; 2; 3]%Z
      zero_stats one_blank_note
    = Some (u, Z.of_nat (length [1; 2; 3]%Z), s', col') ∧
    is_cancelled s' = false ∧
    processed_notes s' = Z.of_nat (length [1; 2; 3]%Z) ∧
    tally s' = Z.of_nat (length [1; 2; 3]%Z) ∧
    updated_notes s' = u ∧ (0 ≤ u ≤ Z.of_nat (length [1; 2; 3]%Z))%Z ∧
    _on_batch_glossary_process_complete
      (Some (u, Z.of_nat (length [1; 2; 3]%Z))) s'
    = ProcessingCompleted u (Z.of_nat (length [1; 2; 3]%Z)).
Proof.
  apply (uncancelled_run_processes_every_note (lit "Expression") (lit "Glossary")
           id (λ text, Some text) (λ _, true) get_default_config [1; 2; 3]%Z
           zero_stats one_blank_note);
    simpl; lia.
Defined.

(** X11: whatever the batch size and whenever the job is cancelled, a run
    that returns has written nothing but target fields: the collection
    holds the same notes with the same fields, every field other than the
    target field holds what it held, and a note that was not selected is
    untouched. *)
Theorem run_writes_target_fields_only
    (source_field target_field : list N) (html_to_text_line : list N → list N)
    (generate_glossary_data : list N → option (list N)) (flush_ok : Z → bool)
    (config : config) (cancel_at : option nat) (note_ids : list Z)
    (s0 s' : stats) (col col' : gmap Z (gmap (list N) (list N))) (u t : Z) :
  _run_batch_glossary_process_background source_field target_field
    html_to_text_line generate_glossary_data flush_ok config cancel_at note_ids
    s0 col = Some (u, t, s', col') →
  only_target_written target_field col col' ∧
  ∀ note_id, note_id ∉ note_ids → col' !! note_id = col !! note_id.
Proof.
  unfold Processor._run_batch_glossary_process_background.
  destruct (split_batches _ note_ids) as [batches|] eqn:Hsplit; [|done].
  destruct (bool_decide _ && _); [done|].
  destruct (batch_loop _ _ _ _ _ _ _ _ _ _) as [s1 col1] eqn:Hrun.
  intros [= _ _ _ <-].
  destruct (batch_loop_frame _ _ _ _ _ _ _ _ _ _ _ _ Hrun) as [Hw Hf].
  split; [done|]. intros nid Hnid. apply Hf.
  intros Hin. by apply Hnid, (split_batches_concat _ _ _ Hsplit).
Qed.

Lemma run_writes_target_fields_only_witness :
  let col : gmap Z (gmap (list N) (list N)) :=
    {[ 1%Z := {[ lit "Expression" := lit "ab"; lit "Glossary" := [] ]};
       2%Z := {[ lit "Expression" := lit "cd"; lit "Glossary" := [] ]} ]} in
  let col' : gmap Z (gmap (list N) (list N)) :=
    {[ 1%Z := {[ lit "Expression" := lit "ab"; lit "Glossary" := lit "ab" ]};
       2%Z := {[ lit "Expression" := lit "cd"; lit "Glossary" := [] ]} ]} in
  only_target_written (lit "Glossary") col col' ∧
  ∀ note_id, note_id ∉ [1%Z] → col' !! note_id = col !! note_id.
Proof.
  intros col col'.
  apply (run_writes_target_fields_only (lit "Expression") (lit "Glossary")
           id (λ text, Some text) (λ _, true) get_default_config None [1%Z]
           zero_stats (Stats.Build 1 1 1 0 0 0 0 0 false) col col' 1 1).
  vm_compute. reflexivity.
Defined.

(** X12: the job converges.  When the source field and the target field
    differ, every write reaches the collection and the glossary generator
    answers a text the same way again, running the job a second time over
    the same notes updates no note and leaves the collection as the first
    run left it. *)
Theorem second_run_updates_nothing
    (source_field target_field : list N) (html_to_text_line : list N → list N)
    (generate_glossary_data : list N → option (list N)) (flush_ok : Z → bool)
    (config : config) (note_ids : list Z) (s0 s1 : stats)
    (col col1 : gmap Z (gmap (list N) (list N))) (u1 t1 : Z) :
  source_field ≠ target_field →
  (∀ note_id, flush_ok note_id = true) →
  _run_batch_glossary_process_background source_field target_field
    html_to_text_line generate_glossary_data flush_ok config None note_ids
    s0 col = Some (u1, t1, s1, col1) →
  ∃ s2,
    _run_batch_glossary_process_background source_field target_field
      html_to_text_line generate_glossary_data flush_ok config None note_ids
      s1 col1 = Some (0%Z, Z.of_nat (length note_ids), s2, col1).
Proof.
  intros Hne Hflush. unfold Processor._run_batch_glossary_process_background.
  destruct (split_batches _ note_ids) as [batches|]; [|done].
  destruct (bool_decide _ && _); [done|].
  destruct (batch_loop _ _ _ _ _ _ _ _ _ _) as [s1' col1'] eqn:Hrun1.
  intros [= _ _ _ <-].
  destruct (batch_loop_rest source_field target_field html_to_text_line
              generate_glossary_data flush_ok Hne Hflush 0 batches
              (start_processing (Z.of_nat (length note_ids)) s0) col s1' col1'
              eq_refl Hrun1) as [_ Hrest].
  destruct (batch_loop _ _ _ _ _ _ _ _ _ col1') as [s2 col2] eqn:Hrun2.
  destruct (batch_loop_quiet source_field target_field html_to_text_line
              generate_glossary_data flush_ok 0 batches
              (start_processing (Z.of_nat (length note_ids)) s1) col1' s2 col2
              eq_refl Hrest Hrun2) as [-> Hu].
  pose proof (batch_loop_steps _ _ _ _ _ _ _ _ _ _ _ _ Hrun2) as Hsteps.
  pose proof (job_total_notes _ _ _ _ _ batches note_ids s1 col1' _ Hsteps)
    as [Htot _].
  simpl in Hu, Htot. exists s2. by rewrite Hu, Htot.
Qed.

Lemma second_run_updates_nothing_witness :
  let col1 : gmap Z (gmap (list N) (list N)) :=
    {[ 1%Z := {[ lit "Expression" := lit "ab"; lit "Glossary" := lit "ab" ]};
       2%Z := {[ lit "Expression" := lit "cd"; lit "Glossary" := [] ]} ]} in
  ∃ s2,
    _run_batch_glossary_process_background (lit "Expression") (lit "Glossary")
      id (λ text, Some text) (λ _, true) get_default_config None [1%Z]
      (Stats.Build 1 1 1 0 0 0 0 0 false) col1
    = Some (0%Z, Z.of_nat (length [1%Z]), s2, col1).
Proof.
  intros col1.
  apply (second_run_updates_nothing (lit "Expression") (lit "Glossary")
           id (λ text, Some text) (λ _, true) get_default_config [1%Z]
           zero_stats (Stats.Build 1 1 1 0 0 0 0 0 false)
           {[ 1%Z := {[ lit "Expression" := lit "ab"; lit "Glossary" := [] ]};
              2%Z := {[ lit "Expression" := lit "cd"; lit "Glossary" := [] ]} ]}
           col1 1 1).
  - discriminate.
  - reflexivity.
  - vm_compute. reflexivity.
Defined.

(** X13: with a positive max_workers, a cancellation that arrives while
    batch number [k] is in the pool does not stop that batch: the run
    handles exactly the notes of the batches up to and including it, counts
    each of them, leaves the notes of the later batches untouched, still
    reports the full number of selected notes as the total, and ends with
    the dialog for a cancelled job (also when batch [k] was the last one
    and every note was handled). *)
Theorem cancelled_run_finishes_current_batch
    (source_field target_field : list N) (html_to_text_line : list N → list N)
    (generate_glossary_data : list N → option (list N)) (flush_ok : Z → bool)
    (config : config) (note_ids : list Z) (s0 : stats)
    (col : gmap Z (gmap (list N) (list N))) (batches : list (list Z)) (k : nat) :
  (0 < max_workers (cfg_performance config))%Z →
  split_batches (batch_size (cfg_performance config)) note_ids = Some batches →
  (k < length batches)%nat →
  ∃ u s' col',
    _run_batch_glossary_process_background source_field target_field
      html_to_text_line generate_glossary_data flush_ok config (Some k) note_ids
      s0 col = Some (u, Z.of_nat (length note_ids), s', col') ∧
    is_cancelled s' = true ∧
    processed_notes s' = Z.of_nat (length (concat (take (S k) batches))) ∧
    tally s' = processed_notes s' ∧
    (∀ note_id, note_id ∉ concat (take (S k) batches) →
                col' !! note_id = col !! note_id) ∧
    _on_batch_glossary_process_complete (Some (u, Z.of_nat (length note_ids))) s'
    = ProcessingCancelled u (Z.of_nat (length note_ids)).
Proof.
  intros Hworkers Hsplit Hk.
  unfold Processor._run_batch_glossary_process_background.
  rewrite Hsplit.
  replace (max_workers (cfg_performance config) <=? 0)%Z with false
    by (symmetry; apply Z.leb_gt; lia).
  rewrite andb_false_r.
  rewrite (batch_loop_cancel_at source_field target_field html_to_text_line
             generate_glossary_data flush_ok 0 k batches) by done.
  destruct (batch_loop _ _ _ _ _ _ _ _ _ _) as [s' col'] eqn:Hrun.
  destruct (batch_loop_processed source_field target_field html_to_text_line
              generate_glossary_data flush_ok 0 (take (S k) batches)
              (start_processing (Z.of_nat (length note_ids)) s0) col s' col'
              eq_refl Hrun) as [_ Hproc].
  destruct (batch_loop_frame _ _ _ _ _ _ _ _ _ _ _ _ Hrun) as [_ Hframe].
  pose proof (batch_loop_steps _ _ _ _ _ _ _ _ _ _ _ _ Hrun) as Hsteps.
  pose proof (reachable_balanced _ _ _ _ _ _ _ Hsteps
                (start_job_balanced (take (S k) batches) _ s0 col)) as Hbal.
  pose proof (job_total_notes _ _ _ _ _ (take (S k) batches) note_ids s0 col _
                Hsteps) as [Htot _].
  unfold balanced in Hbal. simpl in Hbal, Htot, Hproc.
  exists (updated_notes s'), (cancel_processing s'), col'.
  unfold tally in *. simpl. rewrite Htot.
  repeat split; try done; lia.
Qed.

Lemma cancelled_run_finishes_current_batch_witness :
  ∃ u s' col',
    _run_batch_glossary_process_background (lit "Expression") (lit "Glossary")
      id (λ text, Some text) (λ _, true)
      (Config.Build (cfg_general get_default_config) (Performance 4 2 2 500 50)
                    (cfg_cache get_default_config))
      (Some 0%nat) [1; 2; 3]%Z zero_stats one_blank_note
    = Some (u, Z.of_nat (length [1; 2; 3]%Z), s', col') ∧
    is_cancelled s' = true ∧
    processed_notes s'
    = Z.of_nat (length (concat (take 1 [[1; 2]; [3]]%Z))) ∧
    tally s' = processed_notes s' ∧
    (∀ note_id, note_id ∉ concat (take 1 [[1; 2]; [3]]%Z) →
                col' !! note_id = one_blank_note !! note_id) ∧
    _on_batch_glossary_process_complete
      (Some (u, Z.of_nat (length [1; 2; 3]%Z))) s'
    = ProcessingCancelled u (Z.of_nat (length [1; 2; 3]%Z)).
Proof.
  apply (cancelled_run_finishes_current_batch (lit "Expression") (lit "Glossary")
           id (λ text, Some text) (λ _, true)
           (Config.Build (cfg_general get_default_config) (Performance 4 2 2 500 50)
                         (cfg_cache get_default_config))
           [1; 2; 3]%Z zero_stats one_blank_note [[1; 2]; [3]]%Z 0).
  - simpl. lia.
  - reflexivity.
  - simpl. lia.
Defined.

(** *** Starting the job *)

(** X14: add_field_to_model fails exactly when the note type does not
    exist, and then changes nothing.  Otherwise the note type has the field
    afterwards, its earlier fields are kept in place in front of it, a field
    that was there is not added again, no other note type is touched, and
    calling it once more changes nothing. *)
Theorem add_field_to_model_adds_once
    (models : gmap (list N) (list (list N))) (model_name field_name : list N) :
  let '(added, models') := add_field_to_model models model_name field_name in
  (added = false ↔ models !! model_name = None) ∧
  (added = false → models' = models) ∧
  (∀ fields, models !! model_name = Some fields →
     (field_name ∈ fields → models' = models) ∧
     ∃ fields', models' !! model_name = Some fields' ∧
       field_name ∈ fields' ∧ fields `prefix_of` fields' ∧
       (length fields' ≤ S (length fields))%nat) ∧
  (∀ other, other ≠ model_name → models' !! other = models !! other) ∧
  add_field_to_model models' model_name field_name = (added, models').
Proof.
  unfold add_field_to_model.
  destruct (models !! model_name) as [fields|] eqn:Hm.
  - case_bool_decide as Hin.
    + rewrite lookup_insert_eq, bool_decide_eq_false_2
        by (rewrite elem_of_app, list_elem_of_singleton; tauto).
      split_and!; [done|done| |by intros other ?; rewrite lookup_insert_ne|done].
      intros fields' [= <-]. split; [done|].
      eexists. split; [done|].
      split; [rewrite elem_of_app, list_elem_of_singleton; tauto|].
      split; [by eexists|]. rewrite length_app. simpl. lia.
    + rewrite Hm, bool_decide_eq_false_2 by (by intros ?).
      split_and!; [done|done| |done|done].
      intros fields' [= <-]. split; [done|].
      eexists. split; [done|]. split; [done|]. split; [done|lia].
  - rewrite Hm. by split_and!.
Qed.

(** X15: run_batch_glossary_process never shows "Failed to add field to
    note type": the note type it has just found is found again by
    add_field_to_model, so that branch cannot be taken. *)
Theorem failed_to_add_field_unreachable
    (config : config) (askUser : question → bool) (find_notes : list N → list Z)
    (models : gmap (list N) (list (list N))) (s : stats)
    (deck_name note_type_name source_field target_field : list N) :
  (run_batch_glossary_process config askUser find_notes models s deck_name
     note_type_name source_field target_field).1.1 ≠ FailedToAddField.
Proof.
  unfold run_batch_glossary_process, add_field_to_model.
  destruct (models !! note_type_name) as [fields|]; [|done].
  repeat (case_bool_decide || case_match || simplify_eq/=); try done.
Qed.

(** X16: the background job is started only over a non-empty list of
    notes, the ones the search returned, with the cancellation flag reset
    and the counters untouched, for a note type that has the target field
    at that moment, and only with the user's consent: the field was there
    and overwriting is configured or was agreed to, or the field was missing
    and the user agreed to create it. *)
Theorem job_started_with_field_and_consent
    (config : config) (askUser : question → bool) (find_notes : list N → list Z)
    (models models' : gmap (list N) (list (list N))) (s s' : stats)
    (deck_name note_type_name source_field target_field sf tf : list N)
    (note_ids : list Z) :
  run_batch_glossary_process config askUser find_notes models s deck_name
    note_type_name source_field target_field
  = (Started sf tf note_ids, models', s') →
  sf = source_field ∧ tf = target_field ∧
  note_ids ≠ [] ∧
  note_ids = find_notes (build_query config deck_name note_type_name target_field) ∧
  is_cancelled s' = false ∧ counters_le s s' ∧ counters_le s' s ∧
  (∃ fields', models' !! note_type_name = Some fields' ∧ target_field ∈ fields') ∧
  ∃ fields, models !! note_type_name = Some fields ∧
    ((target_field ∈ fields ∧ models' = models ∧
      (overwrite_existing_glossary_notes (cfg_general config) = true ∨
       askUser (AskOverwrite target_field) = true)) ∨
     ((target_field ∉ fields) ∧
      models' = <[note_type_name := fields ++ [target_field]]> models ∧
      askUser (AskCreate target_field note_type_name) = true)).
Proof.
  unfold run_batch_glossary_process, add_field_to_model.
  destruct (models !! note_type_name) as [fields|] eqn:Hm; [|done].
  destruct (find_notes _) as [|nid rest] eqn:Hfind.
  { repeat (case_bool_decide || case_match || simplify_eq/=); done. }
  case_bool_decide as Hin.
  - destruct (overwrite_existing_glossary_notes _) eqn:Hover; simpl.
    + intros [= <- <- <- <- <-]. rewrite Hm. unfold counters_le. simpl.
      repeat split; try done; try lia; eauto 10.
    + destruct (askUser (AskOverwrite _)) eqn:Hask; simpl; [|done].
      intros [= <- <- <- <- <-]. rewrite Hm. unfold counters_le. simpl.
      repeat split; try done; try lia; eauto 10.
  - destruct (askUser (AskCreate _ _)) eqn:Hask; simpl; [|done].
    rewrite bool_decide_eq_true_2 by done. simpl.
    intros [= <- <- <- <- <-]. rewrite lookup_insert_eq.
    unfold counters_le. simpl.
    repeat split; try done; try lia.
    + eexists. split; [done|]. rewrite elem_of_app, list_elem_of_singleton. tauto.
    + eexists. split; [done|]. right. done.
Qed.

Lemma job_started_with_field_and_consent_witness :
  let models : gmap (list N) (list (list N)) :=
    {[ lit "Basic" := [lit "Front"; lit "Back"] ]} in
  let models' : gmap (list N) (list (list N)) :=
    {[ lit "Basic" := [lit "Front"; lit "Back"; lit "Glossary"] ]} in
  let s' := zero_stats in
  lit "Front" = lit "Front" ∧ lit "Glossary" = lit "Glossary" ∧
  [7%Z] ≠ [] ∧
  [7%Z] = (λ _ : list N, [7%Z])
            (build_query get_default_config (lit "Deck") (lit "Basic")
               (lit "Glossary")) ∧
  is_cancelled s' = false ∧
  counters_le (cancel_processing zero_stats) s' ∧
  counters_le s' (cancel_processing zero_stats) ∧
  (∃ fields', models' !! lit "Basic" = Some fields' ∧ lit "Glossary" ∈ fields') ∧
  ∃ fields, models !! lit "Basic" = Some fields ∧
    ((lit "Glossary" ∈ fields ∧ models' = models ∧
      (overwrite_existing_glossary_notes (cfg_general get_default_config) = true ∨
       (λ _ : question, true) (AskOverwrite (lit "Glossary")) = true)) ∨
     ((lit "Glossary" ∉ fields) ∧
      models' = <[lit "Basic" := fields ++ [lit "Glossary"]]> models ∧
      (λ _ : question, true) (AskCreate (lit "Glossary") (lit "Basic")) = true)).
Proof.
  intros models models' s'.
  apply (job_started_with_field_and_consent get_default_config (λ _, true)
           (λ _, [7%Z]) models models' (cancel_processing zero_stats) s'
           (lit "Deck") (lit "Basic") (lit "Front") (lit "Glossary")
           (lit "Front") (lit "Glossary") [7%Z]).
  vm_compute. reflexivity.
Defined.

(** X17: when no job is started the statistics are left as they were, and
    in every case the note types change in at most one way: the target
    field is appended to the selected note type, which happens only when
    the field was missing and the user agreed to create it (also when the
    search then finds no note and nothing is processed). *)
Theorem launch_changes_only_the_agreed_field
    (config : config) (askUser : question → bool) (find_notes : list N → list Z)
    (models : gmap (list N) (list (list N))) (s : stats)
    (deck_name note_type_name source_field target_field : list N) :
  let '(outcome, models', s') :=
    run_batch_glossary_process config askUser find_notes models s deck_name
      note_type_name source_field target_field in
  ((∀ sf tf note_ids, outcome ≠ Started sf tf note_ids) → s' = s) ∧
  (models' = models ∨
   ∃ fields, models !! note_type_name = Some fields ∧
     (target_field ∉ fields) ∧
     askUser (AskCreate target_field note_type_name) = true ∧
     models' = <[note_type_name := fields ++ [target_field]]> models ∧
     outcome ≠ OperationCancelled ∧ outcome ≠ NoteTypeNotFound) ∧
  (outcome = OperationCancelled ∨ outcome = NoteTypeNotFound → models' = models).
Proof.
  unfold run_batch_glossary_process, add_field_to_model.
  destruct (models !! note_type_name) as [fields|] eqn:Hm;
    [|split; [done|split; [by left|done] ] ].
  destruct (find_notes _) as [|nid rest] eqn:Hfind.
  - case_bool_decide as Hin.
    + destruct (overwrite_existing_glossary_notes _); simpl;
        [split; [done|split; [by left|done] ]|].
      destruct (askUser (AskOverwrite _)); simpl;
        split; try done; split; try done; by left.
    + destruct (askUser (AskCreate _ _)) eqn:Hask; simpl;
        [|split; [done|split; [by left|done] ] ].
      rewrite bool_decide_eq_true_2 by done. simpl.
      split; [done|]. split; [|by intros [?|?] ].
      right. exists fields. done.
  - case_bool_decide as Hin.
    + destruct (overwrite_existing_glossary_notes _); simpl.
      { split; [intros H; by destruct (H _ _ _ eq_refl)|].
        split; [by left|done]. }
      destruct (askUser (AskOverwrite _)); simpl.
      { split; [intros H; by destruct (H _ _ _ eq_refl)|].
        split; [by left|done]. }
      split; [done|split; [by left|done] ].
    + destruct (askUser (AskCreate _ _)) eqn:Hask; simpl;
        [|split; [done|split; [by left|done] ] ].
      rewrite bool_decide_eq_true_2 by done. simpl.
      split; [intros H; by destruct (H _ _ _ eq_refl)|].
      split; [|by intros [?|?] ].
      right. exists fields. done.
Qed.

End ProcessorMore.

(** ** More on glossary_generator.py *)
Module GlossaryMore.
Import Config TextUtils TextUtilsFacts Glossary GlossaryFacts.

(** *** Sorting a list whose front part lies below its back part *)

Lemma insert_sorted_app {A} (le : A → A → bool) x (l1 l2 : list A) :
  Forall (λ b, le x b = true) l2 →
  Py.insert_sorted le x (l1 ++ l2) = Py.insert_sorted le x l1 ++ l2.
Proof.
  intros Hl2. induction l1 as [|a l1 IH]; simpl.
  - destruct Hl2 as [|b l2 Hb _]; [done|]. simpl. by rewrite Hb.
  - destruct (le x a); [done|]. by rewrite IH.
Qed.

Lemma sorted_app {A} (le : A → A → bool) (l1 l2 : list A) :
  (∀ a b, a ∈ l1 → b ∈ l2 → le a b = true) →
  Py.sorted le (l1 ++ l2) = Py.sorted le l1 ++ Py.sorted le l2.
Proof.
  intros Hle. induction l1 as [|a l1 IH]; [done|]. simpl.
  rewrite IH by (intros ? ? ? ?; apply Hle; [by right|done]).
  apply insert_sorted_app, Forall_forall. intros b Hb.
  apply Hle; [by left|]. by rewrite <-(sorted_perm le l2).
Qed.

Lemma insert_sorted_map {A B} (f : A → B) (le : A → A → bool)
    (le' : B → B → bool) x l :
  (∀ a b, le' (f a) (f b) = le a b) →
  Py.insert_sorted le' (f x) (map f l) = map f (Py.insert_sorted le x l).
Proof.
  intros Hf. induction l as [|a l IH]; [done|]. simpl. rewrite Hf.
  destruct (le x a); [done|]. simpl. by rewrite IH.
Qed.

Lemma sorted_map {A B} (f : A → B) (le : A → A → bool) (le' : B → B → bool) l :
  (∀ a b, le' (f a) (f b) = le a b) →
  Py.sorted le' (map f l) = map f (Py.sorted le l).
Proof.
  intros Hf. induction l as [|a l IH]; [done|]. simpl.
  by rewrite IH, (insert_sorted_map f le le').
Qed.

Lemma flat_map_if {A B} (b : A → bool) (f : A → B) (l : list A) :
  flat_map (λ c, if b c then [f c] else []) l = map f (filter (λ c, b c) l).
Proof.
  induction l as [|a l IH]; [done|]. simpl. destruct (b a) eqn:Hb.
  - rewrite filter_cons_True by (by apply Is_true_true). simpl. by rewrite IH.
  - rewrite filter_cons_False by (by apply Is_true_false). done.
Qed.

Lemma foldl_render rds acc :
  foldl (λ html rd, html ++ render_reading rd) acc rds
  = acc ++ concat (map render_reading rds).
Proof.
  revert acc. induction rds as [|rd rds IH]; intros acc; simpl.
  - by rewrite app_nil_r.
  - by rewrite IH, app_assoc.
Qed.

(** X18: each kana list holds one entry for every distinct kana of the text
    that is rendered, in the order of first appearance in the text, and no
    entry twice.  A character of both kana ranges (the long-vowel mark) goes
    to the hiragana list when hiragana is enabled, otherwise to the
    katakana list. *)
Theorem kana_entries_in_first_appearance_order
    (config : config) (romaji_of : list N → option (list N))
    (kanji_of : list N → option kanji_info) (pool : completion) (text : list N) :
  every_future_once pool →
  let e := generate_entries config romaji_of kanji_of pool text in
  let entry c := Templates.kana_entry [c] (default [] (romaji_of [c])) in
  hiragana_entries e
  = map entry
      (filter (λ c, is_hiragana c && include_hiragana (cfg_general config)
                    && truthy_str (romaji_of [c]))
         (extract_unique_japanese_chars text)) ∧
  katakana_entries e
  = map entry
      (filter (λ c, negb (is_hiragana c && include_hiragana (cfg_general config))
                    && is_katakana c && include_katakana (cfg_general config)
                    && truthy_str (romaji_of [c]))
         (extract_unique_japanese_chars text)) ∧
  NoDup (hiragana_entries e) ∧ NoDup (katakana_entries e).
Proof.
  intros Hpool e entry. subst e.
  rewrite (generate_entries_in_order config romaji_of kanji_of pool text Hpool).
  rewrite render_in_order_fold. cbn [entries_app hiragana_entries katakana_entries app].
  assert (∀ (b : N → bool) l, NoDup l → NoDup (map entry (filter (λ c, b c) l)))
    as Hnd.
  { intros b l Hl. apply NoDup_fmap_2_strong; [|by apply NoDup_filter].
    intros c c' _ _ Heq. by apply kana_entry_inj in Heq as [-> _]. }
  assert (flat_map (λ c, hiragana_entries
                     (render_in_order config romaji_of kanji_of no_entries c))
            (extract_unique_japanese_chars text)
          = map entry
              (filter (λ c, is_hiragana c && include_hiragana (cfg_general config)
                            && truthy_str (romaji_of [c]))
                 (extract_unique_japanese_chars text))) as ->.
  { rewrite <-flat_map_if. apply flat_map_ext. intros c.
    apply hiragana_contribution. }
  assert (flat_map (λ c, katakana_entries
                     (render_in_order config romaji_of kanji_of no_entries c))
            (extract_unique_japanese_chars text)
          = map entry
              (filter (λ c, negb (is_hiragana c
                                  && include_hiragana (cfg_general config))
                            && is_katakana c
                            && include_katakana (cfg_general config)
                            && truthy_str (romaji_of [c]))
                 (extract_unique_japanese_chars text))) as ->.
  { rewrite <-flat_map_if. apply flat_map_ext. intros c.
    apply katakana_contribution. }
  split_and!; try done; apply Hnd, extract_NoDup.
Qed.

Lemma kana_entries_in_first_appearance_order_witness :
  hiragana_entries
    (generate_entries get_default_config sample_romaji sample_kanji lifo sample_text)
  = map (λ c, Templates.kana_entry [c] (default [] (sample_romaji [c])))
      (filter (λ c, is_hiragana c
                    && include_hiragana (cfg_general get_default_config)
                    && truthy_str (sample_romaji [c]))
         (extract_unique_japanese_chars sample_text)).
Proof.
  apply (kana_entries_in_first_appearance_order get_default_config sample_romaji
           sample_kanji lifo sample_text lifo_every_future_once).
Defined.

(** The readings of one kanji as the generator collects them, sorted. *)
Lemma sorted_readings (romaji_of : list N → option (list N)) (kuns ons : list (list N)) :
  let mk ty r := ReadingData r ty (romaji_of r) in
  Py.sorted reading_key_le (map (mk (lit "Kun")) kuns ++ map (mk (lit "On")) ons)
  = map (mk (lit "Kun")) (Py.sorted Py.str_le kuns)
    ++ map (mk (lit "On")) (Py.sorted Py.str_le ons).
Proof.
  intros mk. rewrite sorted_app.
  - f_equal; apply sorted_map; intros a b; unfold reading_key_le, mk;
      cbn [rd_type rd_reading]; by case_decide.
  - intros a b (ra & -> & _)%list_elem_of_fmap (rb & -> & _)%list_elem_of_fmap.
    unfold reading_key_le, mk. cbn [rd_type rd_reading].
    by case_decide.
Qed.

Lemma process_kanji_explicit (config : config)
    (romaji_of : list N → option (list N))
    (kanji_of : list N → option kanji_info) (c : N) info meanings :
  kanji_of [c] = Some info → ki_meanings info = Some meanings →
  let mk ty r := ReadingData r ty (romaji_of r) in
  let listed ty rs :=
    concat (map (λ r, render_reading (mk ty r))
              (Py.sorted Py.str_le (default [] rs))) in
  kanji_entries
    (_process_kanji_character config c (Some info)
       (readings_of config romaji_of kanji_of c) no_entries)
  = [Templates.kanji_entry [c]
       (if include_romaji (cfg_general config)
        then listed (lit "Kun") (ki_kun_readings info)
             ++ listed (lit "On") (ki_on_readings info)
        else [])
       (if include_kanji_meanings (cfg_general config)
           && bool_decide (meanings ≠ [])
        then Templates.kanji_meanings (Py.join (lit ", ") meanings) else [])].
Proof.
  intros Hinfo Hm mk listed.
  assert (dict_nonempty info = true) as Hne.
  { unfold dict_nonempty. rewrite Hm. by rewrite bool_decide_eq_true_2. }
  unfold _process_kanji_character. rewrite Hne, Hm. cbn [negb kanji_entries no_entries app].
  do 2 f_equal.
  unfold readings_of, submitted. rewrite Hinfo, Hne. cbn [andb].
  destruct (include_romaji (cfg_general config)); [|done].
  unfold readings_to_submit. rewrite map_app, !map_map.
  set (l := _ ++ _).
  assert (match l with
          | [] => []
          | _ :: _ => foldl (λ html rd, html ++ render_reading rd) []
                        (Py.sorted reading_key_le l)
          end = concat (map render_reading (Py.sorted reading_key_le l))) as ->.
  { destruct l; [done|]. by rewrite foldl_render. }
  subst l. unfold reading_of_future. cbn [fst snd].
  rewrite (sorted_readings romaji_of). cbn zeta.
  by rewrite map_app, concat_app, !map_map.
Qed.

(** X19: the kanji list holds one table for every distinct kanji of the
    text whose dictionary entry has a 'meanings' key, in the order of first
    appearance, and no table twice.  A table lists the kun readings before
    the on readings, each group sorted by code point; with include_romaji
    off it lists no reading at all. *)
Theorem kanji_entries_in_first_appearance_order
    (config : config) (romaji_of : list N → option (list N))
    (kanji_of : list N → option kanji_info) (pool : completion) (text : list N) :
  every_future_once pool →
  let e := generate_entries config romaji_of kanji_of pool text in
  let mk ty r := ReadingData r ty (romaji_of r) in
  let listed ty rs :=
    concat (map (λ r, render_reading (mk ty r))
              (Py.sorted Py.str_le (default [] rs))) in
  let entry c :=
    match kanji_of [c] with
    | Some info =>
        Templates.kanji_entry [c]
          (if include_romaji (cfg_general config)
           then listed (lit "Kun") (ki_kun_readings info)
                ++ listed (lit "On") (ki_on_readings info)
           else [])
          (if include_kanji_meanings (cfg_general config)
              && bool_decide (default [] (ki_meanings info) ≠ [])
           then Templates.kanji_meanings
                  (Py.join (lit ", ") (default [] (ki_meanings info)))
           else [])
    | None => []
    end in
  let has_meanings c :=
    match kanji_of [c] with
    | Some info => bool_decide (is_Some (ki_meanings info))
    | None => false
    end in
  kanji_entries e
  = map entry
      (filter (λ c, is_kanji c && include_kanji (cfg_general config)
                    && has_meanings c)
         (extract_unique_japanese_chars text)) ∧
  NoDup (kanji_entries e).
Proof.
  intros Hpool e mk listed entry has_meanings. subst e.
  rewrite (generate_entries_in_order config romaji_of kanji_of pool text Hpool).
  rewrite render_in_order_fold. cbn [entries_app kanji_entries app].
  assert (flat_map (λ c, kanji_entries
                     (render_in_order config romaji_of kanji_of no_entries c))
            (extract_unique_japanese_chars text)
          = map entry
              (filter (λ c, is_kanji c && include_kanji (cfg_general config)
                            && has_meanings c)
                 (extract_unique_japanese_chars text))) as ->.
  { rewrite <-flat_map_if. apply flat_map_ext. intros c.
    rewrite kanji_contribution. subst entry has_meanings. cbn beta.
    destruct (is_kanji c && include_kanji (cfg_general config)); [|done].
    cbn [andb]. destruct (kanji_of [c]) as [info|] eqn:Hinfo; [|done].
    cbn [truthy_info]. destruct (ki_meanings info) as [meanings|] eqn:Hm.
    - assert (dict_nonempty info = true) as ->.
      { unfold dict_nonempty. rewrite Hm. by rewrite bool_decide_eq_true_2. }
      rewrite bool_decide_eq_true_2 by done.
      by rewrite (process_kanji_explicit config romaji_of kanji_of c info meanings).
    - rewrite bool_decide_eq_false_2 by (by intros [? ?]).
      unfold _process_kanji_character. rewrite Hm.
      by destruct (dict_nonempty info). }
  split; [done|].
  apply NoDup_fmap_2_strong; [|apply NoDup_filter, extract_NoDup].
  intros c c' [Hc _]%list_elem_of_filter [Hc' _]%list_elem_of_filter.
  subst entry has_meanings. cbn beta in *.
  destruct (kanji_of [c]) as [info|];
    [|by rewrite andb_false_r in Hc].
  destruct (kanji_of [c']) as [info'|];
    [|by rewrite andb_false_r in Hc'].
  apply kanji_entry_inj.
Qed.

Lemma kanji_entries_in_first_appearance_order_witness :
  kanji_entries
    (generate_entries get_default_config sample_romaji sample_kanji lifo sample_text)
  = map (λ c,
           match sample_kanji [c] with
           | Some info =>
               Templates.kanji_entry [c]
                 (if include_romaji (cfg_general get_default_config)
                  then concat (map (λ r, render_reading
                                           (ReadingData r (lit "Kun") (sample_romaji r)))
                                 (Py.sorted Py.str_le
                                    (default [] (ki_kun_readings info))))
                       ++ concat (map (λ r, render_reading
                                              (ReadingData r (lit "On") (sample_romaji r)))
                                    (Py.sorted Py.str_le
                                       (default [] (ki_on_readings info))))
                  else [])
                 (if include_kanji_meanings (cfg_general get_default_config)
                     && bool_decide (default [] (ki_meanings info) ≠ [])
                  then Templates.kanji_meanings
                         (Py.join (lit ", ") (default [] (ki_meanings info)))
                  else [])
           | None => []
           end)
      (filter (λ c, is_kanji c && include_kanji (cfg_general get_default_config)
                    && match sample_kanji [c] with
                       | Some info => bool_decide (is_Some (ki_meanings info))
                       | None => false
                       end)
         (extract_unique_japanese_chars sample_text)).
Proof.
  apply (kanji_entries_in_first_appearance_order get_default_config sample_romaji
           sample_kanji lifo sample_text lifo_every_future_once).
Defined.

(** *** The empty glossary *)

Lemma build_final_empty config e :
  _build_final_glossary_html config e = [] ↔
  (hiragana_entries e = [] ∨ include_hiragana (cfg_general config) = false) ∧
  (katakana_entries e = [] ∨ include_katakana (cfg_general config) = false) ∧
  (kanji_entries e = [] ∨ include_kanji (cfg_general config) = false).
Proof.
  unfold _build_final_glossary_html.
  destruct (hiragana_entries e) as [|h hs], (include_hiragana _);
    destruct (katakana_entries e) as [|k ks], (include_katakana _);
    destruct (kanji_entries e) as [|j js], (include_kanji _);
    (rewrite ?bool_decide_eq_true_2 by done);
    (rewrite ?bool_decide_eq_false_2 by (by intros ?));
    cbn [andb app Py.join];
    (split; [try done; intros _; repeat split; auto
            |try done; intros ([?|?] & [?|?] & [?|?]); done]).
Qed.

Lemma entries_only_when_enabled config romaji_of kanji_of pool text :
  every_future_once pool →
  let e := generate_entries config romaji_of kanji_of pool text in
  (include_hiragana (cfg_general config) = false → hiragana_entries e = []) ∧
  (include_katakana (cfg_general config) = false → katakana_entries e = []) ∧
  (include_kanji (cfg_general config) = false → kanji_entries e = []).
Proof.
  intros Hpool e. subst e.
  rewrite (generate_entries_in_order config romaji_of kanji_of pool text Hpool).
  rewrite render_in_order_fold. cbn [entries_app hiragana_entries katakana_entries
                                      kanji_entries no_entries app].
  split_and!; intros Hoff;
    (induction (extract_unique_japanese_chars text) as [|c l IH]; [done|]);
    cbn [flat_map]; rewrite IH, app_nil_r.
  - by rewrite hiragana_contribution, Hoff, andb_false_r.
  - by rewrite katakana_contribution, Hoff, andb_false_r.
  - by rewrite kanji_contribution, Hoff, andb_false_r.
Qed.

Lemma glossary_without_japanese config romaji_of kanji_of pool text :
  every_future_once pool → has_japanese_content text = false →
  generate_glossary_data config romaji_of kanji_of pool text = [].
Proof.
  intros Hpool Hnone. unfold generate_glossary_data.
  rewrite (generate_entries_in_order config romaji_of kanji_of pool text Hpool).
  assert (extract_unique_japanese_chars text = []) as ->; [|done].
  destruct (extract_unique_japanese_chars text) as [|c l] eqn:Hl; [done|].
  assert (c ∈ extract_unique_japanese_chars text) as Hc by (rewrite Hl; by left).
  apply elem_of_extract in Hc as (Hin & Hj & _).
  assert (has_japanese_content text = true); [|congruence].
  unfold has_japanese_content. apply existsb_exists. exists c.
  split; [by apply list_elem_of_In|done].
Qed.

(** X20: the glossary is the empty string exactly when no character of the
    text got an entry; this is the case for a text without Japanese
    characters, and when the three character classes are all switched
    off. *)
Theorem glossary_empty_iff_no_entry
    (config : config) (romaji_of : list N → option (list N))
    (kanji_of : list N → option kanji_info) (pool : completion) (text : list N) :
  every_future_once pool →
  (generate_glossary_data config romaji_of kanji_of pool text = [] ↔
   generate_entries config romaji_of kanji_of pool text = Entries [] [] []) ∧
  (has_japanese_content text = false →
   generate_glossary_data config romaji_of kanji_of pool text = []) ∧
  (include_hiragana (cfg_general config) = false →
   include_katakana (cfg_general config) = false →
   include_kanji (cfg_general config) = false →
   generate_glossary_data config romaji_of kanji_of pool text = []).
Proof.
  intros Hpool.
  destruct (entries_only_when_enabled config romaji_of kanji_of pool text Hpool)
    as (Hh & Hk & Hj).
  split_and!.
  - unfold generate_glossary_data. rewrite build_final_empty.
    destruct (generate_entries config romaji_of kanji_of pool text) as [hs ks js].
    cbn [hiragana_entries katakana_entries kanji_entries] in *. split.
    + intros ([?|?] & [?|?] & [?|?]); f_equal; auto.
    + intros [= -> -> ->]. auto.
  - by apply glossary_without_japanese.
  - intros Hoff1 Hoff2 Hoff3. unfold generate_glossary_data.
    rewrite build_final_empty. auto.
Qed.

Lemma glossary_empty_iff_no_entry_witness :
  (generate_glossary_data get_default_config sample_romaji sample_kanji lifo
     (lit "hello") = [] ↔
   generate_entries get_default_config sample_romaji sample_kanji lifo
     (lit "hello") = Entries [] [] []) ∧
  (has_japanese_content (lit "hello") = false →
   generate_glossary_data get_default_config sample_romaji sample_kanji lifo
     (lit "hello") = []) ∧
  (include_hiragana (cfg_general get_default_config) = false →
   include_katakana (cfg_general get_default_config) = false →
   include_kanji (cfg_general get_default_config) = false →
   generate_glossary_data get_default_config sample_romaji sample_kanji lifo
     (lit "hello") = []).
Proof.
  apply (glossary_empty_iff_no_entry get_default_config sample_romaji sample_kanji
           lifo (lit "hello") lifo_every_future_once).
Defined.

(** *** The glossary, written out *)

Lemma join_empty_sep (parts : list (list N)) : Py.join [] parts = concat parts.
Proof.
  induction parts as [|p [|q rest] IH]; [done|simpl; by rewrite app_nil_r|].
  change (Py.join [] (p :: q :: rest)) with (p ++ [] ++ Py.join [] (q :: rest)).
  by rewrite IH.
Qed.

Lemma extract_strictly_sorted text :
  StronglySorted (λ a b, (Py.find a text < Py.find b text)%Z)
    (extract_unique_japanese_chars text).
Proof.
  assert (∀ l : list N,
            (∀ i j a b, l !! i = Some a → l !! j = Some b → (i < j)%nat →
                        (Py.find a text < Py.find b text)%Z) →
            StronglySorted (λ a b, (Py.find a text < Py.find b text)%Z) l) as H.
  { induction l as [|x l IH]; intros Hl; constructor.
    - apply IH. intros i j a b Hi Hj Hij. apply (Hl (S i) (S j)); [done|done|lia].
    - apply Forall_forall. intros y [j Hj]%list_elem_of_lookup_1.
      apply (Hl 0%nat (S j)); [done|done|lia]. }
  apply H, extract_increasing.
Qed.

Lemma StronglySorted_filter_keeps {A} (R : relation A) (P : A → Prop)
    `{∀ x, Decision (P x)} (l : list A) :
  StronglySorted R l → StronglySorted R (filter P l).
Proof.
  induction 1 as [|x l Hl IH Hx]; [constructor|].
  destruct (decide (P x)).
  - rewrite filter_cons_True by done. constructor; [done|].
    apply Forall_forall. intros y [_ Hy]%list_elem_of_filter.
    rewrite Forall_forall in Hx. by apply Hx.
  - by rewrite filter_cons_False.
Qed.

(** The three entry lists, each as the entries of the characters it lists,
    in extraction order. *)
Lemma entries_explicit (config : config) (romaji_of : list N → option (list N))
    (kanji_of : list N → option kanji_info) (pool : completion) (text : list N) :
  every_future_once pool →
  let e := generate_entries config romaji_of kanji_of pool text in
  let cfg_gen := cfg_general config in
  let chars := extract_unique_japanese_chars text in
  let mk ty r := ReadingData r ty (romaji_of r) in
  let listed ty rs :=
    concat (map (λ r, render_reading (mk ty r))
              (Py.sorted Py.str_le (default [] rs))) in
  let kana_entry c := Templates.kana_entry [c] (default [] (romaji_of [c])) in
  let kanji_entry c :=
    match kanji_of [c] with
    | Some info =>
        Templates.kanji_entry [c]
          (if include_romaji cfg_gen
           then listed (lit "Kun") (ki_kun_readings info)
                ++ listed (lit "On") (ki_on_readings info)
           else [])
          (if include_kanji_meanings cfg_gen
              && bool_decide (default [] (ki_meanings info) ≠ [])
           then Templates.kanji_meanings
                  (Py.join (lit ", ") (default [] (ki_meanings info)))
           else [])
    | None => []
    end in
  let has_meanings c :=
    match kanji_of [c] with
    | Some info => bool_decide (is_Some (ki_meanings info))
    | None => false
    end in
  hiragana_entries e
  = map kana_entry
      (filter (λ c, is_hiragana c && include_hiragana cfg_gen
                    && truthy_str (romaji_of [c])) chars) ∧
  katakana_entries e
  = map kana_entry
      (filter (λ c, negb (is_hiragana c && include_hiragana cfg_gen)
                    && is_katakana c && include_katakana cfg_gen
                    && truthy_str (romaji_of [c])) chars) ∧
  kanji_entries e
  = map kanji_entry
      (filter (λ c, is_kanji c && include_kanji cfg_gen && has_meanings c) chars).
Proof.
  intros Hpool e cfg_gen chars mk listed kana_entry kanji_entry has_meanings.
  subst e.
  rewrite (generate_entries_in_order config romaji_of kanji_of pool text Hpool).
  rewrite render_in_order_fold.
  cbn [entries_app hiragana_entries katakana_entries kanji_entries app].
  split_and!; rewrite <-flat_map_if; apply flat_map_ext; intros c.
  - apply hiragana_contribution.
  - apply katakana_contribution.
  - rewrite kanji_contribution. subst kanji_entry has_meanings cfg_gen. cbn beta.
    destruct (is_kanji c && include_kanji (cfg_general config)); [|done].
    cbn [andb]. destruct (kanji_of [c]) as [info|] eqn:Hinfo; [|done].
    cbn [truthy_info]. destruct (ki_meanings info) as [meanings|] eqn:Hm.
    + assert (dict_nonempty info = true) as ->.
      { unfold dict_nonempty. rewrite Hm. by rewrite bool_decide_eq_true_2. }
      rewrite bool_decide_eq_true_2 by done.
      by rewrite (process_kanji_explicit config romaji_of kanji_of c info meanings).
    + rewrite bool_decide_eq_false_2 by (by intros [? ?]).
      unfold _process_kanji_character. rewrite Hm.
      by destruct (dict_nonempty info).
Qed.

Lemma build_final_explicit config e :
  (hiragana_entries e ≠ [] → include_hiragana (cfg_general config) = true) →
  (katakana_entries e ≠ [] → include_katakana (cfg_general config) = true) →
  (kanji_entries e ≠ [] → include_kanji (cfg_general config) = true) →
  _build_final_glossary_html config e
  = match hiragana_entries e with
    | [] => []
    | _ :: _ => Templates.hiragana_section (concat (hiragana_entries e))
    end
    ++ match katakana_entries e with
       | [] => []
       | _ :: _ => Templates.katakana_section (concat (katakana_entries e))
       end
    ++ match kanji_entries e with
       | [] => []
       | _ :: _ => Templates.kanji_section (concat (kanji_entries e))
       end.
Proof.
  intros Hh Hk Hj. unfold _build_final_glossary_html.
  rewrite !join_empty_sep.
  destruct (hiragana_entries e) as [|h hs];
    [|rewrite Hh by done];
    (destruct (katakana_entries e) as [|k ks];
     [|rewrite Hk by done]);
    (destruct (kanji_entries e) as [|j js];
     [|rewrite Hj by done]);
    repeat case_bool_decide; try done;
    try (exfalso; match goal with H : ¬ (_ :: _ ≠ []) |- _ => by apply H end);
    cbn [andb app concat]; by rewrite ?app_nil_r.
Qed.

(** C4: for a fixed configuration, fixed lookup results and a fixed text the
    glossary is one string, whatever order the futures of the three waves
    complete in (hence whatever the pool size and however often the call is
    repeated).  The string is written out here: the hiragana section, the
    katakana section and the kanji section, in this order, each left out
    when it lists nothing; within a section the entries of the listed
    characters follow one another in the order in which the characters
    first appear in the text (the list of each section is strictly
    increasing in the index [text.find] gives). *)
Theorem generate_glossary_deterministic
    (config : config) (romaji_of : list N → option (list N))
    (kanji_of : list N → option kanji_info) (pool1 pool2 : completion)
    (text : list N) :
  every_future_once pool1 → every_future_once pool2 →
  let cfg_gen := cfg_general config in
  let chars := extract_unique_japanese_chars text in
  let hiragana :=
    filter (λ c, is_hiragana c && include_hiragana cfg_gen
                 && truthy_str (romaji_of [c])) chars in
  let katakana :=
    filter (λ c, negb (is_hiragana c && include_hiragana cfg_gen)
                 && is_katakana c && include_katakana cfg_gen
                 && truthy_str (romaji_of [c])) chars in
  let kanji :=
    filter (λ c, is_kanji c && include_kanji cfg_gen
                 && match kanji_of [c] with
                    | Some info => bool_decide (is_Some (ki_meanings info))
                    | None => false
                    end) chars in
  let kana_entry c := Templates.kana_entry [c] (default [] (romaji_of [c])) in
  let listed ty rs :=
    concat (map (λ r, render_reading (ReadingData r ty (romaji_of r)))
              (Py.sorted Py.str_le (default [] rs))) in
  let kanji_entry c :=
    match kanji_of [c] with
    | Some info =>
        Templates.kanji_entry [c]
          (if include_romaji cfg_gen
           then listed (lit "Kun") (ki_kun_readings info)
                ++ listed (lit "On") (ki_on_readings info)
           else [])
          (if include_kanji_meanings cfg_gen
              && bool_decide (default [] (ki_meanings info) ≠ [])
           then Templates.kanji_meanings
                  (Py.join (lit ", ") (default [] (ki_meanings info)))
           else [])
    | None => []
    end in
  let section (template : list N → list N) (entries : list (list N)) :=
    match entries with
    | [] => []
    | _ :: _ => template (concat entries)
    end in
  generate_glossary_data config romaji_of kanji_of pool1 text
  = generate_glossary_data config romaji_of kanji_of pool2 text ∧
  generate_glossary_data config romaji_of kanji_of pool1 text
  = section Templates.hiragana_section (map kana_entry hiragana)
    ++ section Templates.katakana_section (map kana_entry katakana)
    ++ section Templates.kanji_section (map kanji_entry kanji) ∧
  StronglySorted (λ a b, (0 ≤ Py.find a text < Py.find b text)%Z) hiragana ∧
  StronglySorted (λ a b, (0 ≤ Py.find a text < Py.find b text)%Z) katakana ∧
  StronglySorted (λ a b, (0 ≤ Py.find a text < Py.find b text)%Z) kanji.
Proof.
  intros H1 H2 cfg_gen chars hiragana katakana kanji kana_entry listed
    kanji_entry section.
  assert (∀ (P : N → Prop) `{∀ c, Decision (P c)},
            StronglySorted (λ a b, (0 ≤ Py.find a text < Py.find b text)%Z)
              (filter P chars)) as Hsorted.
  { intros P HP. apply StronglySorted_filter_keeps.
    pose proof (extract_strictly_sorted text) as Hs. fold chars in Hs.
    assert (Forall (λ c, (0 ≤ Py.find c text)%Z) chars) as Hin.
    { apply Forall_forall. intros c [Hc _]%elem_of_extract.
      by apply find_elem_of. }
    induction Hs as [|x l Hl IH Hx]; constructor.
    - apply IH. by apply Forall_cons in Hin as [_ ?].
    - apply Forall_cons in Hin as [Hx0 _].
      eapply Forall_impl; [exact Hx|]. intros y Hy. simpl in *. lia. }
  split_and!; try apply Hsorted.
  - by rewrite !generate_glossary_in_order.
  - unfold generate_glossary_data.
    destruct (entries_explicit config romaji_of kanji_of pool1 text H1)
      as (Hh & Hk & Hj).
    destruct (entries_only_when_enabled config romaji_of kanji_of pool1 text H1)
      as (Hh0 & Hk0 & Hj0).
    rewrite build_final_explicit.
    + rewrite Hh, Hk, Hj. done.
    + intros Hne. destruct (include_hiragana (cfg_general config)); [done|].
      by destruct Hne; apply Hh0.
    + intros Hne. destruct (include_katakana (cfg_general config)); [done|].
      by destruct Hne; apply Hk0.
    + intros Hne. destruct (include_kanji (cfg_general config)); [done|].
      by destruct Hne; apply Hj0.
Qed.

Lemma generate_glossary_deterministic_witness :
  let romaji_of (t : list N) := Some (lit "x") in
  let kanji_of (t : list N) := @None kanji_info in
  let text := [0x3044; 0x3042; 0x3044]%N in
  generate_glossary_data get_default_config romaji_of kanji_of fifo text
  = generate_glossary_data get_default_config romaji_of kanji_of lifo text ∧
  generate_glossary_data get_default_config romaji_of kanji_of fifo text
  = Templates.hiragana_section
      (Templates.kana_entry [0x3044%N] (lit "x")
       ++ Templates.kana_entry [0x3042%N] (lit "x")).
Proof.
  intros romaji_of kanji_of text.
  destruct (generate_glossary_deterministic get_default_config romaji_of
              kanji_of fifo lifo text fifo_every_future_once
              lifo_every_future_once) as (Hsame & Hout & _).
  split; [exact Hsame|]. rewrite Hout. vm_compute. reflexivity.
Defined.

End GlossaryMore.

(** ** The generator inside the batch job *)
Module JobRuns.
Import Config Stats TextUtils Glossary GlossaryFacts GlossaryMore.
Import Processor ProcessorFacts ProcessorMore.

Lemma no_japanese_at_rest
    (source_field target_field : list N) (html_to_text_line : list N → list N)
    (config : config) (romaji_of : list N → option (list N))
    (kanji_of : list N → option kanji_info) (pool : completion)
    (col : gmap Z (gmap (list N) (list N))) (note_id : Z) :
  every_future_once pool →
  (∀ note html, col !! note_id = Some note → note !! source_field = Some html →
                has_japanese_content (html_to_text_line html) = false) →
  at_rest source_field target_field html_to_text_line
    (λ text, Some (generate_glossary_data config romaji_of kanji_of pool text))
    col note_id.
Proof.
  intros Hpool Hnone h. unfold wanted.
  destruct (col !! note_id) as [note|]; [|done].
  destruct (note !! source_field) as [html|] eqn:Hsrc; [|done].
  destruct (forallb _ _); [done|].
  by rewrite (glossary_without_japanese config romaji_of kanji_of pool _ Hpool
                (Hnone note html eq_refl Hsrc)).
Qed.

(** X21: notes without Japanese text are left alone.  When the source
    field of no selected note holds a Japanese character, a run of the job
    with the glossary generator updates no note and leaves the collection
    as it was. *)
Theorem run_without_japanese_changes_nothing
    (source_field target_field : list N) (html_to_text_line : list N → list N)
    (flush_ok : Z → bool) (config : config)
    (romaji_of : list N → option (list N))
    (kanji_of : list N → option kanji_info) (pool : completion)
    (note_ids : list Z) (s0 s' : stats)
    (col col' : gmap Z (gmap (list N) (list N))) (u t : Z) :
  every_future_once pool →
  (∀ note_id note html,
     note_id ∈ note_ids → col !! note_id = Some note →
     note !! source_field = Some html →
     has_japanese_content (html_to_text_line html) = false) →
  _run_batch_glossary_process_background source_field target_field
    html_to_text_line
    (λ text, Some (generate_glossary_data config romaji_of kanji_of pool text))
    flush_ok config None note_ids s0 col = Some (u, t, s', col') →
  u = 0%Z ∧ updated_notes s' = 0%Z ∧ col' = col.
Proof.
  intros Hpool Hnone. unfold _run_batch_glossary_process_background.
  destruct (split_batches _ note_ids) as [batches|] eqn:Hsplit; [|done].
  destruct (bool_decide _ && _); [done|].
  destruct (batch_loop _ _ _ _ _ _ _ _ _ _) as [s1 col1] eqn:Hrun.
  intros [= <- _ <- <-].
  assert (∀ nid, nid ∈ concat batches → nid ∈ note_ids) as Hsub.
  { unfold split_batches in Hsplit.
    destruct (Z.eqb_spec (batch_size (cfg_performance config)) 0); [done|].
    destruct (Z.ltb_spec (batch_size (cfg_performance config)) 0).
    - injection Hsplit as <-. by intros ? ?%elem_of_nil.
    - injection Hsplit as <-. by rewrite chunks_concat by (lia || done). }
  destruct (batch_loop_quiet _ _ _ _ _ 0 batches
              (start_processing (Z.of_nat (length note_ids)) s0) col s1 col1 eq_refl
              (λ nid Hin, no_japanese_at_rest source_field target_field
                            html_to_text_line config romaji_of kanji_of pool col
                            nid Hpool (λ note html, Hnone nid note html (Hsub nid Hin)))
              Hrun) as [-> Hu].
  by rewrite Hu.
Qed.

Lemma run_without_japanese_changes_nothing_witness :
  let col : gmap Z (gmap (list N) (list N)) :=
    {[ 1%Z := {[ lit "Expression" := lit "hello"; lit "Glossary" := lit "old" ]} ]} in
  0%Z = 0%Z ∧ updated_notes (Stats.Build 1 1 0 1 0 0 0 0 false) = 0%Z ∧ col = col.
Proof.
  intros col.
  apply (run_without_japanese_changes_nothing (lit "Expression") (lit "Glossary")
           id (λ _, true) get_default_config sample_romaji sample_kanji lifo
           [1%Z] zero_stats (Stats.Build 1 1 0 1 0 0 0 0 false) col col 0 1
           lifo_every_future_once).
  - intros nid note html ->%list_elem_of_singleton.
    subst col. rewrite lookup_singleton_eq. intros [= <-].
    rewrite lookup_insert_eq. by intros [= <-].
  - vm_compute. reflexivity.
Defined.

End JobRuns.

(** ** cache.py: which dictionary is the cache *)
Module CacheFacts.
Import Config Stats Cache.

Lemma rebind_heap d w address :
  (address < length (heap w))%nat →
  heap (rebind d w) !! address = heap w !! address.
Proof. intros Hlt. unfold rebind. simpl. by rewrite lookup_app_l. Qed.

Lemma rebind_new d w :
  heap (rebind d w) !! cache_global_api_cache (rebind d w) = Some d.
Proof.
  unfold rebind. simpl. rewrite lookup_app_r by lia.
  by rewrite Nat.sub_diag.
Qed.

Lemma gateway_lookup_result config net r w address d :
  api_client_global_api_cache w = Some address → heap w !! address = Some d →
  ∃ v g,
    ApiClient.lookup config net r (ApiClient.Gateway d (world_stats w)) = (v, g) ∧
    gateway_lookup config net r w
    = Some (v, World (<[address := ApiClient.global_api_cache g]> (heap w))
                     (cache_global_api_cache w) (Some address)
                     (api_cache_json w) (ApiClient.global_stats g)).
Proof.
  intros Ha Hd. unfold gateway_lookup. rewrite Ha, Hd.
  destruct (ApiClient.lookup _ _ _ _) as [v g]. by exists v, g.
Qed.

(** *** After the gateway's name and the cache module's name part *)

Lemma parted_rebind address d w :
  parted address d w → parted address d (rebind ∅ w).
Proof.
  intros (Ha & (d' & Hd' & Hsub) & Hne & Hc & Hf).
  pose proof (lookup_lt_Some _ _ _ Hd') as Hlt.
  split_and!; try done.
  - exists d'. by rewrite rebind_heap.
  - simpl. lia.
  - apply rebind_new.
Qed.

Lemma parted_step config address d w e :
  parted address d w → parted address d (run_event config w e).
Proof.
  intros Hp. pose proof Hp as (Ha & (d' & Hd' & Hsub) & Hne & Hc & Hf).
  destruct e as [| | | |net r]; cbn [run_event].
  - unfold load_api_cache. destruct (negb _); [by apply parted_rebind|].
    destruct Hf as [-> | ->]; by apply parted_rebind.
  - unfold save_api_cache. destruct (negb _); [done|].
    split_and!; try done; simpl; [by exists d'|rewrite Hc; by right].
  - destruct (parted_rebind _ _ _ Hp) as (Ha' & Hd'' & Hne' & Hc' & _).
    unfold clear_api_cache. split_and!; try done. by left.
  - unfold import_api_client. by rewrite Ha.
  - destruct (gateway_lookup_result config net r w address d' Ha Hd')
      as (v & g & Hl & ->).
    pose proof (lookup_lt_Some _ _ _ Hd') as Hlt.
    split_and!; try done; simpl.
    + exists (ApiClient.global_api_cache g).
      split; [by rewrite list_lookup_insert_eq|].
      apply map_subseteq_spec. intros key x Hx.
      replace g with (ApiClient.lookup config net r
                        (ApiClient.Gateway d' (world_stats w))).2
        by (by rewrite Hl).
      apply ApiClientFacts.lookup_keeps_entries. simpl.
      by eapply lookup_weaken.
    + by rewrite list_lookup_insert_ne.
Qed.

Lemma parted_steps config address d events w :
  parted address d w → parted address d (run_events config events w).
Proof.
  unfold run_events. revert w.
  induction events as [|e events IH]; intros w Hp; [done|].
  simpl. by apply IH, parted_step.
Qed.

(** X22: once api_client.py is loaded, clear_api_cache does not reach the
    dictionary the gateway uses.  Whatever is looked up, saved, loaded or
    cleared afterwards, the gateway keeps every entry it had (and goes on
    answering from them), the cache statistics count 0 entries, and the
    cache file stays absent or without any entry. *)
Theorem clear_does_not_reach_loaded_gateway
    (config : config) (w : world) (d : gmap (list N) ApiClient.value)
    (events : list event) :
  gateway_cache w = Some d →
  let w' := run_events config (ClearApiCache :: events) w in
  (∃ d', gateway_cache w' = Some d' ∧ d ⊆ d') ∧
  cs_entries (get_cache_stats config w') = 0%nat ∧
  (api_cache_json w' = Missing ∨ api_cache_json w' = Holds ∅).
Proof.
  intros Hd w'. unfold gateway_cache in Hd.
  destruct (api_client_global_api_cache w) as [address|] eqn:Ha; [|done].
  pose proof (lookup_lt_Some _ _ _ Hd) as Hlt.
  assert (parted address d (clear_api_cache w)) as Hp.
  { unfold clear_api_cache. split_and!; simpl; try done.
    - exists d. by rewrite lookup_app_l.
    - lia.
    - rewrite lookup_app_r by lia. by rewrite Nat.sub_diag.
    - by left. }
  apply (parted_steps config _ _ events) in Hp.
  destruct Hp as (Ha' & Hd' & _ & Hc & Hf).
  subst w'. unfold run_events in *. cbn [foldl run_event].
  unfold get_cache_stats, gateway_cache. rewrite Ha', Hc.
  cbn [cs_entries default]. split_and!; [done|reflexivity|done].
Qed.

Lemma clear_does_not_reach_loaded_gateway_witness :
  let key := ApiClient.cache_key_of (ApiClient.KanjiLookup [0x5143%N]) in
  let d : gmap (list N) ApiClient.value := {[ key := ApiClient.VStr (lit "gen") ]} in
  let w := World [∅; d] 1 (Some 1%nat) (Holds d) Processor.zero_stats in
  let w' :=
    run_events get_default_config
      [ClearApiCache;
       Lookup ApiClient.answers_a
         (ApiClient.Romaji2Kana (lit "/v1/to/romaji") [0x3042%N]);
       SaveApiCache] w in
  (∃ d', gateway_cache w' = Some d' ∧ d ⊆ d') ∧
  cs_entries (get_cache_stats get_default_config w') = 0%nat ∧
  (api_cache_json w' = Missing ∨ api_cache_json w' = Holds ∅).
Proof.
  intros key d w w'.
  apply (clear_does_not_reach_loaded_gateway get_default_config w d
           [Lookup ApiClient.answers_a
              (ApiClient.Romaji2Kana (lit "/v1/to/romaji") [0x3042%N]);
            SaveApiCache]).
  reflexivity.
Defined.

(** *** While the two names refer to one dictionary *)

Lemma shared_lookup config net r d s file :
  run_event config (World [∅; d] 1 (Some 1%nat) file s) (Lookup net r)
  = let g := (ApiClient.lookup config net r (ApiClient.Gateway d s)).2 in
    World [∅; ApiClient.global_api_cache g] 1 (Some 1%nat) file
          (ApiClient.global_stats g).
Proof.
  unfold run_event, gateway_lookup. simpl.
  by destruct (ApiClient.lookup config net r (ApiClient.Gateway d s)) as [v g].
Qed.

Lemma shared_events config events d s file :
  Forall (λ e, keeps_names e = true) events →
  ∃ file',
    run_events config events (World [∅; d] 1 (Some 1%nat) file s)
    = let g := ApiClient.run_lookups config (attempts_of events)
                 (ApiClient.Gateway d s) in
      World [∅; ApiClient.global_api_cache g] 1 (Some 1%nat) file'
            (ApiClient.global_stats g).
Proof.
  unfold run_events. intros Hq. revert d s file.
  induction Hq as [|e events He _ IH]; intros d s file; [by exists file|].
  destruct e as [| | | |net r]; try done; cbn [foldl attempts_of flat_map app].
  - cbn [run_event]. unfold save_api_cache.
    destruct (negb _); [apply IH|]. simpl. apply IH.
  - cbn [run_event]. unfold import_api_client. simpl. apply IH.
  - rewrite shared_lookup. cbn zeta. cbn [ApiClient.run_lookups].
    destruct (ApiClient.lookup config net r (ApiClient.Gateway d s)).2 as [d1 s1].
    apply IH.
Qed.

(** X23: the cache survives a restart.  In a session that loads the cache
    file, then loads api_client.py, performs lookups and saves in any order
    and saves at the end, the file ends up holding the gateway's
    dictionary: the entries of the file it started from and every answer
    stored since.  The next session, after loading, has the gateway read
    exactly that dictionary. *)
Theorem cache_survives_restart
    (config : config) (file : cache_file) (events : list event) :
  cache_enabled (cfg_cache config) = true →
  Forall (λ e, keeps_names e = true) events →
  let loaded := match file with Holds entries => entries | _ => ∅ end in
  let session :=
    LoadApiCache :: ImportApiClient :: events ++ [SaveApiCache] in
  let w := run_events config session (initial_world file) in
  let w' :=
    run_events config [LoadApiCache; ImportApiClient]
      (initial_world (api_cache_json w)) in
  let d :=
    ApiClient.global_api_cache
      (ApiClient.run_lookups config (attempts_of events)
         (ApiClient.Gateway loaded (world_stats (initial_world file)))) in
  gateway_cache w = Some d ∧ api_cache_json w = Holds d ∧
  gateway_cache w' = Some d ∧ loaded ⊆ d.
Proof.
  intros Hen Hq loaded session w w' d.
  assert (run_events config [LoadApiCache; ImportApiClient] (initial_world file)
          = World [∅; loaded] 1 (Some 1%nat) file
                  (world_stats (initial_world file))) as Hstart.
  { unfold run_events, load_api_cache. cbn [foldl run_event].
    unfold load_api_cache. rewrite Hen. cbn [negb].
    subst loaded. by destruct file. }
  assert (w = World [∅; d] 1 (Some 1%nat) (Holds d)
                (ApiClient.global_stats
                   (ApiClient.run_lookups config (attempts_of events)
                      (ApiClient.Gateway loaded
                         (world_stats (initial_world file)))))) as Hw.
  { subst w session. unfold run_events.
    change (LoadApiCache :: ImportApiClient :: ?l)
      with ([LoadApiCache; ImportApiClient] ++ l).
    rewrite !foldl_app.
    fold (run_events config [LoadApiCache; ImportApiClient] (initial_world file)).
    rewrite Hstart.
    destruct (shared_events config events loaded
                (world_stats (initial_world file)) file Hq) as [file' Hrun].
    unfold run_events in Hrun. rewrite Hrun. cbn [foldl run_event].
    unfold save_api_cache. by rewrite Hen. }
  assert (loaded ⊆ d) as Hsub.
  { apply map_subseteq_spec. intros key v Hv. subst d.
    by apply ApiClientFacts.run_lookups_keeps_entries. }
  subst w'. rewrite Hw. cbn [api_cache_json].
  unfold run_events, gateway_cache. cbn [foldl run_event].
  unfold load_api_cache. rewrite Hen. done.
Qed.

Lemma cache_survives_restart_witness :
  let events :=
    [Lookup ApiClient.answers_a
       (ApiClient.Romaji2Kana (lit "/v1/to/romaji") [0x3042%N]);
     SaveApiCache;
     Lookup ApiClient.answers_a
       (ApiClient.Romaji2Kana (lit "/v1/to/romaji") [0x3044%N])] in
  let w :=
    run_events get_default_config
      (LoadApiCache :: ImportApiClient :: events ++ [SaveApiCache])
      (initial_world Missing) in
  let d :=
    ApiClient.global_api_cache
      (ApiClient.run_lookups get_default_config (attempts_of events)
         (ApiClient.Gateway ∅ (world_stats (initial_world Missing)))) in
  gateway_cache w = Some d ∧ api_cache_json w = Holds d ∧
  gateway_cache
    (run_events get_default_config [LoadApiCache; ImportApiClient]
       (initial_world (api_cache_json w))) = Some d ∧
  ∅ ⊆ d.
Proof.
  intros events w d.
  apply (cache_survives_restart get_default_config Missing events).
  - reflexivity.
  - subst events. repeat constructor.
Defined.

End CacheFacts.

(** ** logger.py *)
Module LoggerFacts.
Import Logger.

Lemma write_newlines_app linesep (s1 s2 : list N) :
  Py.write_newlines linesep (s1 ++ s2)
  = Py.write_newlines linesep s1 ++ Py.write_newlines linesep s2.
Proof. unfold Py.write_newlines. apply flat_map_app. Qed.

(** Text without a carriage return is read back as it was written, on
    either platform. *)
Lemma written_read_back linesep (s : list N) :
  linesep = [10%N] ∨ linesep = [13%N; 10%N] →
  13%N ∉ s →
  Py.universal_newlines false (Py.write_newlines linesep s) = s.
Proof.
  intros Hsep. induction s as [|c s IH]; intros Hcr; [done|].
  apply not_elem_of_cons in Hcr as [Hc Hs]. specialize (IH Hs).
  unfold Py.write_newlines in *. cbn [flat_map].
  destruct (N.eqb_spec c 10) as [->|Hnl].
  - destruct Hsep as [-> | ->]; cbn [app Py.universal_newlines];
      rewrite ?N.eqb_refl; simpl; by rewrite IH.
  - cbn [app Py.universal_newlines].
    destruct (N.eqb_spec c 13) as [->|_]; [done|].
    destruct (N.eqb_spec c 10) as [->|_]; [done|]. by rewrite IH.
Qed.

Section PlatformFacts.
Context (linesep : list N).

Local Abbreviation write_log := (write_log linesep).
Local Abbreviation clear_log := (clear_log linesep).
Local Abbreviation run_calls := (run_calls linesep).

(** In append mode a series of write_log calls appends the entries that
    can be encoded, in order, and nothing else. *)
Lemma appended_writes (writes : list (list N * list N)) st :
  log_file_mode st = ModeA →
  let st' := run_calls (map (λ w, WriteLog w.1 w.2) writes) st in
  log_file_mode st' = ModeA ∧
  (is_Some (log_file st) → is_Some (log_file st')) ∧
  default [] (log_file st')
  = default [] (log_file st)
    ++ Py.write_newlines linesep
         (concat (map (λ w, log_entry w.1 w.2)
                    (filter (λ w, Py.utf8_encodable (log_entry w.1 w.2)) writes))).
Proof.
  unfold Logger.run_calls. revert st.
  induction writes as [|[ts msg] writes IH]; intros st Hst;
    cbn [map foldl run_call fst snd].
  - split_and!; [done|done|]. by rewrite filter_nil, app_nil_r.
  - unfold Logger.write_log at 1 2 3. rewrite Hst.
    destruct (Py.utf8_encodable (log_entry ts msg)) eqn:Henc.
    + rewrite filter_cons_True by (by apply Is_true_true).
      destruct (IH (LogState ModeA
                      (Some (default [] (log_file st)
                             ++ Py.write_newlines linesep (log_entry ts msg))))
                  eq_refl) as (Hm & Hs & Hc).
      split_and!; [done|intros _; by apply Hs; eexists|].
      rewrite Hc. cbn [log_file default from_option id map concat fst snd].
      by rewrite write_newlines_app, app_assoc.
    + rewrite filter_cons_False by (by apply Is_true_false).
      destruct (IH (LogState ModeA (Some (default [] (log_file st)))) eq_refl)
        as (Hm & Hs & Hc).
      split_and!; [done|intros _; by apply Hs; eexists|].
      by rewrite Hc.
Qed.

End PlatformFacts.

(** X24: the log reads back what was written.  From the state logger.py is
    imported in, a series of write_log calls keeps what the file held and
    appends its entries in order; an entry that cannot be encoded (a
    surrogate in it) makes the write raise and appends nothing.  After
    clear_log (with a clock reading that can be encoded, as every reading
    is) the mode is append again and the file holds the line
    "Log file cleared." followed by the entries written since.
    get_log_content returns that text as text-mode reading delivers it,
    with "\r\n" and "\r" turned into "\n"; it is exactly the text written
    when that text holds no carriage return. *)
Theorem log_reads_back_what_was_written
    (linesep : list N) (file : option (list N)) (st : log_state)
    (timestamp : list N) (writes : list (list N * list N)) :
  linesep = [10%N] ∨ linesep = [13%N; 10%N] →
  Py.utf8_encodable timestamp = true →
  let calls := map (λ w, WriteLog w.1 w.2) writes in
  let entries :=
    concat (map (λ w, log_entry w.1 w.2)
              (filter (λ w, Py.utf8_encodable (log_entry w.1 w.2)) writes)) in
  let text := log_entry timestamp (lit "Log file cleared.") ++ entries in
  let st' := run_calls linesep (ClearLog timestamp :: calls) st in
  default [] (log_file (run_calls linesep calls (initial_log file)))
  = default [] file ++ Py.write_newlines linesep entries ∧
  log_file_mode st' = ModeA ∧
  log_file st' = Some (Py.write_newlines linesep text) ∧
  get_log_content st'
  = Py.universal_newlines false (Py.write_newlines linesep text) ∧
  (13%N ∉ text → get_log_content st' = text).
Proof.
  intros Hsep Hts calls entries text st'.
  assert (Py.utf8_encodable (log_entry timestamp (lit "Log file cleared.")) = true)
    as Henc.
  { unfold log_entry, Py.utf8_encodable in *. rewrite !forallb_app, Hts. done. }
  assert (log_file st' = Some (Py.write_newlines linesep text)
          ∧ log_file_mode st' = ModeA) as [Hfile Hmode].
  { subst st' calls. unfold run_calls. cbn [foldl run_call].
    fold (run_calls linesep (map (λ w, WriteLog w.1 w.2) writes)
            (clear_log linesep timestamp st)).
    assert (clear_log linesep timestamp st
            = LogState ModeA
                (Some (Py.write_newlines linesep
                         (log_entry timestamp (lit "Log file cleared.")))))
      as ->.
    { unfold clear_log, write_log. cbn [log_file_mode]. by rewrite Henc. }
    destruct (appended_writes linesep writes
                (LogState ModeA
                   (Some (Py.write_newlines linesep
                            (log_entry timestamp (lit "Log file cleared.")))))
                eq_refl) as (Hm & Hs & Hc).
    split; [|done].
    destruct Hs as [content Hcontent]; [by eexists|].
    rewrite Hcontent in Hc |- *. cbn [default from_option id log_file] in Hc.
    subst text entries. by rewrite Hc, write_newlines_app. }
  split_and!; try done.
  - destruct (appended_writes linesep writes (initial_log file) eq_refl)
      as (_ & _ & Hc).
    subst calls entries. exact Hc.
  - unfold get_log_content. by rewrite Hfile.
  - intros Hcr. unfold get_log_content. rewrite Hfile.
    by apply written_read_back.
Qed.

Lemma log_reads_back_what_was_written_witness :
  let writes := [(lit "2026-01-01 10:00:00", lit "first");
                 (lit "2026-01-01 10:00:01", [0xD800%N]);
                 (lit "2026-01-01 10:00:02", lit "third")] in
  let text :=
    log_entry (lit "2026-01-01 09:59:59") (lit "Log file cleared.")
    ++ log_entry (lit "2026-01-01 10:00:00") (lit "first")
    ++ log_entry (lit "2026-01-01 10:00:02") (lit "third") in
  get_log_content
    (run_calls [13%N; 10%N]
       (ClearLog (lit "2026-01-01 09:59:59")
        :: map (λ w : list N * list N, WriteLog w.1 w.2) writes)
       (initial_log None))
  = text.
Proof.
  intros writes text.
  destruct (log_reads_back_what_was_written [13%N; 10%N] None (initial_log None)
              (lit "2026-01-01 09:59:59") writes) as (_ & _ & _ & _ & H).
  - by right.
  - reflexivity.
  - etrans; [apply H|]; [|vm_compute; reflexivity].
    apply (bool_decide_unpack _). vm_compute. exact I.
Defined.

End LoggerFacts.

(** ** The progress shown while the job runs *)
Module ProgressFacts.
Import Config Stats Processor ProcessorFacts ProcessorMore.

Lemma step_outstanding
    source_field target_field html_to_text_line generate_glossary_data flush_ok
    j j' :
  step source_field target_field html_to_text_line generate_glossary_data
    flush_ok j j' →
  (processed_notes (job_stats j') + outstanding (job_phase j')
   ≤ processed_notes (job_stats j) + outstanding (job_phase j))%Z.
Proof.
  intros [H|H]; [|destruct H; simpl; lia].
  destruct H as [| | |????????? Ht|????? Hp|??????? Hs| |];
    cbn [job_stats job_phase outstanding concat]; rewrite ?length_app;
    cbn [length]; try lia.
  - destruct (task_effect _ _ _ _ _ _ _ _ _ Ht) as (_ & -> & _). lia.
  - rewrite (Permutation_length Hp). lia.
  - destruct (save_effect _ _ _ _ _ _ _ Hs) as (_ & -> & _). lia.
  - simpl. lia.
Qed.

Lemma reachable_outstanding
    source_field target_field html_to_text_line generate_glossary_data flush_ok
    j j' :
  rtc (step source_field target_field html_to_text_line generate_glossary_data
         flush_ok) j j' →
  (processed_notes (job_stats j') + outstanding (job_phase j')
   ≤ processed_notes (job_stats j) + outstanding (job_phase j))%Z.
Proof.
  induction 1 as [|j1 j2 j3 H12 _ IH]; [lia|].
  apply step_outstanding in H12. lia.
Qed.

Lemma outstanding_nonneg ph : (0 ≤ outstanding ph)%Z.
Proof. destruct ph; simpl; lia. Qed.

(** X25: the progress never runs past the end.  In every state the job
    can reach, with or without cancellation, the processed counter lies
    between 0 and the total, the number of selected notes; so the
    percentage shown is the integer 0 for an empty selection and otherwise
    a number between 0 and 100. *)
Theorem progress_within_bounds
    (source_field target_field : list N) (html_to_text_line : list N → list N)
    (generate_glossary_data : list N → option (list N)) (flush_ok : Z → bool)
    (batch_size : Z) (note_ids : list Z) (batches : list (list Z))
    (s0 : stats) (col : gmap Z (gmap (list N) (list N))) (j : job) :
  split_batches batch_size note_ids = Some batches →
  rtc (step source_field target_field html_to_text_line generate_glossary_data
         flush_ok)
      (start_job batches (Z.of_nat (length note_ids)) s0 col) j →
  (0 ≤ processed_notes (job_stats j) ≤ total_notes (job_stats j))%Z ∧
  total_notes (job_stats j) = Z.of_nat (length note_ids) ∧
  match get_progress_percentage (job_stats j) with
  | Some (PyInt z) => z = 0%Z ∧ note_ids = []
  | Some (PyFloat q) => (0 <= q)%Q ∧ (q <= 100)%Q
  | None => False
  end.
Proof.
  intros Hsplit Hrun.
  pose proof (reachable_outstanding _ _ _ _ _ _ _ Hrun) as Hout.
  pose proof (reachable_counters _ _ _ _ _ _ _ Hrun) as (Hproc & _).
  pose proof (job_total_notes _ _ _ _ _ batches note_ids s0 col j Hrun)
    as [Htot _].
  pose proof (outstanding_nonneg (job_phase j)) as Hnn.
  assert (length (concat batches) ≤ length note_ids)%nat as Hlen.
  { unfold split_batches in Hsplit.
    destruct (Z.eqb_spec batch_size 0); [done|].
    destruct (Z.ltb_spec batch_size 0).
    - injection Hsplit as <-. simpl. lia.
    - injection Hsplit as <-. by rewrite chunks_concat by (lia || done). }
  cbn [start_job job_stats job_phase outstanding start_processing reset_stats
       processed_notes] in Hout, Hproc.
  assert (0 ≤ processed_notes (job_stats j) ≤ total_notes (job_stats j))%Z
    as Hbound by lia.
  split; [done|]. split; [done|].
  unfold get_progress_percentage, truediv.
  destruct (Z.gtb_spec (total_notes (job_stats j)) 0) as [Hpos|Hzero].
  - destruct (Z.eqb_spec (total_notes (job_stats j)) 0) as [?|_]; [lia|].
    set (p := processed_notes (job_stats j)) in *.
    set (t := total_notes (job_stats j)) in *.
    assert (0 <= Qmake p 1 / Qmake t 1)%Q as Hq0.
    { apply Qle_shift_div_l; [unfold Qlt; simpl; lia|].
      unfold Qle, Qmult. simpl. lia. }
    assert (Qmake p 1 / Qmake t 1 <= 1)%Q as Hq1.
    { apply Qle_shift_div_r; [unfold Qlt; simpl; lia|].
      unfold Qle, Qmult. simpl. lia. }
    split.
    + apply Qmult_le_0_compat; [done|]. unfold Qle. simpl. lia.
    + apply Qle_trans with (1 * Qmake 100 1)%Q; [|by unfold Qle].
      apply Qmult_le_compat_r; [done|]. unfold Qle. simpl. lia.
  - split; [done|]. destruct note_ids; [done|]. simpl in *. lia.
Qed.

Lemma progress_within_bounds_witness :
  let j := Job (CountLoop [] [[2%Z]]) (increment_empty (start_processing 2 zero_stats))
               one_blank_note in
  (0 ≤ processed_notes (job_stats j) ≤ total_notes (job_stats j))%Z ∧
  total_notes (job_stats j) = Z.of_nat (length [1; 2]%Z) ∧
  match get_progress_percentage (job_stats j) with
  | Some (PyInt z) => z = 0%Z ∧ [1; 2]%Z = []
  | Some (PyFloat q) => (0 <= q)%Q ∧ (q <= 100)%Q
  | None => False
  end.
Proof.
  intros j.
  apply (progress_within_bounds (lit "Expression") (lit "Glossary") id
           (λ _, Some []) (λ _, true) 1 [1; 2]%Z [[1%Z]; [2%Z]] zero_stats
           one_blank_note j).
  - reflexivity.
  - eapply rtc_l; [left; by apply step_submit|].
    eapply rtc_l; [left; by apply (step_task _ _ _ _ _ [] 1%Z [] [] [[2%Z]])|].
    eapply rtc_l; [left; by apply step_joined|].
    eapply rtc_l; [left; by apply step_save|].
    apply rtc_refl.
Defined.

End ProgressFacts.
